(** * Brick Deal Hunter: Cloud Functions backend

    A shallow embedding of the Firebase Cloud Functions module
    (price generation, deal derivation, notification fan-out, subscriber
    registry endpoints and their security helpers), with the properties of
    its specification stated over it.

    Conventions.
    - A JavaScript [number] is an IEEE-754 binary64 value, taken from the
      Standard Library's [SpecFloat] (round to nearest, ties to even).
    - Strings are byte strings; the regular expressions of the source only
      use ASCII classes.
    - A Firestore document is a finite map from field names to values; the
      database accepts every document it is given, and a property whose
      value is [undefined] is not written.
    - Effects (database, clock, [Math.random], push gateway) are threaded
      through an explicit [World] by a state-and-exception monad. *)

From Stdlib Require Import ZArith Bool Lia Ascii String.
From Stdlib Require Import Floats.SpecFloat.
From Stdlib Require Import QArith Qround.
From stdpp Require Import base option list strings gmap.

Open Scope Z_scope.

(* ===================================================================== *)
(** * JavaScript numbers *)
(* ===================================================================== *)

Module JsNumber.

Definition prec : Z := 53.
Definition emax : Z := 1024.

Definition number : Type := spec_float.

Definition NaN : number := S754_nan.

(** An integer literal, or an integer produced by [Math.round] and
    [Math.floor]. *)
Definition of_Z (z : Z) : number := binary_normalize prec emax z 0 false.

Definition add : number -> number -> number := SFadd prec emax.
Definition sub : number -> number -> number := SFsub prec emax.
Definition mul : number -> number -> number := SFmul prec emax.
Definition div : number -> number -> number := SFdiv prec emax.

(** A decimal literal [n/d] such as [0.7]: the double nearest to it. *)
Definition dec (n d : Z) : number := div (of_Z n) (of_Z d).

Definition ltb (x y : number) : bool := SFltb x y.
Definition leb (x y : number) : bool := SFleb x y.
Definition gtb (x y : number) : bool := SFltb y x.
Definition geb (x y : number) : bool := SFleb y x.
Definition eqb (x y : number) : bool := SFeqb x y.

Definition is_nan (x : number) : bool :=
  match x with S754_nan => true | _ => false end.

Definition is_finite (x : number) : bool :=
  match x with S754_zero _ | S754_finite _ _ _ => true | _ => false end.

(** The value of a finite double is [signed m s * 2^e]. *)
Definition signed (s : bool) (m : positive) : Z :=
  if s then Z.neg m else Z.pos m.

(** [Math.round]: the nearest integer, ties towards +infinity. *)
Definition Math_round (x : number) : number :=
  match x with
  | S754_finite s m e =>
      if 0 <=? e then x
      else
        let n := (signed s m * 2 + 2 ^ (- e)) / 2 ^ (1 - e) in
        if n =? 0 then S754_zero s else of_Z n
  | _ => x
  end.

(** [Math.floor]. *)
Definition Math_floor (x : number) : number :=
  match x with
  | S754_finite s m e =>
      if 0 <=? e then x
      else
        let n := signed s m / 2 ^ (- e) in
        if n =? 0 then S754_zero s else of_Z n
  | _ => x
  end.

Definition is_neg_zero (x : number) : bool :=
  match x with S754_zero true => true | _ => false end.

(** [Math.max] and [Math.min] of two numbers: NaN is contagious and
    +0 is larger than -0. *)
Definition Math_max (x y : number) : number :=
  match SFcompare x y with
  | None => NaN
  | Some Lt => y
  | Some Gt => x
  | Some Eq => if is_neg_zero x then y else x
  end.

Definition Math_min (x y : number) : number :=
  match SFcompare x y with
  | None => NaN
  | Some Lt => x
  | Some Gt => y
  | Some Eq => if is_neg_zero x then x else y
  end.

(** A well-formed binary64 value (canonical mantissa and exponent). *)
Definition is_binary64 (x : number) : bool := valid_binary prec emax x.

End JsNumber.

Import JsNumber.

#[global] Arguments of_Z : simpl never.
#[global] Arguments dec : simpl never.
#[global] Arguments add : simpl never.
#[global] Arguments sub : simpl never.
#[global] Arguments mul : simpl never.
#[global] Arguments div : simpl never.
#[global] Arguments ltb : simpl never.
#[global] Arguments leb : simpl never.
#[global] Arguments gtb : simpl never.
#[global] Arguments geb : simpl never.
#[global] Arguments Math_round : simpl never.
#[global] Arguments Math_floor : simpl never.
#[global] Arguments Math_max : simpl never.
#[global] Arguments Math_min : simpl never.

Declare Scope js_scope.
Delimit Scope js_scope with js.
Infix "+" := add : js_scope.
Infix "-" := sub : js_scope.
Infix "*" := mul : js_scope.
Infix "/" := div : js_scope.
Infix "<?" := ltb : js_scope.
Infix "<=?" := leb : js_scope.
Infix ">?" := gtb : js_scope.
Infix ">=?" := geb : js_scope.
Notation "# z" := (of_Z z) (at level 1, format "# z") : js_scope.

(* ===================================================================== *)
(** * Regular expressions of the validators *)
(* ===================================================================== *)

Module Regex.

Local Open Scope char_scope.

Inductive re : Type :=
| ReNone                        (* matches nothing *)
| ReEps                         (* the empty string *)
| ReClass (p : ascii -> bool)   (* one character of a class *)
| ReSeq (r1 r2 : re)
| ReAlt (r1 r2 : re)
| ReStar (r : re).

Fixpoint nullable (r : re) : bool :=
  match r with
  | ReNone => false
  | ReEps => true
  | ReClass _ => false
  | ReSeq r1 r2 => nullable r1 && nullable r2
  | ReAlt r1 r2 => nullable r1 || nullable r2
  | ReStar _ => true
  end.

Fixpoint deriv (c : ascii) (r : re) : re :=
  match r with
  | ReNone => ReNone
  | ReEps => ReNone
  | ReClass p => if p c then ReEps else ReNone
  | ReSeq r1 r2 =>
      if nullable r1
      then ReAlt (ReSeq (deriv c r1) r2) (deriv c r2)
      else ReSeq (deriv c r1) r2
  | ReAlt r1 r2 => ReAlt (deriv c r1) (deriv c r2)
  | ReStar r1 => ReSeq (deriv c r1) (ReStar r1)
  end.

(** [/^r$/.test(s)]: the whole string matches [r]. *)
Fixpoint test (r : re) (s : string) : bool :=
  match s with
  | EmptyString => nullable r
  | String c s' => test (deriv c r) s'
  end.

Definition code (c : ascii) : N := Ascii.N_of_ascii c.

Definition between (lo hi : ascii) (c : ascii) : bool :=
  ((code lo <=? code c) && (code c <=? code hi))%N.

Definition chr (a : ascii) : re := ReClass (fun c => Ascii.eqb c a).
Definition opt (r : re) : re := ReAlt r ReEps.
Definition plus (r : re) : re := ReSeq r (ReStar r).

Fixpoint times (n : nat) (r : re) : re :=
  match n with O => ReEps | S n' => ReSeq r (times n' r) end.

(** [r{lo,lo+extra}] *)
Definition range (lo extra : nat) (r : re) : re :=
  ReSeq (times lo r) (times extra (opt r)).

Fixpoint lit (s : string) : re :=
  match s with
  | EmptyString => ReEps
  | String c s' => ReSeq (chr c) (lit s')
  end.

(** [\d] *)
Definition is_digit (c : ascii) : bool := between "0" "9" c.
Definition digit : re := ReClass is_digit.

(** [[a-zA-Z0-9_-]] *)
Definition is_token_char (c : ascii) : bool :=
  between "a" "z" c || between "A" "Z" c || between "0" "9" c
  || Ascii.eqb c "_" || Ascii.eqb c "-".

(** [/^\d{4,6}(-\d)?$/] *)
Definition set_number_re : re :=
  ReSeq (range 4 2 digit) (opt (ReSeq (chr "-") digit)).

(** [/^ExponentPushToken\[[a-zA-Z0-9_-]+\]$/] *)
Definition expo_token_re : re :=
  ReSeq (lit "ExponentPushToken["%string)
        (ReSeq (plus (ReClass is_token_char)) (chr "]")).

End Regex.

(* ===================================================================== *)
(** * JavaScript values and Firestore documents *)
(* ===================================================================== *)

#[local] Set Warnings "-register-all".

Inductive JsVal : Type :=
| JUndefined
| JNull
| JBool (b : bool)
| JNum (x : number)
| JStr (s : string)
| JArr (l : list JsVal)
| JObj (fields : list (string * JsVal))
| JTime (ms : Z).                     (* a Firestore Timestamp *)

(** Association lists: the fields of an object literal. *)
Fixpoint assoc {A} (k : string) (l : list (string * A)) : option A :=
  match l with
  | [] => None
  | (k', v) :: l' => if String.eqb k k' then Some v else assoc k l'
  end.

Fixpoint assoc_set {A} (k : string) (v : A) (l : list (string * A))
  : list (string * A) :=
  match l with
  | [] => [(k, v)]
  | (k', v') :: l' =>
      if String.eqb k k' then (k, v) :: l' else (k', v') :: assoc_set k v l'
  end.

(** [v?.k]: property access that tolerates a missing or non-object [v]. *)
Definition js_get (v : JsVal) (k : string) : JsVal :=
  match v with
  | JObj fs => default JUndefined (assoc k fs)
  | _ => JUndefined
  end.

(** [a ?? b] *)
Definition nullish_or (a b : JsVal) : JsVal :=
  match a with
  | JUndefined | JNull => b
  | _ => a
  end.

(** [arr.includes(s)] for a string needle. *)
Definition includes_str (l : list JsVal) (s : string) : bool :=
  existsb (fun v => match v with JStr s' => String.eqb s' s | _ => false end) l.

(** [arr.slice(0, n)] *)
Definition slice0 {A} (n : nat) (l : list A) : list A := take n l.

Module Firestore.

Abbreviation Doc := (gmap string JsVal).
Abbreviation Collection := (gmap string (gmap string JsVal)).

(** Merging a written value into the stored one: maps are merged field by
    field, every other value replaces what was there. *)
Fixpoint merge_val (new old : JsVal) {struct new} : JsVal :=
  match new with
  | JObj nfs =>
      match old with
      | JObj ofs =>
          JObj ((fix go (fs : list (string * JsVal)) (acc : list (string * JsVal)) :=
                   match fs with
                   | [] => acc
                   | (k, v) :: fs' =>
                       go fs' (assoc_set k
                                 (match assoc k acc with
                                  | Some ov => merge_val v ov
                                  | None => v
                                  end) acc)
                   end) nfs ofs)
      | _ => new
      end
  | _ => new
  end.

Definition merge_field (d : Doc) (kv : string * JsVal) : Doc :=
  match kv.2 with
  | JUndefined => d
  | v => <[kv.1 := match d !! kv.1 with
                   | Some ov => merge_val v ov
                   | None => v
                   end]> d
  end.

(** [doc(id).set(data, { merge: true })] *)
Definition set_merge (id : string) (data : list (string * JsVal))
    (c : Collection) : Collection :=
  <[id := foldl merge_field (default ∅ (c !! id)) data]> c.

(** [snapshot.docs] of a query: the documents that pass the filter. *)
Definition query (p : Doc -> bool) (c : Collection) : list Doc :=
  filter (fun d => p d = true) (map_to_list c).*2.

Definition field (d : Doc) (k : string) : JsVal :=
  default JUndefined (d !! k).

End Firestore.

Import Firestore.

(* ===================================================================== *)
(** * Validators *)
(* ===================================================================== *)

(** [isValidSetNumber]: a non-empty string of the form ["75192"] or
    ["75192-1"]. *)
Definition isValidSetNumber (setNumber : JsVal) : bool :=
  match setNumber with
  | JStr s => negb (String.eqb s "") && Regex.test Regex.set_number_re s
  | _ => false
  end.

(** [isValidExpoPushToken] *)
Definition isValidExpoPushToken (token : JsVal) : bool :=
  match token with
  | JStr s => negb (String.eqb s "") && Regex.test Regex.expo_token_re s
  | _ => false
  end.

Fixpoint string_filter (p : ascii -> bool) (s : string) : string :=
  match s with
  | EmptyString => EmptyString
  | String c s' =>
      if p c then String c (string_filter p s') else string_filter p s'
  end.

(** [s.replace(/-\d$/, "")] *)
Fixpoint drop_dash_digit (s : string) : string :=
  match s with
  | EmptyString => EmptyString
  | String c s' =>
      match s' with
      | String d EmptyString =>
          if Ascii.eqb c "-" && Regex.is_digit d then EmptyString
          else String c s'
      | _ => String c (drop_dash_digit s')
      end
  end.

(** [sanitizeSetNumber] *)
Definition sanitizeSetNumber (setNumber : string) : string :=
  if isValidSetNumber (JStr setNumber)
  then string_filter Regex.is_digit (drop_dash_digit setNumber)
  else "".

(* ===================================================================== *)
(** * Records of the data model *)
(* ===================================================================== *)

Inductive Availability : Type :=
| available | coming_soon | sold_out | retiring_soon.

Definition availability_eqb (a b : Availability) : bool :=
  match a, b with
  | available, available | coming_soon, coming_soon
  | sold_out, sold_out | retiring_soon, retiring_soon => true
  | _, _ => false
  end.

Record LegoSet : Type := {
  set_setNumber : string;
  set_name : string;
  set_price : number;
  set_imageUrl : string;
  set_url : string;
  set_theme : option string;
  set_themeId : option number;
  set_pieces : option number;
  set_year : option number;
  set_availability : Availability;
}.

Record PriceData : Type := {
  setNumber : string;
  setName : string;
  retailer : string;
  currentPrice : number;
  originalPrice : number;
  url : string;
  inStock : bool;
  lastUpdated : Z;
  theme : option string;
  imageUrl : option string;
  pieces : option number;
}.

(** [DealData extends PriceData] *)
Record DealData : Type := {
  price :> PriceData;
  percentOff : number;
  savings : number;
}.

(** A piece of a template literal: text, or a number to be printed. *)
Inductive TextPart : Type :=
| Txt (s : string)
| Num (x : number).

Record NotificationData : Type := {
  nd_type : string;
  nd_setNumber : string;
  nd_retailer : string;
  nd_percentOff : number;
}.

Record NotificationPayload : Type := {
  np_title : list TextPart;
  np_body : list TextPart;
  np_data : NotificationData;
}.

Record PushMessage : Type := {
  pm_to : JsVal;
  pm_sound : string;
  pm_title : list TextPart;
  pm_body : list TextPart;
  pm_data : NotificationData;
  pm_badge : Z;
  pm_priority : string;
}.

(** [PushToken]: the record [registerPushToken] writes. *)
Record PushToken : Type := {
  pt_token : string;
  pt_platform : string;
  pt_notificationsEnabled : JsVal;
  pt_minDiscountThreshold : number;
  pt_watchedThemes : list JsVal;
  pt_watchedSets : list JsVal;
  pt_lastUpdated : Z;
}.

Definition opt_str (o : option string) : JsVal :=
  match o with Some s => JStr s | None => JUndefined end.

Definition opt_num (o : option number) : JsVal :=
  match o with Some x => JNum x | None => JUndefined end.

(** The object literals handed to Firestore. *)
Definition priceFields (p : PriceData) : list (string * JsVal) :=
  [ ("setNumber", JStr (setNumber p));
    ("setName", JStr (setName p));
    ("retailer", JStr (retailer p));
    ("currentPrice", JNum (currentPrice p));
    ("originalPrice", JNum (originalPrice p));
    ("url", JStr (url p));
    ("inStock", JBool (inStock p));
    ("lastUpdated", JTime (lastUpdated p));
    ("imageUrl", opt_str (imageUrl p));
    ("theme", opt_str (theme p));
    ("pieces", opt_num (pieces p)) ].

Definition dealFields (d : DealData) : list (string * JsVal) :=
  priceFields d ++
  [ ("percentOff", JNum (percentOff d));
    ("savings", JNum (savings d)) ].

Definition pushTokenFields (t : PushToken) : list (string * JsVal) :=
  [ ("token", JStr (pt_token t));
    ("platform", JStr (pt_platform t));
    ("notificationsEnabled", pt_notificationsEnabled t);
    ("minDiscountThreshold", JNum (pt_minDiscountThreshold t));
    ("watchedThemes", JArr (pt_watchedThemes t));
    ("watchedSets", JArr (pt_watchedSets t));
    ("lastUpdated", JTime (pt_lastUpdated t)) ].

(* ===================================================================== *)
(** * The world the functions run in *)
(* ===================================================================== *)

(** An entry of [rateLimitMap]. *)
Record RateRecord : Type := {
  count : Z;
  resetTime : Z;
}.

Inductive FetchOutcome : Type :=
| FetchOk                   (* a 2xx answer *)
| FetchStatus (status : Z)  (* [!response.ok] *)
| FetchFailed.              (* [fetch] threw *)

Inductive Event : Type :=
| RegistryQuery (threshold : number)     (* the enabled/threshold query *)
| RegistryGet (token : string)           (* [doc(token).get()] *)
| GatewayPost (batch : list PushMessage) (outcome : FetchOutcome).

Record World : Type := {
  prices : Collection;
  deals : Collection;
  push_tokens : Collection;
  rateLimitMap : gmap string RateRecord;
  clock : Z;                (* [Date.now()], in milliseconds *)
  rolls : nat;              (* calls of [Math.random] so far *)
  events : list Event;      (* outbound calls, oldest first *)
}.

(** What the process is configured with and cannot control. *)
Record Env : Type := {
  APP_API_KEY : string;
  Math_random : nat -> number;                 (* the n-th random draw *)
  push_gateway : list PushMessage -> FetchOutcome;
}.

Definition with_prices (f : Collection -> Collection) (w : World) : World :=
  {| prices := f (prices w); deals := deals w; push_tokens := push_tokens w;
     rateLimitMap := rateLimitMap w; clock := clock w; rolls := rolls w;
     events := events w |}.

Definition with_deals (f : Collection -> Collection) (w : World) : World :=
  {| prices := prices w; deals := f (deals w); push_tokens := push_tokens w;
     rateLimitMap := rateLimitMap w; clock := clock w; rolls := rolls w;
     events := events w |}.

Definition with_push_tokens (f : Collection -> Collection) (w : World) : World :=
  {| prices := prices w; deals := deals w; push_tokens := f (push_tokens w);
     rateLimitMap := rateLimitMap w; clock := clock w; rolls := rolls w;
     events := events w |}.

Definition with_rateLimitMap
    (f : gmap string RateRecord -> gmap string RateRecord) (w : World) : World :=
  {| prices := prices w; deals := deals w; push_tokens := push_tokens w;
     rateLimitMap := f (rateLimitMap w); clock := clock w; rolls := rolls w;
     events := events w |}.

Definition with_clock (f : Z -> Z) (w : World) : World :=
  {| prices := prices w; deals := deals w; push_tokens := push_tokens w;
     rateLimitMap := rateLimitMap w; clock := f (clock w); rolls := rolls w;
     events := events w |}.

Definition with_rolls (f : nat -> nat) (w : World) : World :=
  {| prices := prices w; deals := deals w; push_tokens := push_tokens w;
     rateLimitMap := rateLimitMap w; clock := clock w; rolls := f (rolls w);
     events := events w |}.

Definition with_events (f : list Event -> list Event) (w : World) : World :=
  {| prices := prices w; deals := deals w; push_tokens := push_tokens w;
     rateLimitMap := rateLimitMap w; clock := clock w; rolls := rolls w;
     events := f (events w) |}.

(** ** The monad: state, and exceptions that [try]/[catch] can intercept *)

Inductive Result (A : Type) : Type :=
| Ok (a : A)
| Throw (err : string).
Arguments Ok {A} a.
Arguments Throw {A} err.

Definition M (A : Type) : Type := World -> Result A * World.

#[export] Instance M_ret : MRet M := fun A a w => (Ok a, w).

#[export] Instance M_bind : MBind M := fun A B f m w =>
  match m w with
  | (Ok a, w') => f a w'
  | (Throw e, w') => (Throw e, w')
  end.

Definition throw {A} (err : string) : M A := fun w => (Throw err, w).

Definition try_catch {A} (body : M A) (handler : string -> M A) : M A :=
  fun w =>
    match body w with
    | (Ok a, w') => (Ok a, w')
    | (Throw e, w') => handler e w'
    end.

Definition get_world : M World := fun w => (Ok w, w).
Definition modify (f : World -> World) : M unit := fun w => (Ok tt, f w).
Definition emit (e : Event) : M unit := modify (with_events (fun l => l ++ [e])).

(** [for (const x of l) body(x)] *)
Fixpoint for_each {A} (l : list A) (body : A -> M unit) : M unit :=
  match l with
  | [] => mret tt
  | x :: l' => body x ;; for_each l' body
  end.

(* ===================================================================== *)
(** * HTTP requests and responses *)
(* ===================================================================== *)

Record Request : Type := {
  method : string;
  headers : gmap string string;
  remoteAddress : option string;     (* [req.connection?.remoteAddress] *)
  body : JsVal;                      (* as parsed by the platform: never
                                        [null] or [undefined] *)
}.

Record Response : Type := {
  status : Z;
  res_headers : list (string * string);
  res_body : JsVal;
}.

(** [a || b] on possibly missing strings: the empty string is falsy. *)
Definition str_or (a b : option string) : option string :=
  match a with
  | Some s => if String.eqb s "" then b else Some s
  | None => b
  end.

(** [s.replace(pat, "")]: the first occurrence of [pat] is removed. *)
Fixpoint remove_first (pat s : string) : string :=
  if String.prefix pat s
  then String.substring (String.length pat) (String.length s - String.length pat) s
  else match s with
       | EmptyString => EmptyString
       | String c s' => String c (remove_first pat s')
       end.

(** [s.split(",")[0]] *)
Fixpoint before_comma (s : string) : string :=
  match s with
  | EmptyString => EmptyString
  | String c s' => if Ascii.eqb c "," then EmptyString else String c (before_comma s')
  end.

Definition ALLOWED_ORIGINS : list string :=
  [ "https://brickdealhunter.com";
    "https://www.brickdealhunter.com";
    "exp://";
    "https://exp.host" ].

Definition RATE_LIMIT_WINDOW_MS : Z := 60000.
Definition RATE_LIMIT_MAX_REQUESTS : Z := 30.

Definition json_ok (message : string) : JsVal :=
  JObj [("success", JBool true); ("message", JStr message)].

Definition json_error (message : string) : JsVal :=
  JObj [("success", JBool false); ("error", JStr message)].

(** [arr.slice(i, i + n)] for [i = 0, n, 2n, ...]: the batches of a
    [for (let i = 0; i < arr.length; i += n)] loop. *)
Fixpoint batches_aux {A} (fuel n : nat) (l : list A) : list (list A) :=
  match fuel with
  | O => []
  | S fuel' =>
      match l with
      | [] => []
      | _ => take n l :: batches_aux fuel' n (drop n l)
      end
  end.

Definition batches {A} (n : nat) (l : list A) : list (list A) :=
  batches_aux (length l) n l.

Fixpoint upper (s : string) : string :=
  match s with
  | EmptyString => EmptyString
  | String c s' =>
      String (if Regex.between "a" "z" c
              then Ascii.ascii_of_N (Ascii.N_of_ascii c - 32) else c)
             (upper s')
  end.

Definition retailers : list string :=
  [ "lego"; "amazon"; "walmart"; "target"; "best_buy";
    "kohls"; "gamestop"; "shop_disney"; "macys";
    "barnes_noble"; "sams_club"; "walgreens" ].

(** The [switch] of [getRetailerUrl]: the text in front of the set number. *)
Definition retailer_url_prefix : list (string * string) :=
  [ ("lego", "https://www.lego.com/en-us/product/");
    ("amazon", "https://www.amazon.com/s?k=LEGO+");
    ("walmart", "https://www.walmart.com/search?q=LEGO+");
    ("target", "https://www.target.com/s?searchTerm=LEGO+");
    ("best_buy", "https://www.bestbuy.com/site/searchpage.jsp?st=LEGO+");
    ("kohls", "https://www.kohls.com/search.jsp?search=LEGO+");
    ("gamestop", "https://www.gamestop.com/search/?q=LEGO+");
    ("shop_disney", "https://www.shopdisney.com/search?q=LEGO+");
    ("macys", "https://www.macys.com/shop/featured/lego+");
    ("barnes_noble", "https://www.barnesandnoble.com/s/LEGO+");
    ("sams_club", "https://www.samsclub.com/s/LEGO+");
    ("walgreens", "https://www.walgreens.com/search/results.jsp?Ntt=LEGO+") ].

Definition getRetailerUrl (retailer setNumber : string) : string :=
  let cleanSetNum := sanitizeSetNumber setNumber in
  match assoc retailer retailer_url_prefix with
  | Some prefix => prefix +:+ cleanSetNum
  | None => ""
  end.

(* ===================================================================== *)
(** * Deal derivation: the block inlined in the [updatePrices] loop *)
(* ===================================================================== *)

Definition computePercentOff (p : PriceData) : number :=
  Math_round
    (((originalPrice p - currentPrice p) / originalPrice p) * #100)%js.

Definition computeSavings (p : PriceData) : number :=
  (Math_round ((originalPrice p - currentPrice p) * #100) / #100)%js.

(** [if (percentOff >= 10 && priceData.inStock) { const deal = ... }] *)
Definition deriveDeal (p : PriceData) : option DealData :=
  let percentOff := computePercentOff p in
  if (percentOff >=? #10)%js && inStock p
  then Some {| price := p;
               percentOff := percentOff;
               savings := computeSavings p |}
  else None.

Definition docId (p : PriceData) : string :=
  setNumber p +:+ "_" +:+ retailer p.

(** The per-subscriber test of [getEligiblePushTokens], for a record whose
    watched lists are arrays. *)
Definition truthy_str (o : option string) : bool :=
  match o with
  | Some s => negb (String.eqb s "")
  | None => false
  end.

Definition watchingTheme (deal : DealData) (watchedThemes : list JsVal) : bool :=
  if truthy_str (theme deal) && (0 <? length watchedThemes)%nat
  then includes_str watchedThemes (default "" (theme deal))
  else true.

Definition watchingSet (deal : DealData) (watchedSets : list JsVal) : bool :=
  if (0 <? length watchedSets)%nat
  then includes_str watchedSets (setNumber deal)
  else true.

(* ===================================================================== *)
(** * The functions of the backend *)
(* ===================================================================== *)

Section Backend.

Context (env : Env).

Definition Date_now : M Z := fun w => (Ok (clock w), w).

Definition random : M number :=
  fun w => (Ok (Math_random env (rolls w)), with_rolls S w).

(** [await new Promise(resolve => setTimeout(resolve, ms))] *)
Definition sleep (ms : Z) : M unit := modify (with_clock (fun t => t + ms)).

(** ** Security helpers *)

Definition validateApiKey (req : Request) : bool :=
  let apiKey :=
    str_or (headers req !! "x-api-key")
           (remove_first "Bearer " <$> (headers req !! "authorization")) in
  if String.eqb (APP_API_KEY env) "" then true
  else match apiKey with
       | Some k => String.eqb k (APP_API_KEY env)
       | None => false
       end.

Definition checkRateLimit (ip : string) : M bool :=
  now ← Date_now;
  w ← get_world;
  match rateLimitMap w !! ip with
  | Some record =>
      if now >? resetTime record then
        modify (with_rateLimitMap
                  <[ip := {| count := 1;
                             resetTime := now + RATE_LIMIT_WINDOW_MS |}]>) ;;
        mret true
      else if count record >=? RATE_LIMIT_MAX_REQUESTS then
        mret false
      else
        modify (with_rateLimitMap
                  <[ip := {| count := count record + 1;
                             resetTime := resetTime record |}]>) ;;
        mret true
  | None =>
      modify (with_rateLimitMap
                <[ip := {| count := 1;
                           resetTime := now + RATE_LIMIT_WINDOW_MS |}]>) ;;
      mret true
  end.

Definition getClientIp (req : Request) : string :=
  default "unknown"
    (str_or (before_comma <$> (headers req !! "x-forwarded-for"))
            (str_or (remoteAddress req) (Some "unknown"))).

Definition setCorsHeaders (req : Request) : list (string * string) :=
  let origin := default "" (headers req !! "origin") in
  let isAllowed :=
    existsb (fun allowed => String.prefix allowed origin || String.eqb allowed "*")
            ALLOWED_ORIGINS in
  [ ("Access-Control-Allow-Origin",
     if isAllowed || String.eqb (APP_API_KEY env) ""
     then (if String.eqb origin "" then "*" else origin)
     else "https://brickdealhunter.com");
    ("Access-Control-Allow-Methods", "POST, OPTIONS");
    ("Access-Control-Allow-Headers", "Content-Type, X-API-Key, Authorization");
    ("Access-Control-Max-Age", "86400") ].

Definition safeErrorResponse (hs : list (string * string))
    (statusCode : Z) (message : string) : Response :=
  {| status := statusCode; res_headers := hs; res_body := json_error message |}.

Definition jsonResponse (hs : list (string * string)) (v : JsVal) : Response :=
  {| status := 200; res_headers := hs; res_body := v |}.

(** ** Price data *)

Definition generateSimulatedPrice (set : LegoSet) (retailer : string)
  : M PriceData :=
  let originalPrice := set_price set in
  discountPercent ←
    (if String.eqb retailer "lego" then mret #0%js
     else
       r1 ← random;
       d1 ← (if (r1 <? dec 7 10)%js
             then r2 ← random; mret (Math_floor (r2 * #31) + #10)%js
             else mret #0%js);
       r3 ← random;
       if (r3 <? dec 1 10)%js
       then r4 ← random; mret (Math_floor (r4 * #21) + #40)%js
       else mret d1);
  let currentPrice :=
    (Math_round (originalPrice * (#1 - discountPercent / #100) * #100) / #100)%js in
  inStock ←
    (if availability_eqb (set_availability set) available
     then r ← random; mret (r >? dec 15 100)%js
     else mret false);
  now ← Date_now;
  mret {| setNumber := set_setNumber set;
          setName := set_name set;
          retailer := retailer;
          currentPrice := currentPrice;
          originalPrice := originalPrice;
          url := getRetailerUrl retailer (set_setNumber set);
          inStock := inStock;
          lastUpdated := now;
          imageUrl := Some (set_imageUrl set);
          theme := set_theme set;
          pieces := set_pieces set |}.

Definition savePriceToFirestore (p : PriceData) : M unit :=
  modify (with_prices (set_merge (docId p) (priceFields p))).

Definition saveDealToFirestore (deal : DealData) : M unit :=
  modify (with_deals (set_merge (docId deal) (dealFields deal))).

(** ** Push notifications *)

Definition enabled_and_threshold (percentOff : number) (d : Doc) : bool :=
  match field d "notificationsEnabled", field d "minDiscountThreshold" with
  | JBool true, JNum x => (x <=? percentOff)%js
  | _, _ => false
  end.

(** [tokenData.watchedThemes] read as an array; anything else is a type
    error of the unchecked cast [doc.data() as PushToken]. *)
Definition watched (d : Doc) (k : string) : M (list JsVal) :=
  match field d k with
  | JArr l => mret l
  | _ => throw "TypeError"
  end.

Fixpoint eligibleLoop (deal : DealData) (docs : list Doc)
    (eligibleTokens : list JsVal) : M (list JsVal) :=
  match docs with
  | [] => mret eligibleTokens
  | tokenData :: docs' =>
      wTheme ← (if truthy_str (theme deal)
                then l ← watched tokenData "watchedThemes";
                     mret (watchingTheme deal l)
                else mret true);
      wSet ← (l ← watched tokenData "watchedSets"; mret (watchingSet deal l));
      eligibleLoop deal docs'
        (if wTheme || wSet
         then eligibleTokens ++ [field tokenData "token"]
         else eligibleTokens)
  end.

Definition getEligiblePushTokens (deal : DealData) : M (list JsVal) :=
  emit (RegistryQuery (percentOff deal)) ;;
  w ← get_world;
  eligibleLoop deal
    (query (enabled_and_threshold (percentOff deal)) (push_tokens w)) [].

Definition pushMessage (notification : NotificationPayload) (token : JsVal)
  : PushMessage :=
  {| pm_to := token;
     pm_sound := "default";
     pm_title := np_title notification;
     pm_body := np_body notification;
     pm_data := np_data notification;
     pm_badge := 1;
     pm_priority := "high" |}.

Definition sendExpoPushNotification (pushTokens : list JsVal)
    (notification : NotificationPayload) : M unit :=
  if (length pushTokens =? 0)%nat then mret tt
  else
    let messages := pushMessage notification <$> pushTokens in
    for_each (batches 100 messages)
      (fun batch => emit (GatewayPost batch (push_gateway env batch))).

Definition hotDealNotification (deal : DealData) : NotificationPayload :=
  {| np_title := [Num (percentOff deal); Txt "% OFF - Hot Deal!"];
     np_body := [Txt (setName deal); Txt " at "; Txt (upper (retailer deal));
                 Txt " - Now $"; Num (currentPrice deal);
                 Txt " (Save $"; Num (savings deal); Txt ")"];
     np_data := {| nd_type := "deal";
                   nd_setNumber := setNumber deal;
                   nd_retailer := retailer deal;
                   nd_percentOff := percentOff deal |} |}.

Definition notifyHotDeal (deal : DealData) : M unit :=
  if (percentOff deal <? #40)%js then mret tt
  else
    tokens ← getEligiblePushTokens deal;
    if (length tokens =? 0)%nat then mret tt
    else sendExpoPushNotification tokens (hotDealNotification deal).

(** ** The loop of the scheduled [updatePrices] job *)

(** One iteration for a (set, retailer) pair; answers whether a deal was
    found. *)
Definition deriveAndPersist (priceData : PriceData) : M bool :=
  match deriveDeal priceData with
  | Some deal =>
      saveDealToFirestore deal ;;
      (if (percentOff deal >=? #40)%js
       then notifyHotDeal deal else mret tt) ;;
      mret true
  | None => mret false
  end.

Definition processPair (set : LegoSet) (retailer : string) : M bool :=
  priceData ← generateSimulatedPrice set retailer;
  savePriceToFirestore priceData ;;
  found ← deriveAndPersist priceData;
  sleep 50 ;;
  mret found.

(** [dealsFound++] when the pair produced a deal. *)
Definition tally (found : bool) (dealsFound : nat) : nat :=
  if found then S dealsFound else dealsFound.

Fixpoint forRetailers (set : LegoSet) (rs : list string) (dealsFound : nat)
  : M nat :=
  match rs with
  | [] => mret dealsFound
  | retailer :: rs' =>
      found ← processPair set retailer;
      forRetailers set rs' (tally found dealsFound)
  end.

Fixpoint forSets (sets : list LegoSet) (dealsFound : nat) : M nat :=
  match sets with
  | [] => mret dealsFound
  | set :: sets' =>
      n ← forRetailers set retailers dealsFound;
      forSets sets' n
  end.

Definition updatePricesLoop (sets : list LegoSet) : M nat :=
  forSets (slice0 100 sets) 0%nat.

(** ** HTTP endpoints *)

Definition validPlatforms : list string := ["ios"; "android"; "web"].

Definition platformValue (platform : JsVal) : string :=
  match platform with
  | JStr p => if existsb (String.eqb p) validPlatforms then p else "ios"
  | _ => "ios"
  end.

Definition minDiscount (preferences : JsVal) : number :=
  match js_get preferences "minDiscountThreshold" with
  | JNum x => Math_min (Math_max x #0%js) #100%js
  | _ => #20%js
  end.

Definition tokenData (token : string) (platform preferences : JsVal)
    (now : Z) : PushToken :=
  {| pt_token := token;
     pt_platform := platformValue platform;
     pt_notificationsEnabled :=
       nullish_or (js_get preferences "notificationsEnabled") (JBool true);
     pt_minDiscountThreshold := minDiscount preferences;
     pt_watchedThemes :=
       match js_get preferences "watchedThemes" with
       | JArr l => slice0 50 l
       | _ => []
       end;
     pt_watchedSets :=
       match js_get preferences "watchedSets" with
       | JArr l => slice0 100 (filter (fun v => isValidSetNumber v = true) l)
       | _ => []
       end;
     pt_lastUpdated := now |}.

Definition registerPushToken (req : Request) : M Response :=
  let cors := setCorsHeaders req in
  if String.eqb (method req) "OPTIONS" then
    mret {| status := 204; res_headers := cors; res_body := JStr "" |}
  else if negb (String.eqb (method req) "POST") then
    mret (safeErrorResponse cors 405 "Method not allowed")
  else
    admitted ← checkRateLimit (getClientIp req);
    if negb admitted then
      mret (safeErrorResponse cors 429 "Too many requests")
    else
      try_catch
        (let b := body req in
         match js_get b "token" with
         | JStr token =>
             if negb (isValidExpoPushToken (JStr token)) then
               mret (safeErrorResponse cors 400 "Invalid push token format")
             else
               now ← Date_now;
               modify (with_push_tokens
                         (set_merge token
                            (pushTokenFields
                               (tokenData token (js_get b "platform")
                                          (js_get b "preferences") now)))) ;;
               mret (jsonResponse cors (json_ok "Push token registered successfully"))
         | _ => mret (safeErrorResponse cors 400 "Invalid push token format")
         end)
        (fun _ => mret (safeErrorResponse cors 500 "Registration failed")).

Definition testNotification : NotificationPayload :=
  {| np_title := [Txt "Test Notification"];
     np_body := [Txt "Brick Deal Hunter notifications are working!"];
     np_data := {| nd_type := "deal";
                   nd_setNumber := "TEST-1";
                   nd_retailer := "test";
                   nd_percentOff := #50%js |} |}.

Definition sendTestNotification (req : Request) : M Response :=
  let cors := setCorsHeaders req in
  if String.eqb (method req) "OPTIONS" then
    mret {| status := 204; res_headers := cors; res_body := JStr "" |}
  else if negb (String.eqb (method req) "POST") then
    mret (safeErrorResponse cors 405 "Method not allowed")
  else
    admitted ← checkRateLimit (getClientIp req);
    if negb admitted then
      mret (safeErrorResponse cors 429 "Too many requests")
    else
      try_catch
        (let b := body req in
         match js_get b "token" with
         | JStr token =>
             if negb (isValidExpoPushToken (JStr token)) then
               mret (safeErrorResponse cors 400 "Invalid push token format")
             else
               emit (RegistryGet token) ;;
               w ← get_world;
               match push_tokens w !! token with
               | None => mret (safeErrorResponse cors 404 "Token not registered")
               | Some _ =>
                   sendExpoPushNotification [JStr token] testNotification ;;
                   mret (jsonResponse cors (json_ok "Test notification sent"))
               end
         | _ => mret (safeErrorResponse cors 400 "Invalid push token format")
         end)
        (fun _ => mret (safeErrorResponse cors 500 "Failed to send notification")).

(** The admin endpoints put this gate in front of their work:
    [if (!validateApiKey(req)) { safeErrorResponse(res, 401, ...); return; }] *)
Definition apiKeyGate (req : Request) (work : M Response) : M Response :=
  if negb (validateApiKey req)
  then mret (safeErrorResponse [] 401 "Unauthorized")
  else work.

End Backend.

#[global] Arguments sendExpoPushNotification : simpl never.
#[global] Arguments checkRateLimit : simpl never.

(** ** Sample values *)

Definition world0 : World :=
  {| prices := ∅; deals := ∅; push_tokens := ∅; rateLimitMap := ∅;
     clock := 0; rolls := 0%nat; events := [] |}.

(** A development environment: no API key, every draw [0.5], a gateway that
    answers 2xx. *)
Definition devEnv : Env :=
  {| APP_API_KEY := "";
     Math_random := fun _ => dec 1 2;
     push_gateway := fun _ => FetchOk |}.

(** A production environment: the API key is configured. *)
Definition prodEnv : Env :=
  {| APP_API_KEY := "s3cret";
     Math_random := fun _ => dec 1 2;
     push_gateway := fun _ => FetchOk |}.

Definition observation (original current : Z) (stock : bool) : PriceData :=
  {| setNumber := "75192"; setName := "Millennium Falcon"; retailer := "amazon";
     currentPrice := #current%js; originalPrice := #original%js;
     url := "https://www.amazon.com/s?k=LEGO+75192"; inStock := stock;
     lastUpdated := 0; theme := Some "Star Wars"; imageUrl := None;
     pieces := None |}.

(* ===================================================================== *)
(** * Observations on a run *)
(* ===================================================================== *)

(** [w] after the events [evs] have been appended to its log. *)
Definition append_events (evs : list Event) (w : World) : World :=
  {| prices := prices w; deals := deals w; push_tokens := push_tokens w;
     rateLimitMap := rateLimitMap w; clock := clock w; rolls := rolls w;
     events := events w ++ evs |}.

(** The gateway calls made for a list of batches. *)
Definition posts (env : Env) (bs : list (list PushMessage)) : list Event :=
  (fun batch => GatewayPost batch (push_gateway env batch)) <$> bs.

(** ** The percentage of the data model, in the specification's words *)

(** [round(100 * (baseline - current) / baseline)], evaluated in doubles in
    the order it is written. *)
Definition specPercentOff (baseline current : number) : number :=
  Math_round ((#100 * (baseline - current)) / baseline)%js.

(** The same percentage over the rationals, where no operation rounds. *)
Definition exactPercentOff (baseline current : Q) : Z :=
  Qfloor (100 * (baseline - current) / baseline + 1 / 2)%Q.

(** A price that is a finite double other than zero. *)
Definition is_finite_nonzero (x : number) : bool :=
  match x with S754_finite _ _ _ => true | _ => false end.

(** The catalogue entry used in the examples. *)
Definition falcon : LegoSet :=
  {| set_setNumber := "75192-1"; set_name := "Millennium Falcon";
     set_price := #100%js;
     set_imageUrl := "https://cdn.rebrickable.com/media/sets/75192-1.jpg";
     set_url := "https://www.lego.com/en-us/product/75192";
     set_theme := Some "Star Wars"; set_themeId := Some #158%js;
     set_pieces := Some #7541%js; set_year := Some #2017%js;
     set_availability := available |}.

(** What [generateSimulatedPrice] yields for [falcon] at "amazon" when
    every draw is [0.5] (a 25% discount, in stock), and the deal derived
    from it. *)
Definition falconAtAmazon : PriceData :=
  {| setNumber := "75192-1"; setName := "Millennium Falcon";
     retailer := "amazon";
     currentPrice := #75%js; originalPrice := #100%js;
     url := "https://www.amazon.com/s?k=LEGO+75192";
     inStock := true; lastUpdated := 0;
     theme := Some "Star Wars";
     imageUrl := Some "https://cdn.rebrickable.com/media/sets/75192-1.jpg";
     pieces := Some #7541%js |}.

Definition falconDeal : DealData :=
  {| price := falconAtAmazon; percentOff := #25%js; savings := #25%js |}.

(** ** Subscriber records *)

Definition watchedThemesOf (d : Doc) : list JsVal :=
  match field d "watchedThemes" with JArr l => l | _ => [] end.

Definition watchedSetsOf (d : Doc) : list JsVal :=
  match field d "watchedSets" with JArr l => l | _ => [] end.

(** A document of [PushToken] shape as far as the fan-out reads it: both
    watched lists are arrays. *)
Definition is_subscriber (d : Doc) : bool :=
  match field d "watchedThemes", field d "watchedSets" with
  | JArr _, JArr _ => true
  | _, _ => false
  end.

(** The test the fan-out loop applies to a subscriber record. *)
Definition eligible (deal : DealData) (d : Doc) : bool :=
  watchingTheme deal (watchedThemesOf d) || watchingSet deal (watchedSetsOf d).

(** The subscribers handed to the loop: the enabled/threshold query. *)
Definition queried (deal : DealData) (w : World) : list Doc :=
  query (enabled_and_threshold (percentOff deal)) (push_tokens w).

(** The matching rule in the specification's words: (watched themes empty
    or containing the deal's theme) or (watched sets empty or containing the
    deal's set number). *)
Definition specEligible (deal : DealData) (d : Doc) : bool :=
  (match watchedThemesOf d with [] => true | _ => false end
   || match theme deal with
      | Some t => includes_str (watchedThemesOf d) t
      | None => false
      end)
  || (match watchedSetsOf d with [] => true | _ => false end
      || includes_str (watchedSetsOf d) (setNumber deal)).

(** A registered subscriber, as [registerPushToken] stores it. *)
Definition subscriberDoc (token : string) (threshold : Z)
    (themes sets : list string) : Doc :=
  foldl merge_field ∅
    (pushTokenFields
       {| pt_token := token; pt_platform := "ios";
          pt_notificationsEnabled := JBool true;
          pt_minDiscountThreshold := #threshold%js;
          pt_watchedThemes := JStr <$> themes;
          pt_watchedSets := JStr <$> sets;
          pt_lastUpdated := 0 |}).

Definition registry (subs : list (string * Doc)) : World :=
  {| prices := ∅; deals := ∅; push_tokens := list_to_map subs;
     rateLimitMap := ∅; clock := 0; rolls := 0%nat; events := [] |}.

(** A deal on set [setNo] of theme [th] at [pct] percent off. *)
Definition dealOn (setNo : string) (th : option string) (pct : Z) : DealData :=
  {| price := {| setNumber := setNo; setName := "A set"; retailer := "amazon";
                 currentPrice := #(100 - pct)%js; originalPrice := #100%js;
                 url := ""; inStock := true; lastUpdated := 0; theme := th;
                 imageUrl := None; pieces := None |};
     percentOff := #pct%js;
     savings := #pct%js |}.

(** Watches the theme "Star Wars" and the set 75192. *)
Definition themeAndSetWatcher : Doc :=
  subscriberDoc "ExponentPushToken[both]" 20 ["Star Wars"] ["75192"].

(** Watches the theme "Star Wars" and no set. *)
Definition starWarsWatcher : Doc :=
  subscriberDoc "ExponentPushToken[starwars]" 20 ["Star Wars"] [].

(** The gateway calls recorded in a log. *)
Definition is_gateway_post (e : Event) : bool :=
  match e with GatewayPost _ _ => true | _ => false end.

Definition gatewayCalls (evs : list Event) : list Event :=
  filter (fun e => is_gateway_post e = true) evs.

(** ** Registration *)

(** The request [POST registerPushToken] with body
    [{ token, preferences }] from the address 203.0.113.7. *)
Definition registerRequest (token : JsVal) (preferences : JsVal) : Request :=
  {| method := "POST"; headers := ∅; remoteAddress := Some "203.0.113.7";
     body := JObj [("token", token); ("platform", JStr "android");
                   ("preferences", preferences)] |}.

(** A value that a merge-mode write stores as it is: neither [undefined]
    (not written) nor a map (merged field by field). *)
Definition is_atom (v : JsVal) : bool :=
  match v with JUndefined | JObj _ => false | _ => true end.

(** The world after the rate limiter has admitted or refused [req]. *)
Definition afterRateLimit (req : Request) (w : World) : World :=
  (checkRateLimit (getClientIp req) w).2.

Definition admitted (req : Request) (w : World) : Prop :=
  (checkRateLimit (getClientIp req) w).1 = Ok true.

(** The list a client asks to watch: [preferences?.k] when it is an array. *)
Definition requestedList (preferences : JsVal) (k : string) : list JsVal :=
  match js_get preferences k with JArr l => l | _ => [] end.

(** The names of the fields [registerPushToken] writes. *)
Definition pushTokenFieldNames : list string :=
  [ "token"; "platform"; "notificationsEnabled"; "minDiscountThreshold";
    "watchedThemes"; "watchedSets"; "lastUpdated" ].

(** A subscriber registered earlier with preferences of their own, and a
    field that [registerPushToken] does not know. *)
Definition tunedSubscriber : Doc :=
  <["quietHoursStart" := JNum #22%js]>
    (subscriberDoc "ExponentPushToken[abc123]" 55 ["Star Wars"] ["75192"]).

(** ** Requests over time *)

(** The status an endpoint answered with. *)
Definition statusOf (r : Result Response * World) : option Z :=
  match r.1 with
  | Ok res => Some (status res)
  | Throw _ => None
  end.

(** A request from [ip] reaches the rate limiter at time [t]. *)
Definition arrive (ip : string) (t : Z) (w : World) : bool * World :=
  match checkRateLimit ip (with_clock (fun _ => t) w) with
  | (Ok b, w') => (b, w')
  | (Throw _, w') => (false, w')
  end.

(** The limiter's decisions on a sequence of (ip, arrival time). *)
Fixpoint serve (reqs : list (string * Z)) (w : World) : list bool :=
  match reqs with
  | [] => []
  | (ip, t) :: reqs' =>
      let '(b, w') := arrive ip t w in
      b :: serve reqs' w'
  end.

(** The decisions on the requests of one client, in order. *)
Definition decisionsFor (ip : string) (reqs : list (string * Z)) (w : World)
  : list bool :=
  (filter (fun rd : string * Z * bool => String.eqb rd.1.1 ip = true)
          (zip reqs (serve reqs w))).*2.

(** How many requests of [ip] arriving in [lo, hi) were admitted. *)
Definition admittedWithin (ip : string) (lo hi : Z)
    (reqs : list (string * Z)) (w : World) : nat :=
  length
    (filter (fun rd : string * Z * bool =>
               (String.eqb rd.1.1 ip && (lo <=? rd.1.2) && (rd.1.2 <? hi)
                && rd.2) = true)
            (zip reqs (serve reqs w))).

(** [t] opens a new window for [ip]: no record yet, or the last window has
    expired. *)
Definition opensWindow (ip : string) (t : Z) (w : World) : Prop :=
  match rateLimitMap w !! ip with
  | None => True
  | Some record => resetTime record < t
  end.

(** One request at time 0, 29 at 59.999 s, 30 more at 60.001 s. *)
Definition burst : list (string * Z) :=
  ("203.0.113.7", 0) :: replicate 29 ("203.0.113.7", 59999)
  ++ replicate 30 ("203.0.113.7", 60001).

(** [POST sendTestNotification] for a token, with no API key header. *)
Definition anonymousTestRequest (token : string) : Request :=
  {| method := "POST"; headers := ∅; remoteAddress := Some "198.51.100.9";
     body := JObj [("token", JStr token)] |}.

(** The decisions a window makes on [n] further requests once [c] have
    been counted. *)
Fixpoint windowDecisions (c : Z) (n : nat) : list bool :=
  match n with
  | O => []
  | S n' =>
      if c >=? RATE_LIMIT_MAX_REQUESTS then false :: windowDecisions c n'
      else true :: windowDecisions (c + 1) n'
  end.

(** The requests of [ip] in a sequence. *)
Definition requestsOf (ip : string) (reqs : list (string * Z))
  : list (string * Z) :=
  filter (fun r : string * Z => String.eqb r.1 ip = true) reqs.

(* ===================================================================== *)
(** * Further definitions: the rest of the module *)
(* ===================================================================== *)

From stdpp Require pretty.

(** ** What a regular expression denotes *)

Inductive re_matches : Regex.re -> string -> Prop :=
| MEps : re_matches Regex.ReEps ""
| MClass p c : p c = true -> re_matches (Regex.ReClass p) (String c "")
| MSeq r1 r2 s1 s2 :
    re_matches r1 s1 -> re_matches r2 s2 ->
    re_matches (Regex.ReSeq r1 r2) (s1 +:+ s2)
| MAltL r1 r2 s : re_matches r1 s -> re_matches (Regex.ReAlt r1 r2) s
| MAltR r1 r2 s : re_matches r2 s -> re_matches (Regex.ReAlt r1 r2) s
| MStarNil r : re_matches (Regex.ReStar r) ""
| MStarApp r s1 s2 :
    re_matches r s1 -> re_matches (Regex.ReStar r) s2 ->
    re_matches (Regex.ReStar r) (s1 +:+ s2).

(** Every character of [s] is in the class [p]. *)
Fixpoint string_forall (p : ascii -> bool) (s : string) : bool :=
  match s with
  | EmptyString => true
  | String c s' => p c && string_forall p s'
  end.

(** ** Retailer links, as the source writes them *)

Definition ALLOWED_RETAILER_DOMAINS : list (string * string) :=
  [ ("lego", "lego.com");
    ("amazon", "amazon.com");
    ("walmart", "walmart.com");
    ("target", "target.com");
    ("best_buy", "bestbuy.com");
    ("kohls", "kohls.com");
    ("gamestop", "gamestop.com");
    ("shop_disney", "shopdisney.com");
    ("macys", "macys.com");
    ("barnes_noble", "barnesandnoble.com");
    ("sams_club", "samsclub.com");
    ("walgreens", "walgreens.com") ].

(** The [switch (retailer)] of [getRetailerUrl], case by case. *)
Definition retailerSwitch (retailer cleanSetNum : string) : string :=
  if String.eqb retailer "lego" then
    "https://www.lego.com/en-us/product/" +:+ cleanSetNum
  else if String.eqb retailer "amazon" then
    "https://www.amazon.com/s?k=LEGO+" +:+ cleanSetNum
  else if String.eqb retailer "walmart" then
    "https://www.walmart.com/search?q=LEGO+" +:+ cleanSetNum
  else if String.eqb retailer "target" then
    "https://www.target.com/s?searchTerm=LEGO+" +:+ cleanSetNum
  else if String.eqb retailer "best_buy" then
    "https://www.bestbuy.com/site/searchpage.jsp?st=LEGO+" +:+ cleanSetNum
  else if String.eqb retailer "kohls" then
    "https://www.kohls.com/search.jsp?search=LEGO+" +:+ cleanSetNum
  else if String.eqb retailer "gamestop" then
    "https://www.gamestop.com/search/?q=LEGO+" +:+ cleanSetNum
  else if String.eqb retailer "shop_disney" then
    "https://www.shopdisney.com/search?q=LEGO+" +:+ cleanSetNum
  else if String.eqb retailer "macys" then
    "https://www.macys.com/shop/featured/lego+" +:+ cleanSetNum
  else if String.eqb retailer "barnes_noble" then
    "https://www.barnesandnoble.com/s/LEGO+" +:+ cleanSetNum
  else if String.eqb retailer "sams_club" then
    "https://www.samsclub.com/s/LEGO+" +:+ cleanSetNum
  else if String.eqb retailer "walgreens" then
    "https://www.walgreens.com/search/results.jsp?Ntt=LEGO+" +:+ cleanSetNum
  else "".

(** [getRetailerUrl] in the order of the source: clean the set number,
    consult the allow-list, then switch. *)
Definition getRetailerUrlChecked (retailer setNumber : string) : string :=
  let cleanSetNum := sanitizeSetNumber setNumber in
  match assoc retailer ALLOWED_RETAILER_DOMAINS with
  | None => ""
  | Some _ => retailerSwitch retailer cleanSetNum
  end.

(** ** The rate limiter over a run *)

(** The world after the limiter has seen a sequence of requests. *)
Fixpoint serveWorld (reqs : list (string * Z)) (w : World) : World :=
  match reqs with
  | [] => w
  | (ip, t) :: reqs' => serveWorld reqs' (arrive ip t w).2
  end.

(** Every record counts between 1 and 30 requests. *)
Definition limiter_ok (w : World) : Prop :=
  forall ip record,
    rateLimitMap w !! ip = Some record ->
    1 <= count record <= RATE_LIMIT_MAX_REQUESTS.

(** The arrival times of [ip]'s requests never decrease, and start at [m]
    or later. *)
Fixpoint nondecreasing_from (ip : string) (m : Z) (reqs : list (string * Z))
  : Prop :=
  match reqs with
  | [] => True
  | (ip', t) :: reqs' =>
      if String.eqb ip' ip
      then m <= t /\ nondecreasing_from ip t reqs'
      else nondecreasing_from ip m reqs'
  end.

(** How many more requests of [ip] arriving in [lo, hi), at [lo] or later,
    the limiter can still admit. *)
Definition headroom (ip : string) (hi : Z) (w : World) : Z :=
  match rateLimitMap w !! ip with
  | None => 59
  | Some record =>
      if hi <=? resetTime record
      then RATE_LIMIT_MAX_REQUESTS - count record
      else 2 * RATE_LIMIT_MAX_REQUESTS - count record
  end.

(** The limiter's view of HTTP requests arriving over time: the client
    address each is counted under, and its arrival time. *)
Definition limiterKeys (reqs : list (Request * Z)) : list (string * Z) :=
  (fun rt => (getClientIp rt.1, rt.2)) <$> reqs.

(** A request whose only header is [X-Forwarded-For]. *)
Definition forwardedRequest (forwardedFor : string) : Request :=
  {| method := "POST"; headers := {["x-forwarded-for" := forwardedFor]};
     remoteAddress := Some "203.0.113.7"; body := JObj [] |}.

Definition not_comma (c : ascii) : bool := negb (Ascii.eqb c ",").

(* ===================================================================== *)
(** * Maintenance of the deals collection *)
(* ===================================================================== *)

(** [.where("lastUpdated", "<", cutoff)] with a Timestamp cutoff: an
    inequality filter only matches fields of the cutoff's type. *)
Definition olderThan (cutoff : Z) (d : Doc) : bool :=
  match field d "lastUpdated" with
  | JTime t => t <? cutoff
  | _ => false
  end.

(** The references ([doc.ref]) of the documents of a query snapshot. *)
Definition query_refs (p : Doc -> bool) (c : Collection) : list string :=
  (filter (fun kd => p kd.2 = true) (map_to_list c)).*1.

Definition DAY_MS : Z := 24 * 60 * 60 * 1000.

(** One [db.batch()]: [batch.delete(doc.ref)] for each document of the
    chunk, then [batch.commit()]. *)
Definition deleteBatch (chunk : list string) : M unit :=
  modify (with_deals (fun c => foldl (fun c ref => delete ref c) c chunk)).

Definition cleanOldDeals : M unit :=
  now ← Date_now;
  let cutoff := now - DAY_MS in
  w ← get_world;
  let oldDeals := query_refs (olderThan cutoff) (deals w) in
  if (length oldDeals =? 0)%nat then mret tt
  else for_each (batches 450 oldDeals) deleteBatch.

(** A deal document that the cleanup at time [now] leaves in place. *)
Definition keptAt (now : Z) (d : Doc) : bool := negb (olderThan (now - DAY_MS) d).

(** A deals collection [c] reached from [c0]: every document is as it was
    in [c0], or was stamped between [t0] and [t1]. *)
Definition stamped (t0 t1 : Z) (c0 c : Collection) : Prop :=
  forall id d, c !! id = Some d ->
    c0 !! id = Some d
    \/ exists t, field d "lastUpdated" = JTime t /\ t0 <= t <= t1.

(** What a run that notifies nobody and does not wait leaves alone. *)
Definition quiet (w w' : World) : Prop :=
  events w' = events w /\ push_tokens w' = push_tokens w
  /\ clock w' = clock w /\ rateLimitMap w' = rateLimitMap w.

(* ===================================================================== *)
(** * The remaining endpoints *)
(* ===================================================================== *)

(** [Boolean(v)] *)
Definition js_truthy (v : JsVal) : bool :=
  match v with
  | JUndefined | JNull => false
  | JBool b => b
  | JNum (S754_zero _) | JNum S754_nan => false
  | JNum _ => true
  | JStr s => negb (String.eqb s "")
  | JArr _ | JObj _ | JTime _ => true
  end.

(** The [updates] object of [updateNotificationPreferences]: the time of
    the change, and one entry for each preference that the request gives
    in a usable form. *)
Definition preferenceUpdates (preferences : JsVal) (now : Z)
  : list (string * JsVal) :=
  [("lastUpdated", JTime now)]
  ++ match js_get preferences "notificationsEnabled" with
     | JUndefined => []
     | v => [("notificationsEnabled", JBool (js_truthy v))]
     end
  ++ match js_get preferences "minDiscountThreshold" with
     | JNum x =>
         [("minDiscountThreshold", JNum (Math_min (Math_max x #0%js) #100%js))]
     | _ => []
     end
  ++ match js_get preferences "watchedThemes" with
     | JArr l => [("watchedThemes", JArr (slice0 50 l))]
     | _ => []
     end
  ++ match js_get preferences "watchedSets" with
     | JArr l =>
         [("watchedSets",
           JArr (slice0 100 (filter (fun v => isValidSetNumber v = true) l)))]
     | _ => []
     end.

(** [doc.update(data)] on a stored document: the named fields are replaced,
    the others stay. *)
Definition update_fields (d : Doc) (data : list (string * JsVal)) : Doc :=
  foldl (fun d kv => <[kv.1 := kv.2]> d) d data.

(** An entry of [updates] that is there or not. *)
Definition entry (k : string) (o : option JsVal) : list (string * JsVal) :=
  match o with Some v => [(k, v)] | None => [] end.

(** What a request gives, in a usable form, for each preference. *)
Definition givenEnabled (preferences : JsVal) : option JsVal :=
  match js_get preferences "notificationsEnabled" with
  | JUndefined => None
  | v => Some (JBool (js_truthy v))
  end.

Definition givenThreshold (preferences : JsVal) : option JsVal :=
  match js_get preferences "minDiscountThreshold" with
  | JNum x => Some (JNum (Math_min (Math_max x #0%js) #100%js))
  | _ => None
  end.

Definition givenThemes (preferences : JsVal) : option JsVal :=
  match js_get preferences "watchedThemes" with
  | JArr l => Some (JArr (take 50 l))
  | _ => None
  end.

Definition givenSets (preferences : JsVal) : option JsVal :=
  match js_get preferences "watchedSets" with
  | JArr l =>
      Some (JArr (take 100 (filter (fun v => isValidSetNumber v = true) l)))
  | _ => None
  end.

#[global] Arguments preferenceUpdates : simpl never.
#[global] Arguments update_fields : simpl never.

(** [db.collection("push_tokens").doc(id).update(data)]; the call fails
    when there is no such document. *)
Definition updatePushToken (id : string) (data : list (string * JsVal))
  : M unit :=
  w ← get_world;
  match push_tokens w !! id with
  | Some d => modify (with_push_tokens <[id := update_fields d data]>)
  | None => throw "NOT_FOUND"
  end.

Section Endpoints.

Variable env : Env.

Definition updateNotificationPreferences (req : Request) : M Response :=
let cors := setCorsHeaders env req in
if String.eqb (method req) "OPTIONS" then
  mret {| status := 204; res_headers := cors; res_body := JStr "" |}
else if negb (String.eqb (method req) "POST") then
  mret (safeErrorResponse cors 405 "Method not allowed")
else
  admitted ← checkRateLimit (getClientIp req);
  if negb admitted then
    mret (safeErrorResponse cors 429 "Too many requests")
  else
    try_catch
      (let b := body req in
       match js_get b "token" with
       | JStr token =>
           if negb (isValidExpoPushToken (JStr token)) then
             mret (safeErrorResponse cors 400 "Invalid push token format")
           else
             emit (RegistryGet token) ;;
             w ← get_world;
             match push_tokens w !! token with
             | None => mret (safeErrorResponse cors 404 "Token not found")
             | Some _ =>
                 now ← Date_now;
                 updatePushToken token
                   (preferenceUpdates (js_get b "preferences") now) ;;
                 mret (jsonResponse cors
                         (json_ok "Preferences updated successfully"))
             end
       | _ => mret (safeErrorResponse cors 400 "Invalid push token format")
       end)
      (fun _ => mret (safeErrorResponse cors 500 "Update failed")).

Definition unregisterPushToken (req : Request) : M Response :=
let cors := setCorsHeaders env req in
if String.eqb (method req) "OPTIONS" then
  mret {| status := 204; res_headers := cors; res_body := JStr "" |}
else if negb (String.eqb (method req) "POST") then
  mret (safeErrorResponse cors 405 "Method not allowed")
else
  admitted ← checkRateLimit (getClientIp req);
  if negb admitted then
    mret (safeErrorResponse cors 429 "Too many requests")
  else
    try_catch
      (let b := body req in
       match js_get b "token" with
       | JStr token =>
           if negb (isValidExpoPushToken (JStr token)) then
             mret (safeErrorResponse cors 400 "Invalid push token format")
           else
             modify (with_push_tokens (delete token)) ;;
             mret (jsonResponse cors
                     (json_ok "Push token unregistered successfully"))
       | _ => mret (safeErrorResponse cors 400 "Invalid push token format")
       end)
      (fun _ => mret (safeErrorResponse cors 500 "Unregistration failed")).

(** ** The scheduled price run, from the sets the catalog answered *)

(** The body of [updatePrices] once [sets] is known: the loop over the
  first 100 sets, then the cleanup. *)
Definition updatePricesOn (sets : list LegoSet) : M nat :=
dealsFound ← updatePricesLoop env sets;
cleanOldDeals ;;
mret dealsFound.

(** ** The manual price run *)

(** One iteration of the loop of [manualPriceUpdate]: no notification and
  no pause. *)
Definition manualPair (set : LegoSet) (retailer : string) : M bool :=
priceData ← generateSimulatedPrice env set retailer;
savePriceToFirestore priceData ;;
match deriveDeal priceData with
| Some deal => saveDealToFirestore deal ;; mret true
| None => mret false
end.

Fixpoint manualRetailers (set : LegoSet) (rs : list string) (dealsFound : nat)
: M nat :=
match rs with
| [] => mret dealsFound
| retailer :: rs' =>
    found ← manualPair set retailer;
    manualRetailers set rs' (tally found dealsFound)
end.

Fixpoint manualSets (sets : list LegoSet) (dealsFound : nat) : M nat :=
match sets with
| [] => mret dealsFound
| set :: sets' =>
    n ← manualRetailers set retailers dealsFound;
    manualSets sets' n
end.

Definition manualReport (sets : list LegoSet) (dealsFound : nat) : JsVal :=
JObj [ ("success", JBool true);
       ("message",
        JStr ("Updated prices for " +:+ pretty.pretty (min (length sets) 50)
              +:+ " sets. Found " +:+ pretty.pretty dealsFound +:+ " deals."));
       ("catalogSize", JNum (of_Z (Z.of_nat (length sets))));
       ("dealsFound", JNum (of_Z (Z.of_nat dealsFound))) ].

(** [manualPriceUpdate], from the sets that the catalog (or, for an empty
  catalog, the Rebrickable fetch) answered. *)
Definition manualPriceUpdate (sets : list LegoSet) (req : Request)
: M Response :=
if negb (validateApiKey env req) then
  mret (safeErrorResponse [] 401 "Unauthorized")
else
  try_catch
    (dealsFound ← manualSets (slice0 50 sets) 0%nat;
     cleanOldDeals ;;
     mret (jsonResponse [] (manualReport sets dealsFound)))
    (fun _ => mret (safeErrorResponse [] 500 "Price update failed")).

End Endpoints.

(** The four public endpoints of the subscriber registry. *)
Definition registryEndpoints (env : Env) : list (Request -> M Response) :=
  [ registerPushToken env; updateNotificationPreferences env;
    unregisterPushToken env; sendTestNotification env ].

(** A world in which the limiter has counted [n] requests of [ip] in a
    window that ends at [reset]. *)
Definition limiterAt (ip : string) (n reset : Z) : World :=
  {| prices := ∅; deals := ∅; push_tokens := ∅;
     rateLimitMap := {[ ip := {| count := n; resetTime := reset |} ]};
     clock := 0; rolls := 0%nat; events := [] |}.

(** What a price run may do to the world it starts from: write price
    documents, never delete one; append to the event log; leave the
    subscriber registry and the limiter alone. *)
Definition extends (w w' : World) : Prop :=
  push_tokens w' = push_tokens w
  /\ rateLimitMap w' = rateLimitMap w
  /\ (forall id, is_Some (prices w !! id) -> is_Some (prices w' !! id))
  /\ (exists evs, events w' = events w ++ evs)
  /\ clock w <= clock w'.

(* ===================================================================== *)
(** * Random draws and rounding *)
(* ===================================================================== *)

(** What [Math.random()] returns: [+0] or a positive binary64 value
    below 1. *)
Definition in_unit_interval (x : number) : bool :=
  match x with
  | S754_zero false => true
  | S754_finite false m e => bounded prec emax m e && (x <? #1)%js
  | _ => false
  end.

(** [m / 2^n] rounded to the nearest integer, ties to even. *)
Definition round_shift (m n : Z) : Z :=
  let q := m / 2 ^ n in
  let rest := m mod 2 ^ n in
  if 2 * rest <? 2 ^ n then q
  else if 2 * rest =? 2 ^ n then (if Z.even q then q else q + 1)
  else q + 1.

(** The integer [k] as [Math.floor] returns it. *)
Definition floored (k : Z) : number :=
  if k =? 0 then S754_zero false else of_Z k.

#[global] Instance number_eq_dec : EqDecision number.
Proof. solve_decision. Defined.

(* ===================================================================== *)
(** * The catalogue source *)
(* ===================================================================== *)

(** An entry of [data.results], with the types of the Rebrickable API:
    [set_img_url] is a string or [null]. *)
Record RebrickableSet : Type := {
  rb_set_num : string;
  rb_name : string;
  rb_year : Z;
  rb_theme_id : Z;
  rb_num_parts : number;
  rb_set_img_url : option string;
}.

(** What [fetch] of one page of sets comes to. *)
Inductive PageOutcome : Type :=
| PageOk (results : list RebrickableSet) (next : bool)
                                 (* a 2xx answer; [next]: [data.next] is set *)
| PageStatus (status : Z)        (* [!response.ok] *)
| PageFailed.                    (* [fetch] or [response.json()] threw *)

Definition THEME_NAMES : list (Z * string) :=
  [ (158, "Star Wars"); (1, "Technic"); (252, "Ideas");
    (435, "Architecture"); (52, "City"); (577, "Marvel Super Heroes");
    (494, "Friends"); (246, "Creator"); (576, "DC Super Heroes");
    (504, "Harry Potter"); (592, "Ninjago"); (610, "Speed Champions");
    (209, "Disney"); (720, "Icons"); (667, "Botanical Collection");
    (608, "Super Mario"); (573, "Minecraft"); (697, "Art"); (503, "Duplo") ].

Fixpoint theme_name (id : Z) (table : list (Z * string)) : option string :=
  match table with
  | [] => None
  | (k, name) :: table' => if id =? k then Some name else theme_name id table'
  end.

(** [s.toLowerCase()] *)
Fixpoint lower (s : string) : string :=
  match s with
  | EmptyString => EmptyString
  | String c s' =>
      String (if Regex.between "A" "Z" c
              then Ascii.ascii_of_N (Ascii.N_of_ascii c + 32) else c)
             (lower s')
  end.

(** [s.includes(pat)] *)
Fixpoint includes (pat s : string) : bool :=
  String.prefix pat s
  || match s with
     | EmptyString => false
     | String _ s' => includes pat s'
     end.

(** The two [continue] tests of the loop over [results]. *)
Definition skipped (set : RebrickableSet) : bool :=
  negb (truthy_str (rb_set_img_url set))
  || (rb_num_parts set <? #20)%js
  || ((rb_num_parts set <? #50)%js && includes "minifig" (lower (rb_name set))).

(** The catalogue entry pushed for a set that is not skipped. *)
Definition catalogEntry (set : RebrickableSet) : LegoSet :=
  let estimatedPrice := Math_round (rb_num_parts set * dec 11 100)%js in
  {| set_setNumber := rb_set_num set;
     set_name := rb_name set;
     set_price := if (estimatedPrice >? #0)%js then estimatedPrice else #20%js;
     set_imageUrl := default "" (rb_set_img_url set);
     set_url := "https://www.lego.com/en-us/product/"
                +:+ sanitizeSetNumber (rb_set_num set);
     set_theme :=
       Some (match theme_name (rb_theme_id set) THEME_NAMES with
             | Some name => if String.eqb name "" then "LEGO" else name
             | None => "LEGO"
             end);
     set_themeId := Some (of_Z (rb_theme_id set));
     set_pieces := Some (rb_num_parts set);
     set_year := Some (of_Z (rb_year set));
     set_availability := available |}.

Definition keptEntries (results : list RebrickableSet) : list LegoSet :=
  catalogEntry <$> filter (fun set => skipped set = false) results.

Section Catalogue.

(** The answer of the Rebrickable API to the request for page [n]. *)
Variable rebrickable : nat -> PageOutcome.

(** The [while (page <= maxPages)] loop, [remaining] pages before the
  bound. *)
Fixpoint fetchPages (remaining page : nat) (sets : list LegoSet)
: M (list LegoSet) :=
match remaining with
| O => mret sets
| S remaining' =>
    match rebrickable page with
    | PageOk results next =>
        if (length results =? 0)%nat then mret sets
        else
          let sets' := sets ++ keptEntries results in
          if negb next then mret sets'
          else sleep 300 ;; fetchPages remaining' (S page) sets'
    | PageStatus _ => mret sets
    | PageFailed => mret sets
    end
end.

Definition fetchFromRebrickable : M (list LegoSet) := fetchPages 10 1 [].

End Catalogue.

(** What every entry of a fetched catalogue satisfies. *)
Definition wellFormedEntry (s : LegoSet) : Prop :=
  set_availability s = available
  /\ (#0 <? set_price s)%js = true
  /\ set_imageUrl s <> ""
  /\ (exists t, set_theme s = Some t /\ t <> "")
  /\ (exists n, set_pieces s = Some n /\ (n <? #20)%js = false)
  /\ set_url s
     = "https://www.lego.com/en-us/product/"
       +:+ sanitizeSetNumber (set_setNumber s).

(* ===================================================================== *)
(** * Reasoning principles *)
(* ===================================================================== *)

(** Unfolding the monad. *)
Ltac run :=
  unfold mbind, M_bind, mret, M_ret, throw, try_catch, get_world, modify,
    emit, Date_now, sleep in *; simpl in *.

Lemma append_events_nil w : append_events [] w = w.
Proof. destruct w; unfold append_events; simpl. by rewrite app_nil_r. Qed.

Lemma append_events_app evs1 evs2 w :
  append_events evs2 (append_events evs1 w) = append_events (evs1 ++ evs2) w.
Proof. unfold append_events; simpl. by rewrite app_assoc. Qed.

Section Frames.

Context (env : Env).

Lemma eligibleLoop_world deal docs acc w :
  (eligibleLoop deal docs acc w).2 = w.
Proof.
  revert acc w. induction docs as [|d docs IH]; intros acc w; [done|].
  simpl. unfold watched. run.
  destruct (truthy_str (theme deal)).
  - destruct (field d "watchedThemes"); simpl; try done;
      destruct (field d "watchedSets"); simpl; try done; apply IH.
  - destruct (field d "watchedSets"); simpl; try done; apply IH.
Qed.

Lemma getEligiblePushTokens_world deal w :
  (getEligiblePushTokens deal w).2
  = append_events [RegistryQuery (percentOff deal)] w.
Proof.
  unfold getEligiblePushTokens. run.
  match goal with |- (eligibleLoop _ ?ds ?a ?w').2 = _ =>
    rewrite (eligibleLoop_world deal ds a w') end.
  done.
Qed.

Lemma for_each_posts bs w :
  for_each bs (fun batch => emit (GatewayPost batch (push_gateway env batch))) w
  = (Ok tt, append_events (posts env bs) w).
Proof.
  revert w. induction bs as [|b bs IH]; intros w; simpl.
  - by rewrite append_events_nil.
  - run. rewrite IH. f_equal.
    unfold append_events; simpl. by rewrite <- app_assoc.
Qed.

Lemma sendExpoPushNotification_run tokens n w :
  sendExpoPushNotification env tokens n w
  = (Ok tt, append_events (posts env (batches 100 (pushMessage n <$> tokens))) w).
Proof.
  unfold sendExpoPushNotification.
  destruct tokens as [|t tokens].
  - simpl. by rewrite append_events_nil.
  - change (length (t :: tokens) =? 0)%nat with false; cbv iota.
    apply for_each_posts.
Qed.

Lemma notifyHotDeal_world deal w :
  exists evs, (notifyHotDeal env deal w).2 = append_events evs w.
Proof.
  unfold notifyHotDeal.
  destruct (percentOff deal <? #40)%js.
  - exists []. by rewrite append_events_nil.
  - pose proof (getEligiblePushTokens_world deal w) as Hw. run.
    destruct (getEligiblePushTokens deal w) as [[tokens|e] w1];
      simpl in *; subst w1.
    + destruct (length tokens =? 0)%nat.
      * by eexists.
      * rewrite sendExpoPushNotification_run; simpl.
        rewrite append_events_app. by eexists.
    + by eexists.
Qed.

End Frames.

(* ===================================================================== *)
(** * Facts about binary64 arithmetic *)
(* ===================================================================== *)

Section FloatFacts.

Lemma iter_pos_inv {A} (P : A -> Prop) (f : A -> A) :
  (forall x, P x -> P (f x)) -> forall n x, P x -> P (SpecFloat.iter_pos f n x).
Proof.
  intros Hf. induction n as [n IH|n IH|]; intros x Hx; simpl; auto.
Qed.

Lemma shr_1_nonneg mrs : 0 <= shr_m mrs -> 0 <= shr_m (shr_1 mrs).
Proof.
  destruct mrs as [m r s]; simpl.
  destruct m as [|[p|p|]|p]; simpl; lia.
Qed.

Lemma shr_nonneg mrs e n : 0 <= shr_m mrs -> 0 <= shr_m (shr mrs e n).1.
Proof.
  intros H. destruct n; simpl; auto.
  by apply (iter_pos_inv (fun x => 0 <= shr_m x)); [apply shr_1_nonneg|].
Qed.

Lemma shr_fexp_nonneg m e l :
  0 <= m -> 0 <= shr_m (shr_fexp prec emax m e l).1.
Proof.
  intros H. unfold shr_fexp. apply shr_nonneg.
  by destruct l as [|[]].
Qed.

Lemma round_nearest_even_nonneg m l : 0 <= m -> 0 <= round_nearest_even m l.
Proof.
  intros H. destruct l as [|[]]; simpl; try lia.
  destruct (Z.even m); lia.
Qed.

Lemma binary_round_aux_not_nan s m e l :
  0 <= m -> is_nan (binary_round_aux prec emax s m e l) = false.
Proof.
  intros H. unfold binary_round_aux.
  pose proof (shr_fexp_nonneg m e l H) as H1.
  destruct (shr_fexp prec emax m e l) as [mrs' e']; simpl in H1.
  pose proof (shr_fexp_nonneg _ e' loc_Exact
                (round_nearest_even_nonneg _ (loc_of_shr_record mrs') H1)) as H2.
  destruct (shr_fexp prec emax (round_nearest_even _ _) e' loc_Exact)
    as [mrs'' e'']; simpl in H2.
  destruct (shr_m mrs'') as [|q|q]; [done| |lia].
  by destruct (e'' <=? emax - prec).
Qed.

Lemma binary_round_not_nan s m e :
  is_nan (binary_round prec emax s m e) = false.
Proof.
  unfold binary_round.
  destruct (shl_align m e _) as [mz ez].
  by apply binary_round_aux_not_nan.
Qed.

Lemma binary_normalize_not_nan m e sz :
  is_nan (binary_normalize prec emax m e sz) = false.
Proof. destruct m; simpl; auto using binary_round_not_nan. Qed.

Lemma of_Z_not_nan z : is_nan (of_Z z) = false.
Proof. apply binary_normalize_not_nan. Qed.

Lemma sub_not_nan x y :
  is_finite x = true -> is_nan y = false -> is_nan (x - y)%js = false.
Proof.
  destruct x as [sx|sx| |sx mx ex], y as [sy|sy| |sy my ey]; try done;
    intros _ _; unfold sub, SFsub.
  - by destruct sx, sy.
  - apply binary_normalize_not_nan.
Qed.

Lemma div_eucl_nonneg a b : 0 <= a -> 0 < b -> 0 <= (Z.div_eucl a b).1.
Proof.
  intros Ha Hb. pose proof (Z.div_pos a b Ha Hb) as H.
  unfold Z.div in H. by destruct (Z.div_eucl a b).
Qed.

Lemma div_not_nan x sy my ey :
  is_nan x = false -> is_nan (x / S754_finite sy my ey)%js = false.
Proof.
  destruct x as [sx|sx| |sx mx ex]; try done; intros _.
  unfold div, SFdiv, SFdiv_core_binary.
  match goal with |- context [Z.div_eucl ?a ?b] =>
    pose proof (div_eucl_nonneg a b) as Hq; destruct (Z.div_eucl a b) as [q r]
  end.
  apply binary_round_aux_not_nan. simpl in Hq. apply Hq; [|lia].
  match goal with |- 0 <= match ?s with _ => _ end => destruct s eqn:Hs end;
    try lia.
  rewrite <- Hs. apply Z.shiftl_nonneg. lia.
Qed.

Lemma mul_finite_not_nan x sy my ey :
  is_nan x = false -> is_nan (x * S754_finite sy my ey)%js = false.
Proof.
  destruct x as [sx|sx| |sx mx ex]; try done; intros _.
  unfold mul, SFmul. by apply binary_round_aux_not_nan.
Qed.

Lemma Math_round_not_nan x : is_nan x = false -> is_nan (Math_round x) = false.
Proof.
  destruct x as [sx|sx| |sx mx ex]; try done; intros _.
  unfold Math_round.
  destruct (0 <=? ex); [done|].
  match goal with |- context [if ?b then _ else _] => destruct b end;
    [done|apply of_Z_not_nan].
Qed.

Lemma SFcompare_antisym x y :
  SFcompare y x = CompOpp <$> SFcompare x y.
Proof.
  destruct x as [sx|sx| |sx mx ex], y as [sy|sy| |sy my ey]; simpl;
    try done; try (by destruct sx); try (by destruct sy);
    try (by destruct sx, sy).
  destruct sx, sy; try done; f_equal;
    rewrite (Z.compare_antisym ex ey);
    destruct (ex ?= ey); simpl; try done.
  all: pose proof (Pos.compare_cont_antisym mx my Eq) as H; simpl in H.
  all: rewrite <- H; by rewrite ?CompOpp_involutive.
Qed.

Lemma geb_negb_ltb x y :
  is_nan x = false -> is_nan y = false -> (x >=? y)%js = negb (x <? y)%js.
Proof.
  intros Hx Hy. unfold geb, ltb, SFleb, SFltb.
  rewrite (SFcompare_antisym x y).
  assert (SFcompare x y <> None) as Hc
    by (destruct x as [| | |? ? ?], y as [| | |? ? ?]; done).
  by destruct (SFcompare x y) as [[]|].
Qed.

Lemma ltb_not_geb x y : (x <? y)%js = true -> (x >=? y)%js = false.
Proof.
  unfold geb, ltb, SFleb, SFltb. rewrite (SFcompare_antisym x y).
  destruct (SFcompare x y) as [[]|]; done.
Qed.

End FloatFacts.

(* ===================================================================== *)
(** * Deal derivation *)
(* ===================================================================== *)

Section Documents.

Lemma field_merge_field_ne (d : Doc) k k' v :
  k <> k' -> field (merge_field d (k', v)) k = field d k.
Proof.
  intros Hk. unfold merge_field, field; cbn [fst snd].
  destruct v; try done; by rewrite lookup_insert_ne.
Qed.

Lemma field_merge_num (d : Doc) k x :
  field (merge_field d (k, JNum x)) k = JNum x.
Proof.
  unfold merge_field, field; cbn [fst snd]. rewrite lookup_insert_eq.
  by destruct (d !! k).
Qed.

Lemma set_merge_lookup id data (c : Collection) :
  set_merge id data c !! id
  = Some (foldl merge_field (default ∅ (c !! id)) data).
Proof. unfold set_merge. by rewrite lookup_insert_eq. Qed.

Lemma priceDoc_prices (d0 : Doc) p :
  let doc := foldl merge_field d0 (priceFields p) in
  field doc "originalPrice" = JNum (originalPrice p)
  /\ field doc "currentPrice" = JNum (currentPrice p).
Proof.
  unfold priceFields; simpl.
  split; repeat (rewrite field_merge_field_ne by done);
    apply field_merge_num.
Qed.

Lemma dealDoc_fields (d0 : Doc) (d : DealData) :
  let doc := foldl merge_field d0 (dealFields d) in
  field doc "percentOff" = JNum (percentOff d)
  /\ field doc "savings" = JNum (savings d)
  /\ field doc "originalPrice" = JNum (originalPrice d)
  /\ field doc "currentPrice" = JNum (currentPrice d).
Proof.
  unfold dealFields, priceFields; simpl.
  repeat split; repeat (rewrite field_merge_field_ne by done);
    apply field_merge_num.
Qed.

End Documents.

Section DealDerivation.

Context (env : Env).

Lemma computePercentOff_not_nan p :
  is_finite_nonzero (originalPrice p) = true ->
  is_nan (currentPrice p) = false ->
  is_nan (computePercentOff p) = false.
Proof.
  intros Ho Hc. unfold computePercentOff.
  destruct (originalPrice p) as [| | |so mo eo] eqn:Eo; try done.
  apply Math_round_not_nan.
  change (#100)%js with (S754_finite false 7036874417766400 (-46)).
  apply mul_finite_not_nan, div_not_nan.
  by apply sub_not_nan.
Qed.

Lemma deriveAndPersist_deals p d w :
  deriveDeal p = Some d ->
  exists r evs,
    deriveAndPersist env p w
    = (r, append_events evs
            (with_deals (set_merge (docId d) (dealFields d)) w)).
Proof.
  intros Hd. unfold deriveAndPersist. rewrite Hd.
  unfold saveDealToFirestore. run.
  destruct (percentOff d >=? #40)%js.
  - match goal with |- context [notifyHotDeal env d ?w1] =>
      destruct (notifyHotDeal_world env d w1) as [evs Hevs];
      destruct (notifyHotDeal env d w1) as [[[]|e] w2]; simpl in *; subst w2
    end; by do 2 eexists.
  - exists (Ok true), []. by rewrite append_events_nil.
Qed.

End DealDerivation.

Section PriceUpdate.

Context (env : Env).

(** [generateSimulatedPrice] always answers, and only draws random
    numbers. *)
Lemma generateSimulatedPrice_run set retailer w :
  exists p n, generateSimulatedPrice env set retailer w
              = (Ok p, with_rolls (fun _ => n) w).
Proof.
  destruct w. unfold generateSimulatedPrice, random, with_rolls. run.
  destruct (String.eqb retailer "lego"); simpl;
    repeat match goal with
           | |- context [if ?b then _ else _] => destruct b; simpl
           end;
    by do 2 eexists.
Qed.

Lemma processPair_stores set retailer w p :
  (generateSimulatedPrice env set retailer w).1 = Ok p ->
  let w' := (processPair env set retailer w).2 in
  prices w' = set_merge (docId p) (priceFields p) (prices w)
  /\ deals w' = match deriveDeal p with
                | Some d => set_merge (docId d) (dealFields d) (deals w)
                | None => deals w
                end.
Proof.
  intros Hp.
  destruct (generateSimulatedPrice_run set retailer w) as (p' & n & Hg).
  rewrite Hg in Hp; simpl in Hp. injection Hp as ->.
  unfold processPair. run. rewrite Hg. unfold savePriceToFirestore. run.
  destruct (deriveDeal p) as [d|] eqn:Hd.
  - match goal with |- context [deriveAndPersist env p ?w1] =>
      destruct (deriveAndPersist_deals env p d w1 Hd) as (r & evs & ->)
    end.
    by destruct r.
  - unfold deriveAndPersist. rewrite Hd. by run.
Qed.

End PriceUpdate.

Section DealClaims.

Lemma deriveDeal_Some p d :
  deriveDeal p = Some d ->
  price d = p /\ percentOff d = computePercentOff p
  /\ savings d = computeSavings p
  /\ (computePercentOff p >=? #10)%js = true /\ inStock p = true.
Proof.
  unfold deriveDeal.
  destruct (computePercentOff p >=? #10)%js eqn:Hge; simpl; [|done].
  destruct (inStock p) eqn:Hs; [|done].
  by intros [= <-].
Qed.

End DealClaims.






(* ===================================================================== *)
(** * Notification fan-out *)
(* ===================================================================== *)

Section Eligibility.

Lemma forallb_Forall {A} (p : A -> bool) (l : list A) :
  forallb p l = true -> Forall (fun x => p x = true) l.
Proof.
  induction l as [|x l IH]; simpl; [constructor|].
  intros [Hx Hl]%andb_true_iff. constructor; auto.
Qed.

Lemma includes_str_elem l s : includes_str l s = true <-> JStr s ∈ l.
Proof.
  unfold includes_str. induction l as [|v l IH]; simpl.
  - split; [done|]. by intros ?%elem_of_nil.
  - rewrite elem_of_cons, orb_true_iff, IH.
    split; intros [H|H]; auto; left.
    + destruct v; try done. apply String.eqb_eq in H. by subst.
    + subst v. apply String.eqb_refl.
Qed.

Lemma is_subscriber_inv d :
  is_subscriber d = true ->
  exists themes sets,
    field d "watchedThemes" = JArr themes /\ field d "watchedSets" = JArr sets.
Proof.
  unfold is_subscriber.
  destruct (field d "watchedThemes") as [| | | | |themes| |]; try done.
  destruct (field d "watchedSets") as [| | | | |sets| |]; try done.
  by exists themes, sets.
Qed.

Lemma eligibleLoop_step deal d docs acc w :
  is_subscriber d = true ->
  eligibleLoop deal (d :: docs) acc w
  = eligibleLoop deal docs
      (if eligible deal d then acc ++ [field d "token"] else acc) w.
Proof.
  intros (themes & sets & Hth & Hse)%is_subscriber_inv.
  cbn [eligibleLoop]. unfold watched, eligible, watchedThemesOf, watchedSetsOf.
  rewrite Hth, Hse. run.
  destruct (truthy_str (theme deal)) eqn:Htruthy; simpl; [done|].
  unfold watchingTheme. by rewrite Htruthy.
Qed.

Lemma eligibleLoop_run deal docs acc w :
  Forall (fun d => is_subscriber d = true) docs ->
  eligibleLoop deal docs acc w
  = (Ok (acc ++ ((fun d => field d "token")
                   <$> filter (fun d => eligible deal d = true) docs)), w).
Proof.
  intros Hdocs. revert acc.
  induction Hdocs as [|d docs Hd _ IH]; intros acc.
  - simpl. by rewrite app_nil_r.
  - rewrite (eligibleLoop_step deal d docs acc w Hd), IH, filter_cons.
    destruct (eligible deal d) eqn:Hsel.
    + rewrite decide_True by done. by rewrite fmap_cons, <- app_assoc.
    + by rewrite decide_False by done.
Qed.

Lemma getEligiblePushTokens_run deal w :
  Forall (fun d => is_subscriber d = true) (queried deal w) ->
  getEligiblePushTokens deal w
  = (Ok ((fun d => field d "token")
           <$> filter (fun d => eligible deal d = true) (queried deal w)),
     append_events [RegistryQuery (percentOff deal)] w).
Proof.
  intros Hq. unfold getEligiblePushTokens. run.
  unfold queried in Hq.
  by rewrite (eligibleLoop_run deal _ [] _ Hq).
Qed.

Lemma watchingTheme_spec deal l :
  watchingTheme deal l = true <->
  truthy_str (theme deal) = false \/ l = []
  \/ exists t, theme deal = Some t /\ JStr t ∈ l.
Proof.
  unfold watchingTheme.
  destruct l as [|v l].
  { rewrite andb_false_r. split; auto. }
  change (0 <? length (v :: l))%nat with true. rewrite andb_true_r.
  destruct (truthy_str (theme deal)) eqn:Htruthy; [|split; auto].
  destruct (theme deal) as [t|]; [|done]. cbn [default].
  rewrite includes_str_elem. split.
  - intros H. right; right. by exists t.
  - intros [?|[?|(t' & [= <-] & H)]]; done.
Qed.

Lemma watchingSet_spec deal l :
  watchingSet deal l = true <-> l = [] \/ JStr (setNumber deal) ∈ l.
Proof.
  unfold watchingSet. destruct l as [|v l]; [split; auto|].
  change (0 <? length (v :: l))%nat with true. cbv iota.
  rewrite includes_str_elem. split; [by auto|].
  by intros [?|?].
Qed.

End Eligibility.

(** C3 (as stated, refuted).  A deal that carries no theme, on set 10294,
    and a subscriber who watches the theme "Star Wars" and the set 75192:
    the subscriber passes the enabled/threshold query and is selected,
    although neither watched list is empty and neither contains the deal's
    theme or set number. *)
Lemma themeless_deal_counterexample :
  let deal := dealOn "10294" None 50 in
  let w := registry [("ExponentPushToken[both]", themeAndSetWatcher)] in
  ((fun d => field d "token") <$> queried deal w)
  = [JStr "ExponentPushToken[both]"]
  /\ (getEligiblePushTokens deal w).1 = Ok [JStr "ExponentPushToken[both]"]
  /\ forallb (specEligible deal) (queried deal w) = false.
Proof. vm_compute. repeat split; reflexivity. Qed.

(** C3 (amended).  For every deal and every subscriber record returned by
    the enabled/threshold query, the subscriber is selected if and only if
    (the deal has no theme or an empty one, OR their watchedThemes list is
    empty OR contains the deal's theme) OR (their watchedSets list is empty
    OR contains the deal's setNumber); a subscriber with both lists empty is
    selected for every deal; and for a deal with a non-empty theme this is
    the rule of the specification. *)
Theorem eligibility_rule deal w :
  Forall (fun d => is_subscriber d = true) (queried deal w) ->
  (getEligiblePushTokens deal w).1
  = Ok ((fun d => field d "token")
          <$> filter (fun d => eligible deal d = true) (queried deal w))
  /\ (forall d,
         eligible deal d = true <->
         (truthy_str (theme deal) = false
          \/ watchedThemesOf d = []
          \/ exists t, theme deal = Some t /\ JStr t ∈ watchedThemesOf d)
         \/ (watchedSetsOf d = []
             \/ JStr (setNumber deal) ∈ watchedSetsOf d))
  /\ (forall d,
         watchedThemesOf d = [] -> watchedSetsOf d = [] ->
         eligible deal d = true)
  /\ (truthy_str (theme deal) = true ->
      forall d, eligible deal d = specEligible deal d).
Proof.
  intros Hq. split; [by rewrite (getEligiblePushTokens_run deal w Hq)|].
  split; [|split].
  - intros d. unfold eligible.
    by rewrite orb_true_iff, watchingTheme_spec, watchingSet_spec.
  - intros d Hth Hse. unfold eligible, watchingTheme, watchingSet.
    rewrite Hth, Hse; simpl. by rewrite andb_false_r.
  - intros Htruthy d. unfold eligible, specEligible, watchingTheme, watchingSet.
    rewrite Htruthy; simpl.
    destruct (theme deal) as [t|]; [|done]; simpl.
    f_equal.
    + by destruct (watchedThemesOf d).
    + by destruct (watchedSetsOf d).
Qed.

Lemma eligibility_rule_witness :
  let deal := dealOn "10294" None 50 in
  let w := registry [("ExponentPushToken[both]", themeAndSetWatcher)] in
  Forall (fun d => is_subscriber d = true) (queried deal w)
  /\ (getEligiblePushTokens deal w).1
     = Ok ((fun d => field d "token")
             <$> filter (fun d => eligible deal d = true) (queried deal w)).
Proof.
  intros deal w.
  assert (Forall (fun d => is_subscriber d = true) (queried deal w)) as Hq.
  { apply (forallb_Forall is_subscriber (queried deal w)).
    vm_compute; reflexivity. }
  split; [exact Hq|].
  exact (proj1 (eligibility_rule deal w Hq)).
Defined.

(** C4 (as stated, refuted).  A "City" deal and a subscriber with
    watchedThemes = ["Star Wars"] and watchedSets = [] who passes the
    enabled/threshold query: the subscriber is selected. *)
Lemma city_deal_counterexample :
  let deal := dealOn "60215" (Some "City") 50 in
  let w := registry [("ExponentPushToken[starwars]", starWarsWatcher)] in
  ((fun d => (field d "token", field d "watchedThemes", field d "watchedSets"))
     <$> queried deal w)
  = [(JStr "ExponentPushToken[starwars]", JArr [JStr "Star Wars"], JArr [])]
  /\ (getEligiblePushTokens deal w).1 = Ok [JStr "ExponentPushToken[starwars]"].
Proof. vm_compute. repeat split; reflexivity. Qed.

(** C4 (amended).  A subscriber with watchedThemes = ["Star Wars"] and
    watchedSets = [] who passes the enabled/threshold query is selected for
    every deal, whatever its theme ("City" as well as "Star Wars") and
    whatever its product id: the empty watchedSets list alone makes the
    subscriber eligible. *)
Theorem theme_only_watcher_selected deal w d :
  Forall (fun d => is_subscriber d = true) (queried deal w) ->
  d ∈ queried deal w ->
  field d "watchedThemes" = JArr [JStr "Star Wars"] ->
  field d "watchedSets" = JArr [] ->
  exists tokens,
    (getEligiblePushTokens deal w).1 = Ok tokens
    /\ field d "token" ∈ tokens.
Proof.
  intros Hq Hd Hth Hse. eexists.
  rewrite (getEligiblePushTokens_run deal w Hq). split; [done|].
  apply list_elem_of_fmap. exists d. split; [done|].
  apply list_elem_of_filter. split; [|done].
  unfold eligible, watchingSet, watchedSetsOf. rewrite Hse. simpl.
  apply orb_true_r.
Qed.

Lemma theme_only_watcher_selected_witness :
  let deal := dealOn "60215" (Some "City") 50 in
  let w := registry [("ExponentPushToken[starwars]", starWarsWatcher)] in
  exists tokens,
    (getEligiblePushTokens deal w).1 = Ok tokens
    /\ field starWarsWatcher "token" ∈ tokens.
Proof.
  intros deal w.
  assert (queried deal w = [starWarsWatcher]) as Hq
    by (vm_cast_no_check (@eq_refl _ [starWarsWatcher])).
  apply (theme_only_watcher_selected deal w starWarsWatcher).
  - apply (forallb_Forall is_subscriber (queried deal w)).
    vm_compute; reflexivity.
  - rewrite Hq. apply list_elem_of_here.
  - vm_compute; reflexivity.
  - vm_compute; reflexivity.
Defined.

Section Fanout.

Context (env : Env).

Lemma batches_aux_concat {A} fuel n (l : list A) :
  (length l <= fuel)%nat -> concat (batches_aux fuel (S n) l) = l.
Proof.
  revert l. induction fuel as [|fuel IH]; intros l Hl.
  - by destruct l; [|simpl in Hl; lia].
  - destruct l as [|x l]; [done|].
    cbn [batches_aux concat]. rewrite IH.
    + apply take_drop.
    + rewrite length_drop. simpl in *. lia.
Qed.

Lemma batches_aux_bound {A} fuel n (l : list A) :
  (0 < n)%nat ->
  Forall (fun b => (0 < length b <= n)%nat) (batches_aux fuel n l).
Proof.
  intros Hn. revert l. induction fuel as [|fuel IH]; intros l; [constructor|].
  destruct l as [|x l]; [constructor|].
  cbn [batches_aux]. constructor; [|apply IH].
  rewrite length_take. simpl. lia.
Qed.

(** The batches of the dispatch loop hold every message once, in order,
    and none is empty or longer than 100. *)
Lemma batches_100 {A} (l : list A) :
  concat (batches 100 l) = l
  /\ Forall (fun b => (0 < length b <= 100)%nat) (batches 100 l).
Proof.
  split.
  - by apply (batches_aux_concat (length l) 99).
  - apply batches_aux_bound. lia.
Qed.

Lemma batches_nonempty {A} n (l : list A) : l <> [] -> batches n l <> [].
Proof. by destruct l. Qed.

Lemma gatewayCalls_posts bs : gatewayCalls (posts env bs) = posts env bs.
Proof.
  unfold gatewayCalls, posts. induction bs as [|b bs IH]; [done|].
  rewrite fmap_cons, filter_cons_True by done. by rewrite IH.
Qed.

End Fanout.

(** C5.  For every deal with percentOff < 40 (39 for one), [notifyHotDeal]
    returns with the world untouched: no event is logged, hence no gateway
    call and no registry query.  For every deal that is not below 40 (40 for
    one) with at least one eligible subscriber, it queries the registry once
    and then posts to the gateway: one call per batch of at most 100
    messages, at least one call, every eligible token in exactly one
    batch. *)
Theorem notifyHotDeal_threshold :
  (#39 <? #40)%js = true
  /\ (#40 <? #40)%js = false
  /\ (forall env deal w,
         (percentOff deal <? #40)%js = true ->
         notifyHotDeal env deal w = (Ok tt, w))
  /\ (forall env deal w tokens,
         (percentOff deal <? #40)%js = false ->
         (getEligiblePushTokens deal w).1 = Ok tokens ->
         tokens <> [] ->
         let bs := batches 100 (pushMessage (hotDealNotification deal) <$> tokens) in
         notifyHotDeal env deal w
         = (Ok tt, append_events
                     (RegistryQuery (percentOff deal) :: posts env bs) w)
         /\ gatewayCalls (RegistryQuery (percentOff deal) :: posts env bs)
            = posts env bs
         /\ posts env bs <> []
         /\ concat bs = pushMessage (hotDealNotification deal) <$> tokens
         /\ Forall (fun b => (0 < length b <= 100)%nat) bs).
Proof.
  split; [by vm_compute|]. split; [by vm_compute|]. split.
  - intros env deal w Hlt. unfold notifyHotDeal. by rewrite Hlt.
  - intros env deal w tokens Hge Htok Hne bs.
    destruct (batches_100 (pushMessage (hotDealNotification deal) <$> tokens))
      as [Hcat Hlen].
    split; [|split; [|split; [|split]]]; try assumption.
    + unfold notifyHotDeal. rewrite Hge.
      pose proof (getEligiblePushTokens_world deal w) as Hw. run.
      destruct (getEligiblePushTokens deal w) as [r w1]; simpl in *.
      subst r w1.
      destruct tokens as [|t tokens]; [done|].
      change (length (t :: tokens) =? 0)%nat with false; cbv iota.
      rewrite sendExpoPushNotification_run. by rewrite append_events_app.
    + unfold gatewayCalls. rewrite filter_cons_False by done.
      apply gatewayCalls_posts.
    + subst bs. unfold posts. intros Hnil%fmap_nil_inv.
      revert Hnil. apply batches_nonempty.
      by destruct tokens.
Qed.

Lemma notifyHotDeal_threshold_witness :
  let quiet := dealOn "60215" (Some "City") 39 in
  let hot := dealOn "60215" (Some "City") 40 in
  let w := registry [("ExponentPushToken[starwars]", starWarsWatcher)] in
  notifyHotDeal devEnv quiet w = (Ok tt, w)
  /\ exists bs,
       notifyHotDeal devEnv hot w
       = (Ok tt, append_events (RegistryQuery #40%js :: posts devEnv bs) w)
       /\ posts devEnv bs <> [].
Proof.
  intros quiet hot w.
  destruct notifyHotDeal_threshold as (_ & _ & Hquiet & Hhot).
  split.
  - apply Hquiet. vm_compute; reflexivity.
  - assert ((percentOff hot <? #40)%js = false) as Hge
      by (vm_compute; reflexivity).
    assert ((getEligiblePushTokens hot w).1
            = Ok [JStr "ExponentPushToken[starwars]"]) as Htok
      by (vm_compute; reflexivity).
    destruct (Hhot devEnv hot w _ Hge Htok ltac:(discriminate))
      as (Hrun & _ & Hne & _).
    eexists. split; [exact Hrun|exact Hne].
Defined.

(* ===================================================================== *)
(** * Subscriber registry *)
(* ===================================================================== *)

Section Registration.

Context (env : Env).

Lemma checkRateLimit_world ip w :
  exists m, (checkRateLimit ip w).2 = with_rateLimitMap (fun _ => m) w.
Proof.
  unfold checkRateLimit. run.
  destruct (rateLimitMap w !! ip) as [record|]; simpl.
  - destruct (clock w >? resetTime record); simpl; [by eexists|].
    destruct (count record >=? RATE_LIMIT_MAX_REQUESTS); simpl;
      [|by eexists].
    exists (rateLimitMap w). by destruct w.
  - by eexists.
Qed.

Lemma afterRateLimit_stores req w :
  push_tokens (afterRateLimit req w) = push_tokens w
  /\ events (afterRateLimit req w) = events w
  /\ clock (afterRateLimit req w) = clock w.
Proof.
  unfold afterRateLimit.
  destruct (checkRateLimit_world (getClientIp req) w) as [m ->]. done.
Qed.

Lemma registerPushToken_run req w :
  method req = "POST" ->
  admitted req w ->
  let cors := setCorsHeaders env req in
  let w1 := afterRateLimit req w in
  registerPushToken env req w
  = match js_get (body req) "token" with
    | JStr token =>
        if isValidExpoPushToken (JStr token) then
          (Ok (jsonResponse cors (json_ok "Push token registered successfully")),
           with_push_tokens
             (set_merge token
                (pushTokenFields
                   (tokenData token (js_get (body req) "platform")
                              (js_get (body req) "preferences") (clock w1))))
             w1)
        else (Ok (safeErrorResponse cors 400 "Invalid push token format"), w1)
    | _ => (Ok (safeErrorResponse cors 400 "Invalid push token format"), w1)
    end.
Proof.
  intros Hm Hadm cors w1. unfold registerPushToken, admitted in *.
  rewrite Hm. cbn [String.eqb Ascii.eqb Bool.eqb negb]. run.
  subst w1. unfold afterRateLimit.
  destruct (checkRateLimit (getClientIp req) w) as [r w1]; simpl in *.
  subst r. simpl.
  destruct (js_get (body req) "token"); try done.
  unfold isValidExpoPushToken.
  by destruct (negb (s =? "")%string && Regex.test Regex.expo_token_re s).
Qed.

Lemma field_merge_atom (d : Doc) k v :
  is_atom v = true -> field (merge_field d (k, v)) k = v.
Proof.
  intros Hv. unfold merge_field, field; cbn [fst snd].
  destruct v; try done; rewrite lookup_insert_eq; by destruct (d !! k).
Qed.

Lemma pushTokenDoc_fields (d0 : Doc) (t : PushToken) :
  let doc := foldl merge_field d0 (pushTokenFields t) in
  field doc "token" = JStr (pt_token t)
  /\ field doc "platform" = JStr (pt_platform t)
  /\ (is_atom (pt_notificationsEnabled t) = true ->
      field doc "notificationsEnabled" = pt_notificationsEnabled t)
  /\ field doc "minDiscountThreshold" = JNum (pt_minDiscountThreshold t)
  /\ field doc "watchedThemes" = JArr (pt_watchedThemes t)
  /\ field doc "watchedSets" = JArr (pt_watchedSets t)
  /\ field doc "lastUpdated" = JTime (pt_lastUpdated t)
  /\ forall k, k ∉ (pushTokenFields t).*1 -> field doc k = field d0 k.
Proof.
  unfold pushTokenFields; cbn [foldl].
  assert (forall (d : Doc) k v, is_atom v = true ->
            field (merge_field d (k, v)) k = v) as Hatom
    by apply field_merge_atom.
  split; [repeat (rewrite field_merge_field_ne by done); by apply Hatom|].
  split; [repeat (rewrite field_merge_field_ne by done); by apply Hatom|].
  split; [intros Hv; repeat (rewrite field_merge_field_ne by done);
          by apply Hatom|].
  split; [repeat (rewrite field_merge_field_ne by done); by apply Hatom|].
  split; [repeat (rewrite field_merge_field_ne by done); by apply Hatom|].
  split; [repeat (rewrite field_merge_field_ne by done); by apply Hatom|].
  split; [by apply Hatom|].
  intros k Hk. cbn [fmap list_fmap fst] in Hk.
  repeat (rewrite field_merge_field_ne;
          [|intros ->; apply Hk;
            repeat first [apply list_elem_of_here|apply list_elem_of_further]]).
  done.
Qed.

Lemma SFcompare_not_nan x y :
  is_nan x = false -> is_nan y = false -> SFcompare x y <> None.
Proof. by destruct x as [| | |? ? ?], y as [| | |? ? ?]. Qed.

Lemma Math_max_zero x :
  is_nan x = false ->
  (Math_max x #0%js = #0%js /\ (x <=? #0)%js = true)
  \/ (Math_max x #0%js = x /\ (#0 <? x)%js = true).
Proof.
  intros Hx. unfold Math_max, leb, ltb, SFleb, SFltb.
  rewrite (SFcompare_antisym x #0%js).
  pose proof (SFcompare_not_nan x #0%js Hx eq_refl) as Hc.
  destruct (SFcompare x #0%js) as [[]|] eqn:Hcmp; try done; cbn.
  - left. split; [|done]. by destruct x as [[]|[]| |[] m e].
  - by left.
  - by right.
Qed.

(** The clamp [Math.min(Math.max(x, 0), 100)]. *)
Lemma clamp_cases x :
  is_nan x = false ->
  let r := Math_min (Math_max x #0%js) #100%js in
  (r = #0%js /\ (x <=? #0)%js = true)
  \/ (r = #100%js /\ (#100 <=? x)%js = true)
  \/ (r = x /\ (#0 <? x)%js = true /\ (x <? #100)%js = true).
Proof.
  intros Hx r. subst r.
  destruct (Math_max_zero x Hx) as [[-> Hle]|[-> Hgt]].
  - left. by split.
  - unfold Math_min, leb, ltb, SFleb, SFltb in *.
    rewrite (SFcompare_antisym x #100%js).
    pose proof (SFcompare_not_nan x #100%js Hx eq_refl) as Hc.
    destruct (SFcompare x #100%js) as [[]|] eqn:Hcmp; try done; cbn.
    + right; left. split; [|done].
      by destruct x as [[]|[]| |[] m e].
    + right; right. by rewrite Hgt.
    + right; left. by split.
Qed.

Lemma clamp_range x :
  is_nan x = false ->
  let r := Math_min (Math_max x #0%js) #100%js in
  (#0 <=? r)%js = true /\ (r <=? #100)%js = true.
Proof.
  intros Hx. cbv zeta.
  pose proof (clamp_cases x Hx) as Hcases. cbv zeta in Hcases.
  destruct Hcases as [[-> _]|[[-> _]|(-> & H0 & H100)]].
  - by vm_compute.
  - by vm_compute.
  - unfold leb, ltb, SFleb, SFltb in *.
    destruct (SFcompare #0%js x) as [[]|]; try done.
    by destruct (SFcompare x #100%js) as [[]|].
Qed.

End Registration.



(** C10.  For every already-registered token, a POST to
    [registerPushToken] that the rate limiter admits, with a valid token and
    with the preferences object absent or lacking the four preference
    fields, overwrites the stored preferences with the defaults:
    notificationsEnabled = true, minDiscountThreshold = 20,
    watchedThemes = [] and watchedSets = [].  The write is a merge: a stored
    field that [registerPushToken] does not write keeps its value, but every
    preference field is written on each call. *)
Theorem reregister_resets_preferences env req w token old :
  method req = "POST" ->
  admitted req w ->
  js_get (body req) "token" = JStr token ->
  isValidExpoPushToken (JStr token) = true ->
  push_tokens w !! token = Some old ->
  let preferences := js_get (body req) "preferences" in
  js_get preferences "notificationsEnabled" = JUndefined ->
  js_get preferences "minDiscountThreshold" = JUndefined ->
  js_get preferences "watchedThemes" = JUndefined ->
  js_get preferences "watchedSets" = JUndefined ->
  exists doc,
    push_tokens (registerPushToken env req w).2 !! token = Some doc
    /\ field doc "notificationsEnabled" = JBool true
    /\ field doc "minDiscountThreshold" = JNum #20%js
    /\ field doc "watchedThemes" = JArr []
    /\ field doc "watchedSets" = JArr []
    /\ forall k, k ∉ pushTokenFieldNames -> field doc k = field old k.
Proof.
  intros Hm Hadm Htoken Hvalid Hold preferences Hen Hmin Hth Hse.
  pose proof (registerPushToken_run env req w Hm Hadm) as Hrun.
  cbv zeta in Hrun. rewrite Htoken, Hvalid in Hrun. rewrite Hrun.
  destruct (afterRateLimit_stores req w) as (Hstore & _ & _).
  set (t := tokenData token _ _ _).
  pose proof (pushTokenDoc_fields
                (default ∅ (push_tokens (afterRateLimit req w) !! token)) t)
    as Hdoc. cbv zeta in Hdoc.
  destruct Hdoc as (_ & _ & Hdoc_en & Hdoc_min & Hdoc_th & Hdoc_se & _ & Hrest).
  eexists. split; [apply set_merge_lookup|].
  assert (pt_notificationsEnabled t = JBool true) as Ht_en
    by (subst t; unfold tokenData; cbn [pt_notificationsEnabled];
        fold preferences; by rewrite Hen).
  assert (pt_minDiscountThreshold t = #20%js) as Ht_min
    by (subst t; unfold tokenData, minDiscount; cbn [pt_minDiscountThreshold];
        fold preferences; by rewrite Hmin).
  assert (pt_watchedThemes t = []) as Ht_th
    by (subst t; unfold tokenData; cbn [pt_watchedThemes];
        fold preferences; by rewrite Hth).
  assert (pt_watchedSets t = []) as Ht_se
    by (subst t; unfold tokenData; cbn [pt_watchedSets];
        fold preferences; by rewrite Hse).
  split; [rewrite Hdoc_en, Ht_en; by rewrite ?Ht_en|].
  split; [by rewrite Hdoc_min, Ht_min|].
  split; [by rewrite Hdoc_th, Ht_th|].
  split; [by rewrite Hdoc_se, Ht_se|].
  intros k Hk. rewrite Hrest by exact Hk.
  by rewrite Hstore, Hold.
Qed.

Lemma reregister_resets_preferences_witness :
  let token := "ExponentPushToken[abc123]" in
  let w := registry [(token, tunedSubscriber)] in
  let req := registerRequest (JStr token) JUndefined in
  (field tunedSubscriber "minDiscountThreshold",
   field tunedSubscriber "watchedThemes",
   field tunedSubscriber "quietHoursStart")
  = (JNum #55%js, JArr [JStr "Star Wars"], JNum #22%js)
  /\ exists doc,
       push_tokens (registerPushToken devEnv req w).2 !! token = Some doc
       /\ field doc "minDiscountThreshold" = JNum #20%js
       /\ field doc "watchedThemes" = JArr []
       /\ field doc "quietHoursStart" = JNum #22%js.
Proof.
  intros token w req.
  split; [vm_compute; reflexivity|].
  assert (admitted req w) as Hadm by (vm_compute; reflexivity).
  assert (push_tokens w !! token = Some tunedSubscriber) as Hold
    by (vm_cast_no_check (@eq_refl _ (Some tunedSubscriber))).
  pose proof (reregister_resets_preferences devEnv req w token tunedSubscriber
                eq_refl Hadm eq_refl eq_refl Hold
                eq_refl eq_refl eq_refl eq_refl) as H.
  destruct H as (doc & Hdoc & _ & Hmin & Hth & _ & Hrest).
  exists doc. split; [exact Hdoc|]. split; [exact Hmin|]. split; [exact Hth|].
  rewrite (Hrest "quietHoursStart").
  - vm_compute. reflexivity.
  - unfold pushTokenFieldNames. intros Hin.
    repeat (apply elem_of_cons in Hin as [Hin|Hin]; [discriminate Hin|]).
    by apply elem_of_nil in Hin.
Defined.

(* ===================================================================== *)
(** * API key and rate limiting *)
(* ===================================================================== *)

Section ApiKey.

Context (env : Env).

(** What [validateApiKey] itself decides. *)
Lemma validateApiKey_spec req :
  (APP_API_KEY env = "" -> validateApiKey env req = true)
  /\ (APP_API_KEY env <> "" ->
      validateApiKey env req = true <->
      str_or (headers req !! "x-api-key")
             (remove_first "Bearer " <$> (headers req !! "authorization"))
      = Some (APP_API_KEY env)).
Proof.
  unfold validateApiKey. split.
  - by intros ->.
  - intros Hkey. apply String.eqb_neq in Hkey. rewrite Hkey.
    destruct (str_or _ _) as [k|]; [|done].
    rewrite String.eqb_eq. split; congruence.
Qed.

Lemma sendTestNotification_status req w res :
  (sendTestNotification env req w).1 = Ok res ->
  status res ∈ [204; 405; 429; 400; 404; 200].
Proof.
  unfold sendTestNotification.
  destruct (String.eqb (method req) "OPTIONS"); run.
  { intros [= <-]. simpl. set_solver. }
  destruct (negb (String.eqb (method req) "POST")); run.
  { intros [= <-]. simpl. set_solver. }
  destruct (checkRateLimit (getClientIp req) w) as [[[]|e] w1]; simpl;
    [| |done].
  - destruct (js_get (body req) "token") as [| | | |token| | |]; simpl;
      try (intros [= <-]; simpl; set_solver).
    destruct (negb _); simpl; [intros [= <-]; simpl; set_solver|].
    destruct (push_tokens _ !! token); simpl.
    + intros [= <-]. simpl. set_solver.
    + intros [= <-]. simpl. set_solver.
  - intros [= <-]. simpl. set_solver.
Qed.

End ApiKey.

(** C7 (the code at the failing input).  With the API key configured, a
    POST to [sendTestNotification] that carries no key and names a
    registered token is answered 200 after a push has been sent, although
    [validateApiKey] rejects the request and the admin endpoints answer 401
    to it; whatever the request, [sendTestNotification] never answers
    401. *)
Theorem sendTestNotification_ignores_api_key :
  let token := "ExponentPushToken[abc123]" in
  let req := anonymousTestRequest token in
  let w := registry [(token, tunedSubscriber)] in
  APP_API_KEY prodEnv <> ""
  /\ validateApiKey prodEnv req = false
  /\ statusOf (apiKeyGate prodEnv req (sendTestNotification prodEnv req)
                 w) = Some 401
  /\ statusOf (sendTestNotification prodEnv req w) = Some 200
  /\ length (gatewayCalls (events (sendTestNotification prodEnv req w).2))
     = 1%nat
  /\ forall env req' w' res,
       (sendTestNotification env req' w').1 = Ok res -> status res <> 401.
Proof.
  intros token req w.
  split; [discriminate|]. split; [vm_compute; reflexivity|].
  split; [vm_compute; reflexivity|]. split; [vm_compute; reflexivity|].
  split; [vm_compute; reflexivity|].
  intros env req' w' res Hres.
  pose proof (sendTestNotification_status env req' w' res Hres) as Hin.
  intros Heq. rewrite Heq in Hin.
  repeat (apply elem_of_cons in Hin as [Hin|Hin]; [discriminate Hin|]).
  by apply elem_of_nil in Hin.
Qed.

Section RateLimit.

Lemma checkRateLimit_refused ip w :
  (checkRateLimit ip w).1 = Ok false -> (checkRateLimit ip w).2 = w.
Proof.
  unfold checkRateLimit. run.
  destruct (rateLimitMap w !! ip) as [record|]; simpl; [|done].
  destruct (clock w >? resetTime record); simpl; [done|].
  by destruct (count record >=? RATE_LIMIT_MAX_REQUESTS).
Qed.

Lemma arrive_opens ip t w :
  opensWindow ip t w ->
  exists w', arrive ip t w = (true, w')
             /\ rateLimitMap w' !! ip
                = Some {| count := 1; resetTime := t + RATE_LIMIT_WINDOW_MS |}.
Proof.
  unfold opensWindow, arrive, checkRateLimit. run.
  destruct (rateLimitMap w !! ip) as [record|]; simpl.
  - intros Hlt. apply Z.gtb_lt in Hlt. rewrite Hlt. simpl.
    eexists. split; [done|]. simpl. apply lookup_insert_eq.
  - intros _. eexists. split; [done|]. simpl. apply lookup_insert_eq.
Qed.

Lemma arrive_in_window ip t w c R :
  rateLimitMap w !! ip = Some {| count := c; resetTime := R |} ->
  t <= R ->
  exists w',
    arrive ip t w = (negb (c >=? RATE_LIMIT_MAX_REQUESTS), w')
    /\ rateLimitMap w' !! ip
       = Some {| count := if c >=? RATE_LIMIT_MAX_REQUESTS then c else c + 1;
                 resetTime := R |}.
Proof.
  intros Hrec Ht. unfold arrive, checkRateLimit. run. rewrite Hrec. simpl.
  assert ((t >? R) = false) as -> by (rewrite Z.gtb_ltb; apply Z.ltb_ge; lia).
  destruct (c >=? RATE_LIMIT_MAX_REQUESTS); simpl.
  - eexists. split; [done|]. simpl. exact Hrec.
  - eexists. split; [done|]. simpl. apply lookup_insert_eq.
Qed.

Lemma arrive_other ip ip' t w :
  ip' <> ip ->
  rateLimitMap (arrive ip' t w).2 !! ip = rateLimitMap w !! ip.
Proof.
  intros Hne. unfold arrive, checkRateLimit. run.
  destruct (rateLimitMap w !! ip') as [record|]; simpl.
  - destruct (t >? resetTime record); simpl;
      [by rewrite lookup_insert_ne|].
    destruct (count record >=? RATE_LIMIT_MAX_REQUESTS); simpl; [done|].
    by rewrite lookup_insert_ne.
  - by rewrite lookup_insert_ne.
Qed.

Lemma decisionsFor_cons ip ip' t reqs w :
  decisionsFor ip ((ip', t) :: reqs) w
  = if String.eqb ip' ip
    then (arrive ip' t w).1 :: decisionsFor ip reqs (arrive ip' t w).2
    else decisionsFor ip reqs (arrive ip' t w).2.
Proof.
  unfold decisionsFor. cbn [serve].
  destruct (arrive ip' t w) as [b w']. cbn [zip zip_with fst snd].
  rewrite filter_cons. cbn [fst snd].
  destruct (String.eqb ip' ip) eqn:Heq.
  - by rewrite decide_True.
  - by rewrite decide_False.
Qed.

Lemma requestsOf_cons ip ip' t reqs :
  requestsOf ip ((ip', t) :: reqs)
  = if String.eqb ip' ip then (ip', t) :: requestsOf ip reqs
    else requestsOf ip reqs.
Proof.
  unfold requestsOf. rewrite filter_cons. cbn [fst].
  destruct (String.eqb ip' ip) eqn:Heq.
  - by rewrite decide_True.
  - by rewrite decide_False.
Qed.

(** Inside a window the decisions depend on the count alone. *)
Lemma decisionsFor_in_window ip reqs : forall w c R,
  rateLimitMap w !! ip = Some {| count := c; resetTime := R |} ->
  (forall ip' t, (ip', t) ∈ reqs -> ip' = ip -> t <= R) ->
  decisionsFor ip reqs w = windowDecisions c (length (requestsOf ip reqs)).
Proof.
  induction reqs as [|[ip' t] reqs IH]; intros w c R Hrec Hin; [done|].
  rewrite decisionsFor_cons, requestsOf_cons.
  assert (forall ip'' t', (ip'', t') ∈ reqs -> ip'' = ip -> t' <= R) as Hin'
    by (intros; eapply Hin; [by apply list_elem_of_further|done]).
  destruct (String.eqb ip' ip) eqn:Heq.
  - apply String.eqb_eq in Heq. subst ip'.
    destruct (arrive_in_window ip t w c R Hrec) as (w' & Harr & Hrec').
    { apply (Hin ip t); [apply list_elem_of_here|done]. }
    rewrite Harr. cbn [fst snd length windowDecisions].
    rewrite (IH w' _ R Hrec' Hin').
    by destruct (c >=? RATE_LIMIT_MAX_REQUESTS).
  - apply String.eqb_neq in Heq.
    apply (IH _ c R); [|done].
    by rewrite arrive_other.
Qed.

Lemma windowDecisions_full n :
  windowDecisions RATE_LIMIT_MAX_REQUESTS n = replicate n false.
Proof. induction n as [|n IH]; [done|]. cbn. by rewrite IH. Qed.

Lemma windowDecisions_split c n :
  0 <= c <= RATE_LIMIT_MAX_REQUESTS ->
  windowDecisions c n
  = replicate (n `min` Z.to_nat (RATE_LIMIT_MAX_REQUESTS - c)) true
    ++ replicate (n - Z.to_nat (RATE_LIMIT_MAX_REQUESTS - c)) false.
Proof.
  unfold RATE_LIMIT_MAX_REQUESTS.
  revert c. induction n as [|n IH]; intros c Hc; [done|].
  cbn [windowDecisions]. unfold RATE_LIMIT_MAX_REQUESTS.
  destruct (c >=? 30) eqn:Hge.
  - assert (c = 30) as -> by lia.
    pose proof (windowDecisions_full n) as Hfull.
    unfold RATE_LIMIT_MAX_REQUESTS in Hfull. rewrite Hfull. done.
  - rewrite IH by lia.
    replace (Z.to_nat (30 - c)) with (S (Z.to_nat (30 - (c + 1)))) by lia.
    done.
Qed.

End RateLimit.

(** C8 (as stated, refuted).  One client sends a request at 0 ms, 29 at
    59 999 ms and 30 at 60 001 ms: all 60 are admitted, 59 of them within
    the 60-second interval that starts at 59 999 ms (in fact within 2 ms),
    more than the 30 a sliding window would allow. *)
Lemma sliding_window_counterexample :
  serve burst world0 = replicate 60 true
  /\ admittedWithin "203.0.113.7" 59999 (59999 + RATE_LIMIT_WINDOW_MS)
       burst world0 = 59%nat
  /\ ~ (59 <= Z.to_nat RATE_LIMIT_MAX_REQUESTS)%nat.
Proof. vm_compute. repeat split; lia. Qed.

(** C8 (amended).  The limiter keeps a fixed window per client IP: the
    request that opens a window (the client's first, or the first to arrive
    after the previous resetTime) is admitted and sets resetTime to its
    arrival time plus 60 seconds; of the requests of that client arriving up
    to resetTime, whatever other clients do in between, exactly the first 30
    (the opening one included) are admitted and the 31st and later are
    refused.  A refused request is answered 429 and leaves the world
    untouched. *)
Theorem fixed_window_limit :
  (forall ip t0 reqs w,
      opensWindow ip t0 w ->
      (forall ip' t, (ip', t) ∈ reqs -> ip' = ip ->
                     t <= t0 + RATE_LIMIT_WINDOW_MS) ->
      let n := S (length (requestsOf ip reqs)) in
      decisionsFor ip ((ip, t0) :: reqs) w
      = replicate (n `min` 30) true ++ replicate (n - 30) false)
  /\ (forall env req w,
         method req = "POST" ->
         (checkRateLimit (getClientIp req) w).1 = Ok false ->
         let refusal :=
           (Ok (safeErrorResponse (setCorsHeaders env req) 429
                  "Too many requests"), w) in
         registerPushToken env req w = refusal
         /\ sendTestNotification env req w = refusal).
Proof.
  split.
  - intros ip t0 reqs w Hopen Hin n.
    rewrite decisionsFor_cons, String.eqb_refl.
    destruct (arrive_opens ip t0 w Hopen) as (w' & Harr & Hrec).
    rewrite Harr. cbn [fst snd].
    rewrite (decisionsFor_in_window ip reqs w' 1 _ Hrec Hin).
    rewrite windowDecisions_split by (unfold RATE_LIMIT_MAX_REQUESTS; lia).
    subst n. unfold RATE_LIMIT_MAX_REQUESTS.
    change (Z.to_nat (30 - 1)) with 29%nat.
    generalize (length (requestsOf ip reqs)). intros m.
    replace (S m `min` 30)%nat with (S (m `min` 29)) by lia.
    replace (S m - 30)%nat with (m - 29)%nat by lia.
    done.
  - intros env req w Hm Hrefused refusal.
    pose proof (checkRateLimit_refused _ _ Hrefused) as Hw.
    unfold registerPushToken, sendTestNotification.
    rewrite Hm. cbn [String.eqb Ascii.eqb Bool.eqb negb]. run.
    destruct (checkRateLimit (getClientIp req) w) as [r w1]; simpl in *.
    by subst r w1.
Qed.

Lemma fixed_window_limit_witness :
  let ip := "203.0.113.7" in
  let reqs := replicate 35 (ip, 59999) in
  opensWindow ip 0 world0
  /\ decisionsFor ip ((ip, 0) :: reqs) world0
     = replicate 30 true ++ replicate 6 false.
Proof.
  intros ip reqs.
  assert (opensWindow ip 0 world0) as Hopen by exact I.
  split; [exact Hopen|].
  assert (forall ip' t, (ip', t) ∈ reqs -> ip' = ip ->
                        t <= 0 + RATE_LIMIT_WINDOW_MS) as Hin.
  { intros ip' t Hel _. apply elem_of_replicate in Hel as [[= _ ->] _].
    unfold RATE_LIMIT_WINDOW_MS. lia. }
  pose proof (proj1 fixed_window_limit ip 0 reqs world0 Hopen Hin) as H.
  cbv zeta in H. rewrite H. vm_compute. reflexivity.
Defined.

(* ===================================================================== *)
(** * The validators, characterised *)
(* ===================================================================== *)

Section RegexSemantics.

Import Regex.

Lemma append_nil_r (s : string) : s +:+ "" = s.
Proof.
  induction s as [|c s IH]; [done|].
  change (String c (s +:+ "") = String c s). by f_equal.
Qed.

Lemma append_assoc (s1 s2 s3 : string) :
  (s1 +:+ s2) +:+ s3 = s1 +:+ (s2 +:+ s3).
Proof.
  induction s1 as [|c s1 IH]; [done|].
  change (String c ((s1 +:+ s2) +:+ s3) = String c (s1 +:+ (s2 +:+ s3))).
  by f_equal.
Qed.

Lemma append_eq_nil (s1 s2 : string) :
  s1 +:+ s2 = "" -> s1 = "" /\ s2 = "".
Proof. by destruct s1. Qed.

Lemma nullable_spec r : nullable r = true <-> re_matches r "".
Proof.
  split.
  - induction r as [| |p|r1 IH1 r2 IH2|r1 IH1 r2 IH2|r IH]; simpl; try done.
    + intros _. constructor.
    + intros [H1 H2]%andb_true_iff.
      change "" with ("" +:+ "")%string. constructor; auto.
    + intros [H|H]%orb_true_iff; [apply MAltL|apply MAltR]; auto.
    + intros _. constructor.
  - intros H. remember ""%string as s eqn:Hs.
    induction H as [|p c Hp|r1 r2 s1 s2 H1 IH1 H2 IH2|r1 r2 s H IH
                    |r1 r2 s H IH|r|r s1 s2 H1 IH1 H2 IH2]; simpl; try done.
    + apply append_eq_nil in Hs as [-> ->]. by rewrite IH1, IH2.
    + by rewrite IH.
    + rewrite IH by done. apply orb_true_r.
Qed.

Lemma seq_inv r1 r2 s :
  re_matches (ReSeq r1 r2) s ->
  exists s1 s2, s = s1 +:+ s2 /\ re_matches r1 s1 /\ re_matches r2 s2.
Proof. inversion 1; subst; eauto. Qed.

Lemma alt_inv r1 r2 s :
  re_matches (ReAlt r1 r2) s -> re_matches r1 s \/ re_matches r2 s.
Proof. inversion 1; subst; auto. Qed.

Lemma class_inv p s :
  re_matches (ReClass p) s -> exists c, s = String c "" /\ p c = true.
Proof. inversion 1; subst; eauto. Qed.

Lemma deriv_sound c r : forall s,
  re_matches (deriv c r) s -> re_matches r (String c s).
Proof.
  induction r as [| |p|r1 IH1 r2 IH2|r1 IH1 r2 IH2|r IH]; simpl; intros s H.
  - inversion H.
  - inversion H.
  - destruct (p c) eqn:Hp; inversion H; subst. by constructor.
  - destruct (nullable r1) eqn:Hn.
    + apply alt_inv in H as [H|H].
      * apply seq_inv in H as (s1 & s2 & -> & Ha & Hb).
        change (String c (s1 +:+ s2)) with (String c s1 +:+ s2).
        constructor; auto.
      * change (String c s) with ("" +:+ String c s)%string.
        constructor; [by apply nullable_spec|auto].
    + apply seq_inv in H as (s1 & s2 & -> & Ha & Hb).
      change (String c (s1 +:+ s2)) with (String c s1 +:+ s2).
      constructor; auto.
  - apply alt_inv in H as [H|H]; [apply MAltL|apply MAltR]; auto.
  - apply seq_inv in H as (s1 & s2 & -> & Ha & Hb).
    change (String c (s1 +:+ s2)) with (String c s1 +:+ s2).
    constructor; auto.
Qed.

Lemma star_cons_inv r c s :
  re_matches (ReStar r) (String c s) ->
  exists s1 s2, s = s1 +:+ s2 /\ re_matches r (String c s1)
                /\ re_matches (ReStar r) s2.
Proof.
  intros H. remember (ReStar r) as r' eqn:Hr.
  remember (String c s) as s' eqn:Hs. revert s Hs.
  induction H as [|p c' Hp|r1 r2 s1 s2 H1 IH1 H2 IH2|r1 r2 s0 H IH
                  |r1 r2 s0 H IH|r0|r0 s1 s2 H1 IH1 H2 IH2];
    intros s Hs; try done.
  injection Hr as ->.
  destruct s1 as [|c1 s1].
  - by apply IH2.
  - change (String c1 s1 +:+ s2) with (String c1 (s1 +:+ s2)) in Hs.
    injection Hs as -> <-. by exists s1, s2.
Qed.

Lemma deriv_complete c r : forall s,
  re_matches r (String c s) -> re_matches (deriv c r) s.
Proof.
  induction r as [| |p|r1 IH1 r2 IH2|r1 IH1 r2 IH2|r IH]; simpl; intros s H.
  - inversion H.
  - inversion H.
  - apply class_inv in H as (c' & [= -> ->] & Hp). rewrite Hp. constructor.
  - apply seq_inv in H as (s1 & s2 & Hs & Ha & Hb).
    destruct s1 as [|c1 s1].
    + change ("" +:+ s2)%string with s2 in Hs. subst s2.
      apply nullable_spec in Ha. rewrite Ha.
      apply MAltR. auto.
    + change (String c1 s1 +:+ s2) with (String c1 (s1 +:+ s2)) in Hs.
      injection Hs as -> ->.
      destruct (nullable r1); [apply MAltL|]; constructor; auto.
  - apply alt_inv in H as [H|H]; [apply MAltL|apply MAltR]; auto.
  - apply star_cons_inv in H as (s1 & s2 & -> & H1 & H2).
    constructor; auto.
Qed.

(** The matcher decides the denotation. *)
Lemma test_spec r s : test r s = true <-> re_matches r s.
Proof.
  revert r. induction s as [|c s IH]; intros r; simpl.
  - apply nullable_spec.
  - rewrite IH. split; [apply deriv_sound|apply deriv_complete].
Qed.

End RegexSemantics.

Section ValidatorShapes.

Import Regex.

Lemma append_cons c (s1 s2 : string) :
  String c s1 +:+ s2 = String c (s1 +:+ s2).
Proof. reflexivity. Qed.

Lemma append_nil_l (s : string) : "" +:+ s = s.
Proof. reflexivity. Qed.

Lemma string_forall_app p s1 s2 :
  string_forall p (s1 +:+ s2) = string_forall p s1 && string_forall p s2.
Proof.
  induction s1 as [|c s1 IH]; [done|].
  change (String c s1 +:+ s2) with (String c (s1 +:+ s2)).
  cbn [string_forall]. by rewrite IH, andb_assoc.
Qed.

Lemma length_app (s1 s2 : string) :
  String.length (s1 +:+ s2) = (String.length s1 + String.length s2)%nat.
Proof.
  induction s1 as [|c s1 IH]; [done|].
  change (String c s1 +:+ s2) with (String c (s1 +:+ s2)).
  cbn [String.length]. by rewrite IH.
Qed.

Lemma string_split n (s : string) :
  (n <= String.length s)%nat ->
  exists s1 s2, s = s1 +:+ s2 /\ String.length s1 = n.
Proof.
  revert s. induction n as [|n IH]; intros s Hn.
  - by exists ""%string, s.
  - destruct s as [|c s]; simpl in Hn; [lia|].
    destruct (IH s) as (s1 & s2 & -> & Hlen); [lia|].
    exists (String c s1), s2. split; [done|]. simpl. by rewrite Hlen.
Qed.

Lemma matches_class p s :
  re_matches (ReClass p) s <-> exists c, s = String c "" /\ p c = true.
Proof.
  split; [apply class_inv|]. intros (c & -> & Hp). by constructor.
Qed.

Lemma matches_chr a s : re_matches (chr a) s <-> s = String a "".
Proof.
  unfold chr. rewrite matches_class. split.
  - intros (c & -> & Hc). apply Ascii.eqb_eq in Hc. by subst.
  - intros ->. exists a. split; [done|]. apply Ascii.eqb_refl.
Qed.

Lemma matches_seq r1 r2 s :
  re_matches (ReSeq r1 r2) s <->
  exists s1 s2, s = s1 +:+ s2 /\ re_matches r1 s1 /\ re_matches r2 s2.
Proof.
  split; [apply seq_inv|]. intros (s1 & s2 & -> & H1 & H2). by constructor.
Qed.

Lemma matches_eps s : re_matches ReEps s <-> s = "".
Proof. split; [by inversion 1|intros ->; constructor]. Qed.

Lemma matches_opt r s : re_matches (opt r) s <-> re_matches r s \/ s = "".
Proof.
  unfold opt. split.
  - intros [H|H]%alt_inv; [by left|right]. by apply matches_eps.
  - intros [H| ->]; [by apply MAltL|apply MAltR; constructor].
Qed.

Lemma matches_lit p s : re_matches (lit p) s <-> s = p.
Proof.
  revert s. induction p as [|c p IH]; intros s; cbn [lit].
  - apply matches_eps.
  - rewrite matches_seq. split.
    + intros (s1 & s2 & -> & H1%matches_chr & H2%IH). by subst.
    + intros ->. exists (String c ""), p.
      split; [done|]. split; [by apply matches_chr|by apply IH].
Qed.

Lemma matches_times n p s :
  re_matches (times n (ReClass p)) s <->
  String.length s = n /\ string_forall p s = true.
Proof.
  revert s. induction n as [|n IH]; intros s; cbn [times].
  - rewrite matches_eps. split; [by intros ->|].
    intros [Hlen _]. by destruct s.
  - rewrite matches_seq. split.
    + intros (s1 & s2 & -> & (c & -> & Hp)%matches_class & [Hlen Hall]%IH).
      rewrite append_cons, append_nil_l. simpl. by rewrite Hlen, Hp, Hall.
    + intros [Hlen Hall]. destruct s as [|c s]; [done|].
      simpl in Hlen, Hall. apply andb_true_iff in Hall as [Hp Hall].
      exists (String c ""), s. split; [done|].
      split; [by constructor|]. apply IH. split; [lia|done].
Qed.

Lemma matches_times_opt k p s :
  re_matches (times k (opt (ReClass p))) s <->
  (String.length s <= k)%nat /\ string_forall p s = true.
Proof.
  revert s. induction k as [|k IH]; intros s; cbn [times].
  - rewrite matches_eps. split; [by intros ->|].
    intros [Hlen _]. destruct s; [done|simpl in Hlen; lia].
  - rewrite matches_seq. split.
    + intros (s1 & s2 & -> & H1%matches_opt & [Hlen Hall]%IH).
      destruct H1 as [(c & -> & Hp)%matches_class| ->];
        rewrite ?append_cons, ?append_nil_l; simpl.
      * rewrite Hp, Hall. split; [lia|done].
      * split; [lia|done].
    + intros [Hlen Hall]. destruct s as [|c s].
      * exists ""%string, ""%string. split; [done|].
        split; [apply matches_opt; by right|]. apply IH. split; [simpl; lia|done].
      * simpl in Hlen, Hall. apply andb_true_iff in Hall as [Hp Hall].
        exists (String c ""), s. split; [done|].
        split; [apply matches_opt; left; by constructor|].
        apply IH. split; [lia|done].
Qed.

Lemma matches_range lo extra p s :
  re_matches (range lo extra (ReClass p)) s <->
  (lo <= String.length s <= lo + extra)%nat /\ string_forall p s = true.
Proof.
  unfold range. rewrite matches_seq. split.
  - intros (s1 & s2 & -> & [Hl1 Ha1]%matches_times & [Hl2 Ha2]%matches_times_opt).
    rewrite length_app, string_forall_app, Ha1, Ha2. split; [lia|done].
  - intros [Hlen Hall].
    destruct (string_split lo s) as (s1 & s2 & -> & Hl1); [lia|].
    rewrite length_app in Hlen. rewrite string_forall_app in Hall.
    apply andb_true_iff in Hall as [Ha1 Ha2].
    exists s1, s2. split; [done|].
    split; [by apply matches_times|]. apply matches_times_opt.
    split; [lia|done].
Qed.

Lemma matches_star_class p s :
  re_matches (ReStar (ReClass p)) s <-> string_forall p s = true.
Proof.
  split.
  - intros H. remember (ReStar (ReClass p)) as r eqn:Hr.
    induction H as [|p' c' Hp|r1 r2 s1 s2 H1 IH1 H2 IH2|r1 r2 s0 H IH
                    |r1 r2 s0 H IH|r0|r0 s1 s2 H1 IH1 H2 IH2]; try done.
    injection Hr as ->. apply class_inv in H1 as (c & -> & Hp).
    rewrite append_cons, append_nil_l. simpl. by rewrite Hp, IH2.
  - induction s as [|c s IH]; simpl; [intros _; constructor|].
    intros [Hp Hall]%andb_true_iff.
    change (String c s) with (String c "" +:+ s).
    constructor; [by constructor|auto].
Qed.

Lemma matches_plus_class p s :
  re_matches (plus (ReClass p)) s <-> s <> "" /\ string_forall p s = true.
Proof.
  unfold plus. rewrite matches_seq. split.
  - intros (s1 & s2 & -> & (c & -> & Hp)%class_inv & H2%matches_star_class).
    rewrite append_cons, append_nil_l. simpl. by rewrite Hp, H2.
  - intros [Hne Hall]. destruct s as [|c s]; [done|].
    simpl in Hall. apply andb_true_iff in Hall as [Hp Hall].
    exists (String c ""), s. split; [done|].
    split; [by constructor|by apply matches_star_class].
Qed.

End ValidatorShapes.

Section SanitizeFacts.

Import Regex.

Lemma digit_not_dash c : is_digit c = true -> Ascii.eqb c "-" = false.
Proof. destruct c as [[] [] [] [] [] [] [] []]; by vm_compute. Qed.

Lemma drop_dash_digit_digits ds :
  string_forall is_digit ds = true -> drop_dash_digit ds = ds.
Proof.
  induction ds as [|c ds IH]; [done|]. cbn [string_forall drop_dash_digit].
  intros [Hc Hds]%andb_true_iff.
  destruct ds as [|d ds]; [done|].
  destruct ds as [|e ds].
  - by rewrite (digit_not_dash c Hc).
  - by rewrite IH.
Qed.

Lemma drop_dash_digit_suffix ds d :
  is_digit d = true ->
  drop_dash_digit (ds +:+ String "-" (String d "")) = ds.
Proof.
  intros Hd. induction ds as [|c ds IH].
  - rewrite append_nil_l. cbn [drop_dash_digit]. by rewrite Ascii.eqb_refl, Hd.
  - rewrite append_cons. cbn [drop_dash_digit]. rewrite IH.
    destruct ds as [|c' ds]; [done|].
    rewrite append_cons.
    by destruct (ds +:+ String "-" (String d "")) eqn:E;
      [destruct ds; discriminate E|].
Qed.

Lemma string_filter_forall p s :
  string_forall p (string_filter p s) = true.
Proof.
  induction s as [|c s IH]; [done|]. cbn [string_filter].
  destruct (p c) eqn:Hp; [|done]. cbn [string_forall]. by rewrite Hp, IH.
Qed.

Lemma string_filter_id p s :
  string_forall p s = true -> string_filter p s = s.
Proof.
  induction s as [|c s IH]; [done|]. cbn [string_forall string_filter].
  intros [-> Hs]%andb_true_iff. by rewrite IH.
Qed.

End SanitizeFacts.

(** X1.  [isValidExpoPushToken] accepts exactly the strings
    "ExponentPushToken[" body "]" whose body is non-empty and made of
    letters, digits, '_' and '-'; a value that is not a string is
    rejected. *)
Theorem expo_token_shape (v : JsVal) :
  isValidExpoPushToken v = true <->
  exists body,
    v = JStr ("ExponentPushToken[" +:+ body +:+ "]")
    /\ body <> ""
    /\ string_forall Regex.is_token_char body = true.
Proof.
  unfold isValidExpoPushToken, Regex.expo_token_re. split.
  - destruct v as [| | | |s| | |]; try done.
    intros [_ H]%andb_true_iff. apply test_spec in H.
    apply matches_seq in H as (s1 & s2 & -> & ->%matches_lit & H).
    apply matches_seq in H as (body & s3 & -> & [Hne Hall]%matches_plus_class
                               & ->%matches_chr).
    by exists body.
  - intros (body & -> & Hne & Hall). apply andb_true_iff. split; [done|].
    apply test_spec, matches_seq.
    exists "ExponentPushToken["%string, (body +:+ "]").
    split; [done|]. split; [by apply matches_lit|].
    apply matches_seq. exists body, "]"%string.
    split; [done|]. split; [by apply matches_plus_class|by apply matches_chr].
Qed.

Lemma set_number_shape_aux (v : JsVal) :
  isValidSetNumber v = true <->
  exists ds suffix,
    v = JStr (ds +:+ suffix)
    /\ (4 <= String.length ds <= 6)%nat
    /\ string_forall Regex.is_digit ds = true
    /\ (suffix = ""
        \/ exists d, Regex.is_digit d = true
                     /\ suffix = String "-" (String d "")).
Proof.
  unfold isValidSetNumber, Regex.set_number_re, Regex.digit. split.
  - destruct v as [| | | |s| | |]; try done.
    intros [_ H]%andb_true_iff. apply test_spec in H.
    apply matches_seq in H as (ds & suffix & -> & [Hlen Hall]%matches_range & H).
    exists ds, suffix. split; [done|]. split; [simpl in Hlen; lia|].
    split; [done|].
    apply matches_opt in H as [H|H]; [right|by left].
    apply matches_seq in H as (s1 & s2 & -> & ->%matches_chr
                               & (d & -> & Hd)%matches_class).
    by exists d.
  - intros (ds & suffix & -> & Hlen & Hall & Hsuffix).
    apply andb_true_iff. split.
    + destruct ds; [simpl in Hlen; lia|done].
    + apply test_spec, matches_seq. exists ds, suffix.
      split; [done|]. split; [apply matches_range; split; [simpl; lia|done]|].
      apply matches_opt. destruct Hsuffix as [->|(d & Hd & ->)]; [by right|left].
      apply matches_seq. exists "-"%string, (String d "").
      split; [done|]. split; [by apply matches_chr|].
      apply matches_class. by exists d.
Qed.


(** X2.  [isValidSetNumber] accepts exactly the strings made of four to six
    digits, optionally followed by '-' and one digit; a value that is not a
    string is rejected. *)
Theorem set_number_shape (v : JsVal) :
  isValidSetNumber v = true <->
  exists ds suffix,
    v = JStr (ds +:+ suffix)
    /\ (4 <= String.length ds <= 6)%nat
    /\ string_forall Regex.is_digit ds = true
    /\ (suffix = ""
        \/ exists d, Regex.is_digit d = true
                     /\ suffix = String "-" (String d "")).
Proof. exact (set_number_shape_aux v). Qed.

(** X3.  [sanitizeSetNumber] answers "" for a string that is not a valid
    set number and, for a valid one, its four to six leading digits, the
    variant suffix "-d" removed; in both cases only digits. *)
Theorem sanitizeSetNumber_spec (s : string) :
  string_forall Regex.is_digit (sanitizeSetNumber s) = true
  /\ (isValidSetNumber (JStr s) = false <-> sanitizeSetNumber s = "")
  /\ forall ds suffix,
       s = ds +:+ suffix ->
       (4 <= String.length ds <= 6)%nat ->
       string_forall Regex.is_digit ds = true ->
       (suffix = ""
        \/ exists d, Regex.is_digit d = true
                     /\ suffix = String "-" (String d "")) ->
       sanitizeSetNumber s = ds.
Proof.
  assert (forall ds suffix,
             s = ds +:+ suffix ->
             (4 <= String.length ds <= 6)%nat ->
             string_forall Regex.is_digit ds = true ->
             (suffix = ""
              \/ exists d, Regex.is_digit d = true
                           /\ suffix = String "-" (String d "")) ->
             sanitizeSetNumber s = ds) as Hvalid.
  { intros ds suffix Hs Hlen Hall Hsuffix. unfold sanitizeSetNumber.
    assert (isValidSetNumber (JStr s) = true) as ->
      by (apply set_number_shape_aux; exists ds, suffix; by rewrite Hs).
    subst s. destruct Hsuffix as [->|(d & Hd & ->)].
    - rewrite append_nil_r, drop_dash_digit_digits by done.
      by apply string_filter_id.
    - rewrite drop_dash_digit_suffix by done. by apply string_filter_id. }
  split; [|split; [|exact Hvalid]].
  - unfold sanitizeSetNumber.
    destruct (isValidSetNumber (JStr s)); [apply string_filter_forall|done].
  - split.
    + unfold sanitizeSetNumber. by intros ->.
    + intros Hempty. destruct (isValidSetNumber (JStr s)) eqn:Hv; [|done].
      apply set_number_shape_aux in Hv as (ds & suffix & [= Hs] & Hlen & Hall & Hsuf).
      rewrite (Hvalid ds suffix Hs Hlen Hall Hsuf) in Hempty. subst ds.
      simpl in Hlen. lia.
Qed.

(* ===================================================================== *)
(** * Retailer links *)
(* ===================================================================== *)


(* ===================================================================== *)
(** * The rate limiter, further *)
(* ===================================================================== *)

Section LimiterRuns.

Lemma arrive_local ip t w1 w2 :
  rateLimitMap w1 !! ip = rateLimitMap w2 !! ip ->
  (arrive ip t w1).1 = (arrive ip t w2).1
  /\ rateLimitMap (arrive ip t w1).2 !! ip
     = rateLimitMap (arrive ip t w2).2 !! ip.
Proof.
  intros Heq. unfold arrive, checkRateLimit. run. rewrite <- Heq.
  destruct (rateLimitMap w1 !! ip) as [record|] eqn:Hrec; simpl.
  - destruct (t >? resetTime record); simpl;
      [by rewrite !lookup_insert_eq|].
    destruct (count record >=? RATE_LIMIT_MAX_REQUESTS); simpl;
      [by rewrite Hrec, <- Heq|].
    by rewrite !lookup_insert_eq.
  - by rewrite !lookup_insert_eq.
Qed.

Lemma arrive_record ip t w :
  exists record,
    rateLimitMap (arrive ip t w).2 !! ip = Some record
    /\ (record = {| count := 1; resetTime := t + RATE_LIMIT_WINDOW_MS |}
        \/ exists old,
             rateLimitMap w !! ip = Some old /\ t <= resetTime old
             /\ resetTime record = resetTime old
             /\ ((arrive ip t w).1 = true /\ count old < RATE_LIMIT_MAX_REQUESTS
                 /\ count record = count old + 1
                 \/ (arrive ip t w).1 = false
                    /\ RATE_LIMIT_MAX_REQUESTS <= count old /\ record = old)).
Proof.
  unfold arrive, checkRateLimit. run.
  destruct (rateLimitMap w !! ip) as [old|] eqn:Hrec; simpl.
  - destruct (t >? resetTime old) eqn:Ht; simpl.
    + eexists. rewrite lookup_insert_eq. eauto.
    + assert (t <= resetTime old) by (rewrite Z.gtb_ltb in Ht; lia).
      destruct (count old >=? RATE_LIMIT_MAX_REQUESTS) eqn:Hc; simpl.
      * exists old. split; [done|]. right. exists old.
        repeat split; try done. right. repeat split; try done. lia.
      * eexists. rewrite lookup_insert_eq. split; [done|]. right.
        exists old. repeat split; try done. left. simpl.
        repeat split; try done. lia.
  - eexists. rewrite lookup_insert_eq. eauto.
Qed.

Lemma arrive_ok ip t w : limiter_ok w -> limiter_ok (arrive ip t w).2.
Proof.
  intros Hok ip' record' Hrec'.
  destruct (decide (ip' = ip)) as [->|Hne].
  - destruct (arrive_record ip t w) as (record & Hrec & Hcases).
    rewrite Hrec in Hrec'. injection Hrec' as <-.
    destruct Hcases as [->|(old & Hold & _ & _ & Hstep)].
    + unfold RATE_LIMIT_MAX_REQUESTS. simpl. lia.
    + specialize (Hok ip old Hold).
      destruct Hstep as [(_ & Hlt & ->)|(_ & _ & ->)]; lia.
  - rewrite arrive_other in Hrec' by done. by eapply Hok.
Qed.

End LimiterRuns.

(** X5.  The limiter treats clients separately: the decisions on one
    client's requests depend only on that client's own record and requests,
    whatever the other clients send in between. *)
Theorem limiter_isolates_clients ip reqs w1 w2 :
  rateLimitMap w1 !! ip = rateLimitMap w2 !! ip ->
  decisionsFor ip reqs w1 = decisionsFor ip (requestsOf ip reqs) w2.
Proof.
  revert w1 w2. induction reqs as [|[ip' t] reqs IH]; intros w1 w2 Heq; [done|].
  rewrite decisionsFor_cons, requestsOf_cons.
  destruct (String.eqb ip' ip) eqn:Hip.
  - apply String.eqb_eq in Hip. subst ip'.
    rewrite decisionsFor_cons, String.eqb_refl.
    destruct (arrive_local ip t w1 w2 Heq) as [Hb Hw].
    rewrite Hb. f_equal. by apply IH.
  - apply String.eqb_neq in Hip. apply IH.
    by rewrite arrive_other.
Qed.

Lemma limiter_isolates_clients_witness :
  decisionsFor "203.0.113.7"
    [("203.0.113.7", 0); ("198.51.100.9", 5); ("203.0.113.7", 10)] world0
  = decisionsFor "203.0.113.7"
      (requestsOf "203.0.113.7"
         [("203.0.113.7", 0); ("198.51.100.9", 5); ("203.0.113.7", 10)])
      world0.
Proof.
  apply (limiter_isolates_clients "203.0.113.7" _ world0 world0). reflexivity.
Defined.

(** X6.  The limiter keeps every record's count between 1 and 30: it holds
    of the empty map and is preserved by every sequence of requests. *)
Theorem limiter_count_bounds reqs w :
  limiter_ok w -> limiter_ok (serveWorld reqs w).
Proof.
  revert w. induction reqs as [|[ip t] reqs IH]; intros w Hok; [done|].
  cbn [serveWorld]. by apply IH, arrive_ok.
Qed.

Lemma limiter_count_bounds_witness :
  limiter_ok world0 /\ limiter_ok (serveWorld burst world0).
Proof.
  assert (limiter_ok world0) as Hok by (intros ip record Hrec; done).
  split; [exact Hok|]. exact (limiter_count_bounds burst world0 Hok).
Defined.

Section SlidingBound.

Lemma admittedWithin_cons ip lo hi ip' t reqs w :
  admittedWithin ip lo hi ((ip', t) :: reqs) w
  = ((if String.eqb ip' ip && (lo <=? t)%Z && (t <? hi)%Z && (arrive ip' t w).1
      then 1 else 0)
     + admittedWithin ip lo hi reqs (arrive ip' t w).2)%nat.
Proof.
  unfold admittedWithin. cbn [serve].
  destruct (arrive ip' t w) as [b w']. cbn [zip zip_with fst snd].
  rewrite filter_cons. cbn [fst snd].
  destruct (String.eqb ip' ip && (lo <=? t) && (t <? hi) && b) eqn:Hc.
  - by rewrite decide_True.
  - by rewrite decide_False.
Qed.

Lemma admittedWithin_past ip lo hi reqs : forall w m,
  hi <= m -> nondecreasing_from ip m reqs ->
  admittedWithin ip lo hi reqs w = 0%nat.
Proof.
  induction reqs as [|[ip' t] reqs IH]; intros w m Hm Hnd; [done|].
  rewrite admittedWithin_cons. cbn [nondecreasing_from] in Hnd.
  destruct (String.eqb ip' ip) eqn:Hip.
  - destruct Hnd as [Hmt Hnd].
    assert ((t <? hi) = false) as -> by (apply Z.ltb_ge; lia).
    rewrite andb_false_r. simpl. apply (IH _ t); [lia|done].
  - simpl. by apply (IH _ m).
Qed.

Lemma arrive_cases ip t w :
  (exists w',
      arrive ip t w = (true, w')
      /\ rateLimitMap w' !! ip
         = Some {| count := 1; resetTime := t + RATE_LIMIT_WINDOW_MS |}
      /\ (rateLimitMap w !! ip = None
          \/ exists old, rateLimitMap w !! ip = Some old /\ resetTime old < t))
  \/ (exists old w',
         rateLimitMap w !! ip = Some old /\ t <= resetTime old
         /\ count old < RATE_LIMIT_MAX_REQUESTS
         /\ arrive ip t w = (true, w')
         /\ rateLimitMap w' !! ip
            = Some {| count := count old + 1; resetTime := resetTime old |})
  \/ (exists old,
         rateLimitMap w !! ip = Some old /\ t <= resetTime old
         /\ RATE_LIMIT_MAX_REQUESTS <= count old
         /\ (arrive ip t w).1 = false
         /\ rateLimitMap (arrive ip t w).2 !! ip = Some old).
Proof.
  unfold arrive, checkRateLimit. run.
  destruct (rateLimitMap w !! ip) as [old|] eqn:Hrec; simpl.
  - destruct (t >? resetTime old) eqn:Ht; simpl.
    + left. eexists. split; [done|]. simpl. rewrite lookup_insert_eq.
      split; [done|]. right. exists old. split; [done|].
      apply Z.gtb_lt in Ht. lia.
    + assert (t <= resetTime old) by (rewrite Z.gtb_ltb in Ht; lia).
      destruct (count old >=? RATE_LIMIT_MAX_REQUESTS) eqn:Hc; simpl.
      * right; right. exists old. repeat split; try done. lia.
      * right; left. exists old. eexists. repeat split; try done; [lia|].
        simpl. by rewrite lookup_insert_eq.
  - left. eexists. split; [done|]. simpl. rewrite lookup_insert_eq. auto.
Qed.

Lemma headroom_other ip ip' hi t w :
  ip' <> ip -> headroom ip hi (arrive ip' t w).2 = headroom ip hi w.
Proof. intros Hne. unfold headroom. by rewrite arrive_other. Qed.

Lemma headroom_bounds ip hi w :
  limiter_ok w -> 0 <= headroom ip hi w <= 59.
Proof.
  intros Hok. unfold headroom.
  destruct (rateLimitMap w !! ip) as [record|] eqn:Hrec; [|lia].
  specialize (Hok ip record Hrec). unfold RATE_LIMIT_MAX_REQUESTS in *.
  destruct (hi <=? resetTime record); lia.
Qed.

(** From the start of the interval on, the admitted requests fit the
    headroom. *)
Lemma admittedWithin_headroom ip lo reqs : forall w m,
  let hi := lo + RATE_LIMIT_WINDOW_MS in
  lo <= m -> limiter_ok w -> nondecreasing_from ip m reqs ->
  Z.of_nat (admittedWithin ip lo hi reqs w) <= headroom ip hi w.
Proof.
  intros w m hi. revert w m.
  induction reqs as [|[ip' t] reqs IH]; intros w m Hm Hok Hnd.
  { simpl. by apply headroom_bounds. }
  rewrite admittedWithin_cons. cbn [nondecreasing_from] in Hnd.
  pose proof (arrive_ok ip' t w Hok) as Hok'.
  destruct (String.eqb ip' ip) eqn:Hip.
  - apply String.eqb_eq in Hip. subst ip'. destruct Hnd as [Hmt Hnd].
    specialize (IH (arrive ip t w).2 t ltac:(lia) Hok' Hnd).
    assert (forall b : bool, ((if b then 1 else 0 : nat) <= 1)%nat) as Hle1
      by (intros []; lia).
    match goal with |- context [if ?b then 1%nat else 0%nat] =>
      pose proof (Hle1 b) as Hone end.
    destruct (arrive_cases ip t w)
      as [(w' & Harr & Hrec' & Hold)
         |[(old & w' & Hold & Ht & Hc & Harr & Hrec')
          |(old & Hold & Ht & Hc & Hb & Hrec')]].
    + rewrite Harr in *. cbn [fst snd] in *.
      assert (headroom ip hi w' = 29) as Hroom'.
      { unfold headroom. rewrite Hrec'. cbn [resetTime count].
        assert ((hi <=? t + RATE_LIMIT_WINDOW_MS) = true) as ->
          by (apply Z.leb_le; subst hi; lia).
        done. }
      rewrite Hroom' in IH.
      destruct Hold as [Hnone|(old & Hold & Hlt)].
      * unfold headroom. rewrite Hnone. lia.
      * pose proof (Hok ip old Hold) as Hcount.
        unfold headroom. rewrite Hold.
        unfold RATE_LIMIT_MAX_REQUESTS in *.
        destruct (hi <=? resetTime old) eqn:Hhi; [|lia].
        apply Z.leb_le in Hhi.
        assert ((t <? hi) = false) as Hpast by (apply Z.ltb_ge; lia).
        rewrite Hpast, andb_false_r. simpl.
        rewrite (admittedWithin_past ip lo hi reqs w' t) by (done || lia).
        lia.
    + rewrite Harr in *. cbn [fst snd] in *.
      assert (headroom ip hi w' = headroom ip hi w - 1) as Hroom'.
      { unfold headroom. rewrite Hrec', Hold. cbn [resetTime count].
        destruct (hi <=? resetTime old); lia. }
      rewrite Hroom' in IH. lia.
    + rewrite Hb. rewrite andb_false_r. simpl.
      assert (headroom ip hi (arrive ip t w).2 = headroom ip hi w) as Hroom'
        by (unfold headroom; by rewrite Hrec', Hold).
      rewrite Hroom' in IH. lia.
  - apply String.eqb_neq in Hip. simpl.
    rewrite <- (headroom_other ip ip' hi t w Hip).
    by apply (IH _ m).
Qed.

End SlidingBound.

(** X7.  What the limiter does guarantee over a sliding interval: when a
    client's arrival times never decrease, at most 59 of its requests are
    admitted in any 60-second interval, whatever other clients do; the bound
    is reached (one request, 29 just before the reset, 30 just after). *)
Theorem limiter_sliding_bound ip lo m reqs w :
  limiter_ok w ->
  nondecreasing_from ip m reqs ->
  (admittedWithin ip lo (lo + RATE_LIMIT_WINDOW_MS) reqs w <= 59)%nat.
Proof.
  revert w m. induction reqs as [|[ip' t] reqs IH]; intros w m Hok Hnd.
  { unfold admittedWithin. simpl. lia. }
  destruct (String.eqb ip' ip) eqn:Hip.
  - destruct (Z.le_gt_cases lo t) as [Hlo|Hlo].
    + pose proof (admittedWithin_headroom ip lo ((ip', t) :: reqs) w lo) as H.
      cbv zeta in H. cbn [nondecreasing_from] in H, Hnd. rewrite Hip in H, Hnd.
      specialize (H ltac:(lia) Hok (conj Hlo (proj2 Hnd))).
      pose proof (headroom_bounds ip (lo + RATE_LIMIT_WINDOW_MS) w Hok). lia.
    + rewrite admittedWithin_cons, Hip.
      assert ((lo <=? t) = false) as -> by (apply Z.leb_gt; lia).
      simpl. cbn [nondecreasing_from] in Hnd. rewrite Hip in Hnd.
      apply (IH _ t); [by apply arrive_ok|apply Hnd].
  - rewrite admittedWithin_cons, Hip. simpl.
    cbn [nondecreasing_from] in Hnd. rewrite Hip in Hnd.
    apply (IH _ m); [by apply arrive_ok|done].
Qed.

Lemma limiter_sliding_bound_witness :
  limiter_ok world0
  /\ nondecreasing_from "203.0.113.7" 0 burst
  /\ (admittedWithin "203.0.113.7" 59999 (59999 + RATE_LIMIT_WINDOW_MS)
        burst world0 <= 59)%nat
  /\ admittedWithin "203.0.113.7" 59999 (59999 + RATE_LIMIT_WINDOW_MS)
       burst world0 = 59%nat.
Proof.
  assert (limiter_ok world0) as Hok by (intros ip record Hrec; done).
  assert (nondecreasing_from "203.0.113.7" 0 burst) as Hnd
    by (vm_compute; repeat split; discriminate).
  split; [exact Hok|]. split; [exact Hnd|].
  split; [|vm_compute; reflexivity].
  exact (limiter_sliding_bound "203.0.113.7" 59999 0 burst world0 Hok Hnd).
Defined.

Section ClientAddress.

Lemma before_comma_first first rest :
  string_forall not_comma first = true ->
  before_comma (first +:+ String "," rest) = first.
Proof.
  induction first as [|c first IH]; intros Hall.
  - rewrite append_nil_l. cbn [before_comma]. by rewrite Ascii.eqb_refl.
  - rewrite append_cons. cbn [string_forall before_comma] in *.
    apply andb_true_iff in Hall as [Hc Hall]. unfold not_comma in Hc.
    apply negb_true_iff in Hc. rewrite Hc. by rewrite IH.
Qed.

Lemma before_comma_whole s :
  string_forall not_comma s = true -> before_comma s = s.
Proof.
  induction s as [|c s IH]; [done|]. cbn [string_forall before_comma].
  intros [Hc Hall]%andb_true_iff. unfold not_comma in Hc.
  apply negb_true_iff in Hc. rewrite Hc. by rewrite IH.
Qed.

Lemma str_or_nonempty a b s :
  str_or a b = Some s -> (forall s', b = Some s' -> s' <> "") -> s <> "".
Proof.
  unfold str_or. destruct a as [s0|]; [|by auto].
  destruct (String.eqb s0 "") eqn:He; [by auto|].
  intros [= <-] _. by apply String.eqb_neq.
Qed.

Lemma arrive_fresh ip t w :
  rateLimitMap w !! ip = None -> (arrive ip t w).1 = true.
Proof.
  intros Hnone. unfold arrive, checkRateLimit. run. by rewrite Hnone.
Qed.

Lemma serve_fresh reqs : forall w,
  NoDup reqs.*1 ->
  (forall ip, ip ∈ reqs.*1 -> rateLimitMap w !! ip = None) ->
  serve reqs w = replicate (length reqs) true.
Proof.
  induction reqs as [|[ip t] reqs IH]; intros w Hnd Hfresh; [done|].
  cbn [serve]. rewrite fmap_cons in Hnd, Hfresh. cbn [fst] in Hnd, Hfresh.
  apply NoDup_cons in Hnd as [Hnotin Hnd].
  pose proof (arrive_fresh ip t w (Hfresh ip (list_elem_of_here _ _))) as Hb.
  destruct (arrive ip t w) as [b w'] eqn:Harr. cbn [fst] in Hb. subst b.
  cbn [length replicate]. f_equal. apply IH; [done|].
  intros ip' Hin.
  assert (ip <> ip') as Hne by (intros ->; done).
  replace w' with (arrive ip t w).2 by (by rewrite Harr).
  rewrite arrive_other by done.
  apply Hfresh. by apply list_elem_of_further.
Qed.

End ClientAddress.

(** X8.  [getClientIp] never answers the empty string.  It answers the
    first comma-separated entry of X-Forwarded-For when that entry is not
    empty, whatever the socket address is; without such an entry the socket
    address when there is a non-empty one; and "unknown" otherwise. *)
Theorem getClientIp_spec (req : Request) :
  getClientIp req <> ""
  /\ (forall first rest,
         first <> "" -> string_forall not_comma first = true ->
         headers req !! "x-forwarded-for" = Some first
         \/ headers req !! "x-forwarded-for" = Some (first +:+ String "," rest) ->
         getClientIp req = first)
  /\ (forall rest address,
         headers req !! "x-forwarded-for" = None
         \/ headers req !! "x-forwarded-for" = Some (String "," rest)
         \/ headers req !! "x-forwarded-for" = Some "" ->
         (remoteAddress req = Some address /\ address <> ""
          -> getClientIp req = address)
         /\ (remoteAddress req = None \/ remoteAddress req = Some ""
             -> getClientIp req = "unknown")).
Proof.
  unfold getClientIp. split; [|split].
  - destruct (str_or _ _) as [s|] eqn:Hs; [|done]. simpl.
    apply (str_or_nonempty _ _ _ Hs). intros s' Hs'.
    apply (str_or_nonempty _ _ _ Hs'). by intros ? [= <-].
  - intros first rest Hne Hall Hxff.
    assert (before_comma <$> headers req !! "x-forwarded-for" = Some first)
      as ->.
    { destruct Hxff as [-> | ->]; simpl; f_equal.
      - by apply before_comma_whole.
      - by apply before_comma_first. }
    unfold str_or. apply String.eqb_neq in Hne. by rewrite Hne.
  - intros rest address Hxff.
    assert (forall b, str_or (before_comma <$> headers req !! "x-forwarded-for") b
                      = b) as Hskip.
    { intros b. by destruct Hxff as [-> |[-> | ->]]. }
    rewrite Hskip. split.
    + intros [-> Hne]. unfold str_or. apply String.eqb_neq in Hne.
      by rewrite Hne.
    + by intros [-> | ->].
Qed.

(** X9.  The limit is per address and the address is the one the client
    supplies: requests whose client addresses (as [getClientIp] reads them)
    are pairwise different and not yet in the limiter's map are all
    admitted, however many arrive and however close together. *)
Theorem limiter_admits_fresh_addresses (reqs : list (Request * Z)) (w : World) :
  NoDup (limiterKeys reqs).*1 ->
  (forall ip, ip ∈ (limiterKeys reqs).*1 -> rateLimitMap w !! ip = None) ->
  serve (limiterKeys reqs) w = replicate (length reqs) true.
Proof.
  intros Hnd Hfresh. rewrite (serve_fresh _ w Hnd Hfresh).
  unfold limiterKeys. by rewrite length_fmap.
Qed.

Lemma limiter_admits_fresh_addresses_witness :
  let reqs := [(forwardedRequest "10.0.0.1", 0); (forwardedRequest "10.0.0.2", 0);
               (forwardedRequest "10.0.0.3, 10.0.0.1", 1)] in
  (limiterKeys reqs).*1 = ["10.0.0.1"; "10.0.0.2"; "10.0.0.3"]
  /\ serve (limiterKeys reqs) world0 = [true; true; true].
Proof.
  intros reqs.
  assert ((limiterKeys reqs).*1 = ["10.0.0.1"; "10.0.0.2"; "10.0.0.3"]) as Hkeys
    by (vm_compute; reflexivity).
  split; [exact Hkeys|].
  apply (limiter_admits_fresh_addresses reqs world0).
  - rewrite Hkeys. apply (bool_decide_unpack _). vm_compute. exact I.
  - intros ip _. reflexivity.
Defined.

Section Cleanup.

Lemma foldl_delete_lookup (refs : list string) (c : Collection) id :
  foldl (fun c ref => delete ref c) c refs !! id
  = if decide (id ∈ refs) then None else c !! id.
Proof.
  revert c. induction refs as [|r refs IH]; intros c; cbn [foldl].
  - rewrite decide_False; [done|]. apply not_elem_of_nil.
  - rewrite IH. destruct (decide (id ∈ refs)) as [Hin|Hnin].
    + rewrite decide_True; [done|]. by apply list_elem_of_further.
    + destruct (decide (id = r)) as [->|Hne].
      * rewrite decide_True by apply list_elem_of_here.
        apply lookup_delete_eq.
      * rewrite decide_False.
        { by apply lookup_delete_ne. }
        intros [?|?]%elem_of_cons; done.
Qed.

Lemma query_refs_elem p (c : Collection) id :
  id ∈ query_refs p c <-> exists d, c !! id = Some d /\ p d = true.
Proof.
  unfold query_refs. rewrite list_elem_of_fmap. split.
  - intros ([id' d] & -> & Hin). apply list_elem_of_filter in Hin as [Hp Hin].
    apply elem_of_map_to_list in Hin. by exists d.
  - intros (d & Hd & Hp). exists (id, d). split; [done|].
    apply list_elem_of_filter. split; [done|]. by apply elem_of_map_to_list.
Qed.

Lemma for_each_deleteBatch bs w :
  for_each bs deleteBatch w
  = (Ok tt, with_deals (fun c => foldl (fun c ref => delete ref c) c (concat bs)) w).
Proof.
  revert w. induction bs as [|b bs IH]; intros w; cbn [for_each concat].
  - by destruct w.
  - unfold deleteBatch at 1. run. rewrite IH. f_equal.
    unfold with_deals; simpl. by rewrite foldl_app.
Qed.

Lemma cleanOldDeals_run w :
  cleanOldDeals w
  = (Ok tt,
     with_deals
       (fun c => foldl (fun c ref => delete ref c) c
                   (query_refs (olderThan (clock w - DAY_MS)) (deals w))) w).
Proof.
  unfold cleanOldDeals. run.
  destruct (query_refs _ _) as [|r refs] eqn:Hq.
  - simpl. by destruct w.
  - change (length (r :: refs) =? 0)%nat with false; cbv iota.
    rewrite for_each_deleteBatch.
    unfold batches. by rewrite (batches_aux_concat _ 449).
Qed.

Lemma cleanOldDeals_deals w id :
  deals (cleanOldDeals w).2 !! id
  = d ← deals w !! id; if keptAt (clock w) d then Some d else None.
Proof.
  rewrite cleanOldDeals_run. cbn [snd with_deals deals].
  rewrite foldl_delete_lookup.
  destruct (decide _) as [Hin|Hnin].
  - apply query_refs_elem in Hin as (d & -> & Hold). simpl.
    unfold keptAt. by rewrite Hold.
  - destruct (deals w !! id) as [d|] eqn:Hd; [|done]. simpl.
    unfold keptAt. destruct (olderThan _ d) eqn:Hold; [|done].
    exfalso. apply Hnin, query_refs_elem. by exists d.
Qed.

Lemma cleanOldDeals_filter w :
  deals (cleanOldDeals w).2
  = filter (fun kd => keptAt (clock w) kd.2 = true) (deals w).
Proof.
  apply map_eq. intros id. rewrite cleanOldDeals_deals.
  rewrite map_lookup_filter. destruct (deals w !! id) as [d|]; [|done].
  simpl. destruct (keptAt (clock w) d) eqn:Hk.
  - by rewrite option_guard_True.
  - rewrite option_guard_False; [done|]. simpl. congruence.
Qed.

End Cleanup.

(** X10.  [cleanOldDeals] always completes.  It removes from the deals
    collection exactly the documents whose lastUpdated is a Timestamp more
    than 24 hours before the current time (a document with no Timestamp
    there is never removed, nor one exactly 24 hours old), in as many
    batches as it takes, and touches nothing else in the world. *)
Theorem cleanOldDeals_spec (w : World) :
  let w' := (cleanOldDeals w).2 in
  (cleanOldDeals w).1 = Ok tt
  /\ deals w' = filter (fun kd => keptAt (clock w) kd.2 = true) (deals w)
  /\ (forall d, keptAt (clock w) d = true <->
                forall t, d !! "lastUpdated" = Some (JTime t) ->
                          clock w - 86400000 <= t)
  /\ prices w' = prices w /\ push_tokens w' = push_tokens w
  /\ rateLimitMap w' = rateLimitMap w /\ clock w' = clock w
  /\ rolls w' = rolls w /\ events w' = events w.
Proof.
  cbv zeta. split; [by rewrite cleanOldDeals_run|].
  split; [apply cleanOldDeals_filter|].
  split.
  { intros d. unfold keptAt, olderThan, field, DAY_MS.
    destruct (d !! "lastUpdated") as [v|]; simpl.
    - destruct v; simpl; try (split; [by intros _ ? [=]|done]).
      rewrite negb_true_iff, Z.ltb_ge. split.
      + by intros H t [= <-].
      + intros H. by apply H.
    - split; [by intros _ ? [=]|done]. }
  by rewrite cleanOldDeals_run.
Qed.

Section PriceRun.

Variable env : Env.

Lemma generateSimulatedPrice_stamp set retailer w :
  exists p n, generateSimulatedPrice env set retailer w
              = (Ok p, with_rolls (fun _ => n) w)
              /\ lastUpdated p = clock w.
Proof.
  destruct w. unfold generateSimulatedPrice, random, with_rolls. run.
  destruct (String.eqb retailer "lego"); simpl;
    repeat match goal with
           | |- context [if ?b then _ else _] => destruct b; simpl
           end;
    by do 2 eexists.
Qed.

Lemma dealDoc_stamp (d0 : Doc) (d : DealData) :
  field (foldl merge_field d0 (dealFields d)) "lastUpdated"
  = JTime (lastUpdated d).
Proof.
  unfold dealFields, priceFields; simpl.
  repeat (rewrite field_merge_field_ne by done).
  by apply field_merge_atom.
Qed.

Lemma deriveAndPersist_clock p w :
  clock (deriveAndPersist env p w).2 = clock w.
Proof.
  destruct (deriveDeal p) as [d|] eqn:Hd.
  - by destruct (deriveAndPersist_deals env p d w Hd) as (r & evs & ->).
  - unfold deriveAndPersist. by rewrite Hd.
Qed.

Lemma stamped_refl t0 t1 c : stamped t0 t1 c c.
Proof. intros id d Hd. by left. Qed.

Lemma stamped_trans t0 t1 t2 c0 c1 c2 :
  t0 <= t1 <= t2 ->
  stamped t0 t1 c0 c1 -> stamped t1 t2 c1 c2 -> stamped t0 t2 c0 c2.
Proof.
  intros Ht H1 H2 id d Hd. destruct (H2 id d Hd) as [Hd1|(t & Hf & Hr)].
  - destruct (H1 id d Hd1) as [?|(t & Hf & Hr)]; [by left|].
    right. exists t. split; [done|lia].
  - right. exists t. split; [done|lia].
Qed.

Lemma processPair_step set retailer w found w' :
  processPair env set retailer w = (Ok found, w') ->
  clock w' = clock w + 50
  /\ stamped (clock w) (clock w') (deals w) (deals w').
Proof.
  intros Hrun.
  destruct (generateSimulatedPrice_stamp set retailer w) as (p & n & Hg & Hstamp).
  assert ((generateSimulatedPrice env set retailer w).1 = Ok p) as Hp
    by (by rewrite Hg).
  pose proof (processPair_stores env set retailer w p Hp) as [_ Hdeals].
  rewrite Hrun in Hdeals. cbn [snd] in Hdeals.
  assert (clock w' = clock w + 50) as Hclock.
  { revert Hrun. unfold processPair. run. rewrite Hg.
    unfold savePriceToFirestore. run.
    match goal with |- context [deriveAndPersist env p ?w1] =>
      pose proof (deriveAndPersist_clock p w1) as Hw;
      destruct (deriveAndPersist env p w1) as [[b|e] w2]
    end; [|done].
    cbn [snd] in Hw. intros [= _ <-]. simpl. by rewrite Hw. }
  split; [exact Hclock|].
  intros id d Hd. rewrite Hdeals in Hd.
  destruct (deriveDeal p) as [deal|] eqn:Hdeal; [|by left].
  destruct (decide (id = docId deal)) as [->|Hne].
  - rewrite set_merge_lookup in Hd. apply (inj Some) in Hd. subst d.
    right. exists (clock w). split; [|lia].
    rewrite dealDoc_stamp.
    apply deriveDeal_Some in Hdeal as (Hprice & _). by rewrite Hprice, Hstamp.
  - left. unfold set_merge in Hd. by rewrite lookup_insert_ne in Hd.
Qed.

Lemma forRetailers_step set rs : forall k w n w',
  forRetailers env set rs k w = (Ok n, w') ->
  clock w' = clock w + 50 * Z.of_nat (length rs)
  /\ stamped (clock w) (clock w') (deals w) (deals w').
Proof.
  induction rs as [|r rs IH]; intros k w n w' Hrun; cbn [forRetailers] in Hrun.
  - injection Hrun as _ <-. split; [simpl; lia|apply stamped_refl].
  - revert Hrun. unfold mbind, M_bind.
    destruct (processPair env set r w) as [[found|e] w1] eqn:Hpair; [|done].
    intros Hrest. apply processPair_step in Hpair as [Hc1 Hs1].
    apply IH in Hrest as [Hc2 Hs2]. split.
    + rewrite Hc2, Hc1. cbn [length]. lia.
    + apply (stamped_trans _ (clock w1) _ _ (deals w1)); [lia|done..].
Qed.

Lemma forSets_step sets : forall k w n w',
  forSets env sets k w = (Ok n, w') ->
  clock w' = clock w + 600 * Z.of_nat (length sets)
  /\ stamped (clock w) (clock w') (deals w) (deals w').
Proof.
  induction sets as [|set sets IH]; intros k w n w' Hrun; cbn [forSets] in Hrun.
  - injection Hrun as _ <-. split; [simpl; lia|apply stamped_refl].
  - revert Hrun. unfold mbind, M_bind.
    destruct (forRetailers env set retailers k w) as [[m|e] w1] eqn:Hset; [|done].
    intros Hrest. apply forRetailers_step in Hset as [Hc1 Hs1].
    apply IH in Hrest as [Hc2 Hs2].
    change (Z.of_nat (length retailers)) with 12 in Hc1. split.
    + rewrite Hc2, Hc1. cbn [length]. lia.
    + apply (stamped_trans _ (clock w1) _ _ (deals w1)); [lia|done..].
Qed.

Lemma updatePricesLoop_step sets w n w1 :
  updatePricesLoop env sets w = (Ok n, w1) ->
  clock w1 = clock w + 600 * Z.of_nat (min 100 (length sets))
  /\ stamped (clock w) (clock w1) (deals w) (deals w1).
Proof.
  unfold updatePricesLoop, slice0. intros Hrun.
  apply forSets_step in Hrun. by rewrite length_take in Hrun.
Qed.

End PriceRun.



Section PreferenceUpdates.

Variable env : Env.

Lemma update_fields_lookup_ne (d : Doc) data k :
  k ∉ data.*1 -> update_fields d data !! k = d !! k.
Proof.
  unfold update_fields. revert d.
  induction data as [|[k' v] data IH]; intros d Hk; [done|].
  cbn [foldl fst snd]. rewrite fmap_cons in Hk. cbn [fst] in Hk.
  apply not_elem_of_cons in Hk as [Hne Hk].
  rewrite IH by done. by rewrite lookup_insert_ne.
Qed.

Lemma update_fields_lookup (d : Doc) data k v :
  assoc k (reverse data) = Some v -> update_fields d data !! k = Some v.
Proof.
  unfold update_fields. revert d.
  induction data as [|[k' v'] data IH] using rev_ind; intros d; [done|].
  rewrite reverse_app, reverse_singleton, foldl_app.
  cbn [foldl app assoc fst snd].
  destruct (String.eqb k k') eqn:Hk.
  - apply String.eqb_eq in Hk. subst k'. intros [= ->].
    by rewrite lookup_insert_eq.
  - apply String.eqb_neq in Hk. intros Hv.
    rewrite lookup_insert_ne by done. by apply IH.
Qed.

Lemma updateNotificationPreferences_run req w :
  method req = "POST" ->
  admitted req w ->
  let cors := setCorsHeaders env req in
  let w1 := afterRateLimit req w in
  updateNotificationPreferences env req w
  = match js_get (body req) "token" with
    | JStr token =>
        if isValidExpoPushToken (JStr token) then
          let w2 := append_events [RegistryGet token] w1 in
          match push_tokens w !! token with
          | None => (Ok (safeErrorResponse cors 404 "Token not found"), w2)
          | Some d =>
              (Ok (jsonResponse cors (json_ok "Preferences updated successfully")),
               with_push_tokens
                 <[token := update_fields d
                              (preferenceUpdates (js_get (body req) "preferences")
                                                 (clock w))]> w2)
          end
        else (Ok (safeErrorResponse cors 400 "Invalid push token format"), w1)
    | _ => (Ok (safeErrorResponse cors 400 "Invalid push token format"), w1)
    end.
Proof.
  intros Hm Hadm cors w1. unfold updateNotificationPreferences, admitted in *.
  rewrite Hm. cbn [String.eqb Ascii.eqb Bool.eqb negb]. run.
  subst w1. unfold afterRateLimit.
  destruct (checkRateLimit_world (getClientIp req) w) as [m Hw1].
  destruct (checkRateLimit (getClientIp req) w) as [r w1]; simpl in *.
  subst r w1. simpl.
  destruct (js_get (body req) "token"); try done.
  unfold isValidExpoPushToken.
  destruct (negb (s =? "")%string && Regex.test Regex.expo_token_re s);
    simpl; [|done].
  unfold updatePushToken. run.
  destruct (push_tokens w !! s) eqn:Hd; simpl; rewrite ?Hd; done.
Qed.

Lemma update_fields_app (d : Doc) a b :
  update_fields d (a ++ b) = update_fields (update_fields d a) b.
Proof. unfold update_fields. apply foldl_app. Qed.

Lemma update_fields_entry (d : Doc) k o k' :
  update_fields d (entry k o) !! k'
  = if decide (k' = k) then from_option Some (d !! k') o else d !! k'.
Proof.
  unfold update_fields, entry. destruct o as [v|]; cbn [foldl fst snd].
  - destruct (decide (k' = k)) as [->|Hne].
    + by rewrite lookup_insert_eq.
    + by rewrite lookup_insert_ne.
  - by destruct (decide (k' = k)).
Qed.

Lemma preferenceUpdates_entries preferences now :
  preferenceUpdates preferences now
  = entry "lastUpdated" (Some (JTime now))
    ++ entry "notificationsEnabled" (givenEnabled preferences)
    ++ entry "minDiscountThreshold" (givenThreshold preferences)
    ++ entry "watchedThemes" (givenThemes preferences)
    ++ entry "watchedSets" (givenSets preferences).
Proof.
  unfold preferenceUpdates, givenEnabled, givenThreshold, givenThemes,
    givenSets.
  f_equal. f_equal; [by destruct (js_get preferences "notificationsEnabled")|].
  f_equal; [by destruct (js_get preferences "minDiscountThreshold")|].
  f_equal; [by destruct (js_get preferences "watchedThemes")|].
  by destruct (js_get preferences "watchedSets").
Qed.

Lemma preferenceUpdates_lookup (d : Doc) preferences now k :
  update_fields d (preferenceUpdates preferences now) !! k
  = if decide (k = "watchedSets") then
      from_option Some (d !! k) (givenSets preferences)
    else if decide (k = "watchedThemes") then
      from_option Some (d !! k) (givenThemes preferences)
    else if decide (k = "minDiscountThreshold") then
      from_option Some (d !! k) (givenThreshold preferences)
    else if decide (k = "notificationsEnabled") then
      from_option Some (d !! k) (givenEnabled preferences)
    else if decide (k = "lastUpdated") then Some (JTime now)
    else d !! k.
Proof.
  rewrite preferenceUpdates_entries, !update_fields_app.
  rewrite !update_fields_entry.
  repeat (destruct (decide _) as [->|?]; [by repeat case_decide|]).
  done.
Qed.

End PreferenceUpdates.

(** X12.  A preference update for a registered token changes only what the
    request gives in a usable form: the enabled flag becomes
    [Boolean(value)] unless it is undefined, the threshold is clamped to
    0..100 when it is a number, the watched lists are truncated (sets also
    filtered) when they are arrays; every preference the request leaves out
    or gives in another form keeps its stored value (it is not reset to a
    default, unlike a second registration).  lastUpdated is set to the
    current time; token, platform and any other field of the record, and all
    other records, stay as they are. *)
Theorem updateNotificationPreferences_partial env (req : Request) (w : World)
    (token : string) (d : Doc) :
  method req = "POST" ->
  admitted req w ->
  js_get (body req) "token" = JStr token ->
  isValidExpoPushToken (JStr token) = true ->
  push_tokens w !! token = Some d ->
  let preferences := js_get (body req) "preferences" in
  let w' := (updateNotificationPreferences env req w).2 in
  statusOf (updateNotificationPreferences env req w) = Some 200
  /\ (exists d',
        push_tokens w' !! token = Some d'
        /\ d' !! "lastUpdated" = Some (JTime (clock w))
        /\ d' !! "notificationsEnabled"
           = from_option Some (d !! "notificationsEnabled")
               (givenEnabled preferences)
        /\ d' !! "minDiscountThreshold"
           = from_option Some (d !! "minDiscountThreshold")
               (givenThreshold preferences)
        /\ d' !! "watchedThemes"
           = from_option Some (d !! "watchedThemes") (givenThemes preferences)
        /\ d' !! "watchedSets"
           = from_option Some (d !! "watchedSets") (givenSets preferences)
        /\ forall k, k ∉ ["lastUpdated"; "notificationsEnabled";
                          "minDiscountThreshold"; "watchedThemes";
                          "watchedSets"] -> d' !! k = d !! k)
  /\ forall id, id <> token -> push_tokens w' !! id = push_tokens w !! id.
Proof.
  intros Hm Hadm Htok Hvalid Hd preferences w'. subst w'.
  rewrite (updateNotificationPreferences_run env req w Hm Hadm).
  rewrite Htok, Hvalid. cbv zeta. rewrite Hd.
  split; [done|]. cbn [snd with_push_tokens push_tokens]. split.
  - eexists. split; [apply lookup_insert_eq|].
    rewrite !preferenceUpdates_lookup.
    repeat (split; [by repeat case_decide|]).
    intros k Hk. repeat (apply not_elem_of_cons in Hk as [? Hk]).
    rewrite preferenceUpdates_lookup. by repeat case_decide.
  - intros id Hne. rewrite lookup_insert_ne by done.
    unfold append_events; cbn [push_tokens].
    by destruct (afterRateLimit_stores req w) as (-> & _).
Qed.

Lemma updateNotificationPreferences_partial_witness :
  let req := {| method := "POST"; headers := ∅;
                remoteAddress := Some "203.0.113.7";
                body := JObj [("token", JStr "ExponentPushToken[abc123]");
                              ("preferences",
                               JObj [("minDiscountThreshold", JNum #250%js);
                                     ("watchedThemes", JStr "City")])] |} in
  let w := registry [("ExponentPushToken[abc123]", tunedSubscriber)] in
  exists d',
    push_tokens (updateNotificationPreferences devEnv req w).2
      !! "ExponentPushToken[abc123]" = Some d'
    /\ d' !! "minDiscountThreshold" = Some (JNum #100%js)
    /\ d' !! "watchedThemes" = tunedSubscriber !! "watchedThemes"
    /\ d' !! "watchedSets" = tunedSubscriber !! "watchedSets"
    /\ d' !! "notificationsEnabled" = tunedSubscriber !! "notificationsEnabled".
Proof.
  intros req w.
  assert (admitted req w) as Hadm by reflexivity.
  assert (push_tokens w !! "ExponentPushToken[abc123]" = Some tunedSubscriber)
    as Hd by apply lookup_insert_eq.
  pose proof (updateNotificationPreferences_partial devEnv req w
                "ExponentPushToken[abc123]" tunedSubscriber
                eq_refl Hadm eq_refl eq_refl Hd) as H.
  destruct H as (_ & (d' & Hd' & _ & Hen & Hthr & Hthemes & Hsets & _) & _).
  exists d'. split; [exact Hd'|]. split; [|split; [|split]].
  - rewrite Hthr. vm_compute. reflexivity.
  - exact Hthemes.
  - exact Hsets.
  - exact Hen.
Defined.

Section RegistryEndpoints.

Variable env : Env.

Lemma with_rateLimitMap_same w :
  append_events [] (with_rateLimitMap (fun _ => rateLimitMap w) w) = w.
Proof. destruct w. unfold append_events; simpl. by rewrite app_nil_r. Qed.

(** Every run of [updateNotificationPreferences] ends in a world that
    differs from the first in the limiter's map, in at most one logged
    registry read and in at most the named record, which was there. *)
Lemma updateNotificationPreferences_world req w :
  exists m evs,
    let w1 := append_events evs (with_rateLimitMap (fun _ => m) w) in
    gatewayCalls evs = []
    /\ ((updateNotificationPreferences env req w).2 = w1
        \/ exists token d data,
             js_get (body req) "token" = JStr token
             /\ push_tokens w !! token = Some d
             /\ (updateNotificationPreferences env req w).2
                = with_push_tokens <[token := update_fields d data]> w1).
Proof.
  remember (updateNotificationPreferences env req w) as r eqn:Hr.
  unfold updateNotificationPreferences in Hr.
  destruct (String.eqb (method req) "OPTIONS").
  { exists (rateLimitMap w), []. split; [done|]. left. subst r.
    by rewrite with_rateLimitMap_same. }
  destruct (negb (String.eqb (method req) "POST")).
  { exists (rateLimitMap w), []. split; [done|]. left. subst r.
    by rewrite with_rateLimitMap_same. }
  unfold mbind at 1, M_bind at 1 in Hr.
  destruct (checkRateLimit_world (getClientIp req) w) as [m Hw1].
  destruct (checkRateLimit (getClientIp req) w) as [[[]|e] w1];
    cbn [snd] in Hw1; subst w1.
  2,3: exists m, []; split; [done|]; left; subst r; cbn [snd negb mret M_ret];
       by rewrite append_events_nil.
  cbn [negb] in Hr. unfold try_catch in Hr.
  destruct (js_get (body req) "token") as [| | | |token| | |] eqn:Htok.
  1-4,6-8: exists m, []; split; [done|]; left; subst r; cbn [snd mret M_ret];
           by rewrite append_events_nil.
  destruct (negb (isValidExpoPushToken (JStr token))).
  { exists m, []. split; [done|]. left. subst r. cbn [snd mret M_ret].
    by rewrite append_events_nil. }
  exists m, [RegistryGet token]. split; [done|].
  unfold updatePushToken in Hr. run.
  destruct (push_tokens w !! token) as [d|] eqn:Hd; simpl in Hr;
    rewrite ?Hd in Hr; simpl in Hr; subst r.
  - right. by exists token, d, (preferenceUpdates
                               (js_get (body req) "preferences") (clock w)).
  - by left.
Qed.

Lemma unregisterPushToken_run req w :
  method req = "POST" ->
  admitted req w ->
  let cors := setCorsHeaders env req in
  let w1 := afterRateLimit req w in
  unregisterPushToken env req w
  = match js_get (body req) "token" with
    | JStr token =>
        if isValidExpoPushToken (JStr token) then
          (Ok (jsonResponse cors
                 (json_ok "Push token unregistered successfully")),
           with_push_tokens (delete token) w1)
        else (Ok (safeErrorResponse cors 400 "Invalid push token format"), w1)
    | _ => (Ok (safeErrorResponse cors 400 "Invalid push token format"), w1)
    end.
Proof.
  intros Hm Hadm cors w1. unfold unregisterPushToken, admitted in *.
  rewrite Hm. cbn [String.eqb Ascii.eqb Bool.eqb negb]. run.
  subst w1. unfold afterRateLimit.
  destruct (checkRateLimit (getClientIp req) w) as [r w1]; simpl in *.
  subst r. simpl.
  destruct (js_get (body req) "token"); try done.
  unfold isValidExpoPushToken.
  by destruct (negb (s =? "")%string && Regex.test Regex.expo_token_re s).
Qed.

Lemma unregisterPushToken_world req w :
  exists m,
    let w1 := with_rateLimitMap (fun _ => m) w in
    (unregisterPushToken env req w).2 = w1
    \/ exists token,
         js_get (body req) "token" = JStr token
         /\ (unregisterPushToken env req w).2
            = with_push_tokens (delete token) w1.
Proof.
  remember (unregisterPushToken env req w) as r eqn:Hr.
  unfold unregisterPushToken in Hr.
  assert (with_rateLimitMap (fun _ => rateLimitMap w) w = w) as Hsame
    by (by destruct w).
  destruct (String.eqb (method req) "OPTIONS").
  { exists (rateLimitMap w). left. subst r. by rewrite Hsame. }
  destruct (negb (String.eqb (method req) "POST")).
  { exists (rateLimitMap w). left. subst r. by rewrite Hsame. }
  unfold mbind at 1, M_bind at 1 in Hr.
  destruct (checkRateLimit_world (getClientIp req) w) as [m Hw1].
  destruct (checkRateLimit (getClientIp req) w) as [[[]|e] w1];
    cbn [snd] in Hw1; subst w1.
  2,3: by exists m; left; subst r.
  cbn [negb] in Hr. unfold try_catch in Hr. exists m.
  destruct (js_get (body req) "token") as [| | | |token| | |] eqn:Htok.
  1-4,6-8: by left; subst r.
  destruct (negb (isValidExpoPushToken (JStr token))); [by left; subst r|].
  right. exists token. by subst r.
Qed.

End RegistryEndpoints.

(** X13.  Whatever the request, [updateNotificationPreferences] never
    creates and never deletes a subscriber record, changes no record other
    than the one the request names, leaves prices and deals alone and calls
    the push gateway for nothing; for a well-formed token that is not
    registered an admitted POST is answered 404. *)
Theorem updateNotificationPreferences_frame env (req : Request) (w : World) :
  let w' := (updateNotificationPreferences env req w).2 in
  (forall id, is_Some (push_tokens w' !! id) <-> is_Some (push_tokens w !! id))
  /\ (forall id, js_get (body req) "token" <> JStr id ->
                 push_tokens w' !! id = push_tokens w !! id)
  /\ prices w' = prices w /\ deals w' = deals w
  /\ gatewayCalls (events w') = gatewayCalls (events w)
  /\ (forall token,
        method req = "POST" /\ admitted req w
        /\ js_get (body req) "token" = JStr token
        /\ isValidExpoPushToken (JStr token) = true
        /\ push_tokens w !! token = None ->
        statusOf (updateNotificationPreferences env req w) = Some 404
        /\ push_tokens w' = push_tokens w).
Proof.
  cbv zeta.
  destruct (updateNotificationPreferences_world env req w)
    as (m & evs & Hcalls & Hw').
  cbv zeta in Hw'.
  assert (forall w0, gatewayCalls (events (append_events evs w0))
                     = gatewayCalls (events w0)) as Hev.
  { intros w0. unfold append_events; cbn [events].
    unfold gatewayCalls in *. by rewrite filter_app, Hcalls, app_nil_r. }
  split; [|split; [|split; [|split; [|split]]]].
  - intros id. destruct Hw' as [-> | (token & d & data & _ & Hd & ->)]; [done|].
    cbn [with_push_tokens push_tokens append_events with_rateLimitMap].
    destruct (decide (id = token)) as [->|Hne].
    + rewrite lookup_insert_eq, Hd. split; by eauto.
    + by rewrite lookup_insert_ne.
  - intros id Hid. destruct Hw' as [-> | (token & d & data & Htok & Hd & ->)];
      [done|].
    cbn [with_push_tokens push_tokens append_events with_rateLimitMap].
    rewrite lookup_insert_ne; [done|]. intros ->. by apply Hid.
  - by destruct Hw' as [-> | (token & d & data & _ & _ & ->)].
  - by destruct Hw' as [-> | (token & d & data & _ & _ & ->)].
  - destruct Hw' as [-> | (token & d & data & _ & _ & ->)];
      apply (Hev (with_rateLimitMap (fun _ => m) w)).
  - intros token (Hm & Hadm & Htok & Hvalid & Hnone).
    rewrite (updateNotificationPreferences_run env req w Hm Hadm).
    rewrite Htok, Hvalid. cbv zeta. rewrite Hnone. split; [done|].
    cbn [snd]. unfold append_events; cbn [push_tokens].
    by destruct (afterRateLimit_stores req w) as (-> & _).
Qed.

(** X14.  An admitted POST to [unregisterPushToken] with a well-formed token
    is answered 200 and leaves the registry without that token, whether it
    was registered or not (so a repeated call succeeds again); no other
    record changes.  Whatever the request, the endpoint never adds or
    changes a record, and leaves prices, deals and the event log alone. *)
Theorem unregisterPushToken_spec env (req : Request) (w : World) :
  let w' := (unregisterPushToken env req w).2 in
  (forall token,
     method req = "POST" /\ admitted req w
     /\ js_get (body req) "token" = JStr token
     /\ isValidExpoPushToken (JStr token) = true ->
     statusOf (unregisterPushToken env req w) = Some 200
     /\ push_tokens w' = delete token (push_tokens w))
  /\ (forall id d, push_tokens w' !! id = Some d -> push_tokens w !! id = Some d)
  /\ (forall id, js_get (body req) "token" <> JStr id ->
                 push_tokens w' !! id = push_tokens w !! id)
  /\ prices w' = prices w /\ deals w' = deals w /\ events w' = events w.
Proof.
  cbv zeta. split.
  { intros token (Hm & Hadm & Htok & Hvalid).
    rewrite (unregisterPushToken_run env req w Hm Hadm), Htok, Hvalid.
    split; [done|]. cbn [snd with_push_tokens push_tokens].
    by destruct (afterRateLimit_stores req w) as (-> & _). }
  destruct (unregisterPushToken_world env req w) as (m & Hw').
  cbv zeta in Hw'.
  split; [|split; [|split; [|split]]].
  - intros id d. destruct Hw' as [-> | (token & _ & ->)]; [done|].
    cbn [with_push_tokens push_tokens with_rateLimitMap].
    by intros [_ ?]%lookup_delete_Some.
  - intros id Hid. destruct Hw' as [-> | (token & Htok & ->)]; [done|].
    cbn [with_push_tokens push_tokens with_rateLimitMap].
    apply lookup_delete_ne. intros ->. by apply Hid.
  - by destruct Hw' as [-> | (token & _ & ->)].
  - by destruct Hw' as [-> | (token & _ & ->)].
  - by destruct Hw' as [-> | (token & _ & ->)].
Qed.

(** X15.  Registering a token and then unregistering it leaves the registry
    as it was without that token: exactly as it was when the token was not
    registered before, and with the earlier record gone (not restored) when
    it was. *)
Theorem register_then_unregister env (reqR reqU : Request) (w : World)
    (token : string) :
  method reqR = "POST" -> admitted reqR w ->
  js_get (body reqR) "token" = JStr token ->
  method reqU = "POST" -> admitted reqU (registerPushToken env reqR w).2 ->
  js_get (body reqU) "token" = JStr token ->
  isValidExpoPushToken (JStr token) = true ->
  let w1 := (registerPushToken env reqR w).2 in
  let w2 := (unregisterPushToken env reqU w1).2 in
  is_Some (push_tokens w1 !! token)
  /\ push_tokens w2 = delete token (push_tokens w)
  /\ (push_tokens w !! token = None -> push_tokens w2 = push_tokens w).
Proof.
  intros HmR HadmR HtokR HmU HadmU HtokU Hvalid w1 w2.
  assert (push_tokens w1
          = set_merge token
              (pushTokenFields
                 (tokenData token (js_get (body reqR) "platform")
                    (js_get (body reqR) "preferences") (clock w)))
              (push_tokens w)) as Hw1.
  { subst w1. rewrite (registerPushToken_run env reqR w HmR HadmR).
    rewrite HtokR, Hvalid. cbn [snd with_push_tokens push_tokens].
    by destruct (afterRateLimit_stores reqR w) as (-> & _ & ->). }
  assert (push_tokens w2 = delete token (push_tokens w1)) as Hw2.
  { subst w2.
    rewrite (unregisterPushToken_run env reqU w1 HmU HadmU), HtokU, Hvalid.
    cbn [snd with_push_tokens push_tokens].
    by destruct (afterRateLimit_stores reqU w1) as (-> & _). }
  assert (push_tokens w2 = delete token (push_tokens w)) as Hround.
  { rewrite Hw2, Hw1. unfold set_merge. apply delete_insert_eq. }
  split; [|split; [exact Hround|]].
  - rewrite Hw1, set_merge_lookup. by eexists.
  - intros Hnone. rewrite Hround. by apply delete_id.
Qed.

Lemma register_then_unregister_witness :
  let reqR := registerRequest (JStr "ExponentPushToken[abc123]") JUndefined in
  let w1 := (registerPushToken devEnv reqR world0).2 in
  is_Some (push_tokens w1 !! "ExponentPushToken[abc123]")
  /\ push_tokens (unregisterPushToken devEnv reqR w1).2 = push_tokens world0.
Proof.
  intros reqR w1.
  assert (admitted reqR world0) as HadmR by reflexivity.
  assert (admitted reqR w1) as HadmU by (vm_compute; reflexivity).
  pose proof (register_then_unregister devEnv reqR reqR world0
                "ExponentPushToken[abc123]"
                eq_refl HadmR eq_refl eq_refl HadmU eq_refl eq_refl)
    as (Hreg & _ & Hback).
  split; [exact Hreg|]. apply Hback. reflexivity.
Defined.

Section TestNotification.

Variable env : Env.

(** The one message [sendTestNotification] posts for [token]. *)
Lemma testPost_batches token :
  posts env (batches 100 (pushMessage testNotification <$> [JStr token]))
  = [GatewayPost [pushMessage testNotification (JStr token)]
       (push_gateway env [pushMessage testNotification (JStr token)])].
Proof. reflexivity. Qed.

Lemma sendTestNotification_world req w :
  exists m evs,
    (sendTestNotification env req w).2
    = append_events evs (with_rateLimitMap (fun _ => m) w)
    /\ (gatewayCalls evs = []
        \/ exists token,
             js_get (body req) "token" = JStr token
             /\ isValidExpoPushToken (JStr token) = true
             /\ is_Some (push_tokens w !! token)
             /\ gatewayCalls evs
                = [GatewayPost [pushMessage testNotification (JStr token)]
                     (push_gateway env
                        [pushMessage testNotification (JStr token)])]).
Proof.
  remember (sendTestNotification env req w) as r eqn:Hr.
  unfold sendTestNotification in Hr.
  destruct (String.eqb (method req) "OPTIONS").
  { exists (rateLimitMap w), []. subst r.
    split; [by rewrite with_rateLimitMap_same|by left]. }
  destruct (negb (String.eqb (method req) "POST")).
  { exists (rateLimitMap w), []. subst r.
    split; [by rewrite with_rateLimitMap_same|by left]. }
  unfold mbind at 1, M_bind at 1 in Hr.
  destruct (checkRateLimit_world (getClientIp req) w) as [m Hw1].
  destruct (checkRateLimit (getClientIp req) w) as [[[]|e] w1];
    cbn [snd] in Hw1; subst w1.
  2,3: exists m, []; subst r; cbn [snd negb mret M_ret];
       split; [by rewrite append_events_nil|by left].
  cbn [negb] in Hr. unfold try_catch in Hr.
  destruct (js_get (body req) "token") as [| | | |token| | |] eqn:Htok.
  1-4,6-8: exists m, []; subst r; cbn [snd mret M_ret];
           split; [by rewrite append_events_nil|by left].
  destruct (isValidExpoPushToken (JStr token)) eqn:Hvalid; cbn [negb] in Hr.
  2: { exists m, []. subst r. cbn [snd mret M_ret].
       split; [by rewrite append_events_nil|by left]. }
  unfold mbind, M_bind, emit, modify, get_world in Hr.
  cbn [with_events push_tokens with_rateLimitMap] in Hr.
  destruct (push_tokens w !! token) as [d|] eqn:Hd.
  - rewrite sendExpoPushNotification_run, testPost_batches in Hr.
    cbn [mret M_ret] in Hr. subst r. cbn [snd].
    exists m, [RegistryGet token;
               GatewayPost [pushMessage testNotification (JStr token)]
                 (push_gateway env
                    [pushMessage testNotification (JStr token)])].
    split.
    + unfold append_events, with_events, with_rateLimitMap; simpl.
      by rewrite <- app_assoc.
    + right. exists token. by eauto.
  - exists m, [RegistryGet token]. subst r. cbn [snd mret M_ret].
    split; [done|by left].
Qed.

Lemma sendTestNotification_run req w token :
  method req = "POST" ->
  admitted req w ->
  js_get (body req) "token" = JStr token ->
  isValidExpoPushToken (JStr token) = true ->
  statusOf (sendTestNotification env req w)
  = Some (match push_tokens w !! token with Some _ => 200 | None => 404 end).
Proof.
  intros Hm Hadm Htok Hvalid. unfold sendTestNotification, admitted in *.
  rewrite Hm. cbn [String.eqb Ascii.eqb Bool.eqb negb].
  unfold mbind at 1, M_bind at 1.
  destruct (checkRateLimit_world (getClientIp req) w) as [m Hw1].
  destruct (checkRateLimit (getClientIp req) w) as [r w1].
  cbn [fst snd] in *. subst r w1. cbn [negb]. unfold try_catch.
  rewrite Htok, Hvalid. cbn [negb].
  unfold mbind, M_bind, emit, modify, get_world.
  cbn [with_events push_tokens with_rateLimitMap].
  destruct (push_tokens w !! token) as [d|]; [|done].
  by rewrite sendExpoPushNotification_run.
Qed.

End TestNotification.

(** X16.  Whatever the request, [sendTestNotification] changes no stored
    record and posts to the push gateway at most once; when it posts, it is
    one message, the fixed test notification, addressed to the well-formed
    token the request names, and that token is registered.  An admitted POST
    with a well-formed token is answered 404 when the token is not
    registered and 200 when it is, whatever the gateway answered to the
    push. *)
Theorem sendTestNotification_effects env (req : Request) (w : World) :
  let w' := (sendTestNotification env req w).2 in
  push_tokens w' = push_tokens w /\ prices w' = prices w /\ deals w' = deals w
  /\ (exists calls,
        gatewayCalls (events w') = gatewayCalls (events w) ++ calls
        /\ (calls = []
            \/ exists token,
                 js_get (body req) "token" = JStr token
                 /\ isValidExpoPushToken (JStr token) = true
                 /\ is_Some (push_tokens w !! token)
                 /\ calls
                    = [GatewayPost [pushMessage testNotification (JStr token)]
                         (push_gateway env
                            [pushMessage testNotification (JStr token)])]))
  /\ (forall token,
        method req = "POST" /\ admitted req w
        /\ js_get (body req) "token" = JStr token
        /\ isValidExpoPushToken (JStr token) = true ->
        statusOf (sendTestNotification env req w)
        = Some (match push_tokens w !! token with Some _ => 200 | None => 404 end)).
Proof.
  cbv zeta.
  destruct (sendTestNotification_world env req w) as (m & evs & -> & Hcalls).
  split; [done|]. split; [done|]. split; [done|]. split.
  - exists (gatewayCalls evs). split.
    + unfold append_events; cbn [events with_rateLimitMap].
      unfold gatewayCalls. by rewrite filter_app.
    + destruct Hcalls as [->|Hpost]; [by left|by right].
  - intros token (Hm & Hadm & Htok & Hvalid).
    by apply sendTestNotification_run.
Qed.

Section Dispatch.

Variable env : Env.

Lemma batches_aux_length {A} fuel n (l : list A) :
  (length l <= fuel)%nat ->
  length (batches_aux fuel (S n) l) = ((length l + n) / S n)%nat.
Proof.
  revert l. induction fuel as [|fuel IH]; intros l Hl.
  - destruct l; [|simpl in Hl; lia]. simpl length.
    symmetry. apply Nat.div_small. lia.
  - destruct l as [|x l].
    { simpl length. symmetry. apply Nat.div_small. lia. }
    cbn [batches_aux length]. rewrite IH by (rewrite length_drop; simpl in *; lia).
    rewrite length_drop. cbn [length].
    destruct (decide (S n <= S (length l))%nat) as [Hge|Hlt].
    + replace (S (length l) + n)%nat
        with ((S (length l) - S n + n) + 1 * S n)%nat by lia.
      rewrite Nat.div_add by lia. lia.
    + replace (S (length l) - S n + n)%nat with n by lia.
      rewrite Nat.div_small by lia.
      apply (Nat.div_unique _ _ 1 (length l)); lia.
Qed.

Lemma pushMessage_to n (tokens : list JsVal) :
  pm_to <$> (pushMessage n <$> tokens) = tokens.
Proof.
  induction tokens as [|t ts IH]; [done|].
  rewrite !fmap_cons. by rewrite IH.
Qed.

End Dispatch.

(** X17.  [sendExpoPushNotification] always completes, whatever the gateway
    answers or however it fails.  It posts the messages in consecutive
    batches: ceil(n / 100) calls for n tokens (none for no token), none
    empty, none over 100 messages, which together address every token
    exactly once and in order; a failed call does not stop the later ones.
    It writes to no collection. *)
Theorem sendExpoPushNotification_batches env (tokens : list JsVal)
    (n : NotificationPayload) (w : World) :
  let w' := (sendExpoPushNotification env tokens n w).2 in
  (sendExpoPushNotification env tokens n w).1 = Ok tt
  /\ (exists bs,
        events w' = events w ++ posts env bs
        /\ pm_to <$> concat bs = tokens
        /\ Forall (fun b => (0 < length b <= 100)%nat) bs
        /\ length bs = ((length tokens + 99) / 100)%nat)
  /\ push_tokens w' = push_tokens w /\ prices w' = prices w
  /\ deals w' = deals w.
Proof.
  cbv zeta. rewrite sendExpoPushNotification_run. split; [done|].
  split; [|done].
  exists (batches 100 (pushMessage n <$> tokens)).
  destruct (batches_100 (pushMessage n <$> tokens)) as [Hcat Hall].
  split; [done|]. split; [by rewrite Hcat, pushMessage_to|].
  split; [done|].
  unfold batches. rewrite (batches_aux_length _ 99) by done.
  by rewrite length_fmap.
Qed.

Section MalformedRecord.

Variable env : Env.

Lemma eligibleLoop_throws deal docs : forall acc w d,
  d ∈ docs -> d !! "watchedSets" = None ->
  (eligibleLoop deal docs acc w).1 = Throw "TypeError".
Proof.
  induction docs as [|x docs IH]; intros acc w d Hin Hd.
  - by apply elem_of_nil in Hin.
  - cbn [eligibleLoop]. unfold watched, mbind, M_bind, mret, M_ret, throw.
    destruct (truthy_str (theme deal)).
    + destruct (field x "watchedThemes"); try done.
      destruct (field x "watchedSets") eqn:Hx; try done.
      apply elem_of_cons in Hin as [->|Hin]; [|by apply (IH _ _ d)].
      unfold field in Hx. by rewrite Hd in Hx.
    + destruct (field x "watchedSets") eqn:Hx; try done.
      apply elem_of_cons in Hin as [->|Hin]; [|by apply (IH _ _ d)].
      unfold field in Hx. by rewrite Hd in Hx.
Qed.

Lemma query_elem p (c : Collection) id d :
  c !! id = Some d -> p d = true -> d ∈ query p c.
Proof.
  intros Hd Hp. unfold query. apply list_elem_of_filter. split; [done|].
  apply list_elem_of_fmap. exists (id, d). split; [done|].
  by apply elem_of_map_to_list.
Qed.

Lemma notifyHotDeal_throws deal w id d :
  (percentOff deal <? #40)%js = false ->
  push_tokens w !! id = Some d ->
  enabled_and_threshold (percentOff deal) d = true ->
  d !! "watchedSets" = None ->
  notifyHotDeal env deal w
  = (Throw "TypeError", append_events [RegistryQuery (percentOff deal)] w).
Proof.
  intros Hhot Hid Hq Hd. unfold notifyHotDeal. rewrite Hhot.
  unfold mbind, M_bind.
  pose proof (getEligiblePushTokens_world deal w) as Hw.
  assert ((getEligiblePushTokens deal w).1 = Throw "TypeError") as Hthrow.
  { unfold getEligiblePushTokens, mbind, M_bind, emit, modify, get_world.
    apply (eligibleLoop_throws _ _ _ _ d); [|done].
    by apply (query_elem _ _ id). }
  destruct (getEligiblePushTokens deal w) as [r w1].
  cbn [fst snd] in *. by subst.
Qed.

End MalformedRecord.



Section Cors.

Variable env : Env.

Lemma prefix_iff a s :
  String.prefix a s = true <-> exists suffix, s = a +:+ suffix.
Proof.
  revert s. induction a as [|c a IH]; intros s.
  - split; [intros _; by exists s|by destruct s].
  - destruct s as [|c' s]; cbn [String.prefix].
    + split; [done|]. by intros [suffix Hs].
    + destruct (ascii_dec c c') as [->|Hne].
      * rewrite IH. split.
        -- intros [suffix ->]. by exists suffix.
        -- intros [suffix Hs]. exists suffix.
           change (String c' a +:+ suffix) with (String c' (a +:+ suffix)) in Hs.
           congruence.
      * split; [done|]. intros [suffix Hs].
        change (String c a +:+ suffix) with (String c (a +:+ suffix)) in Hs.
        congruence.
Qed.

Lemma isAllowed_iff origin :
  existsb (fun allowed => String.prefix allowed origin || String.eqb allowed "*")
          ALLOWED_ORIGINS = true
  <-> exists allowed suffix,
        allowed ∈ ALLOWED_ORIGINS /\ origin = allowed +:+ suffix.
Proof.
  rewrite existsb_exists. split.
  - intros (allowed & Hin & Hok). apply list_elem_of_In in Hin.
    exists allowed.
    assert (String.eqb allowed "*" = false) as Hstar.
    { unfold ALLOWED_ORIGINS in Hin.
      repeat (apply elem_of_cons in Hin as [->|Hin]; [done|]).
      by apply elem_of_nil in Hin. }
    rewrite Hstar, orb_false_r in Hok.
    apply prefix_iff in Hok as [suffix ->]. by exists suffix.
  - intros (allowed & suffix & Hin & ->). exists allowed.
    split; [by apply list_elem_of_In|].
    apply orb_true_iff. left. apply prefix_iff. by exists suffix.
Qed.

End Cors.

(** X19.  [setCorsHeaders] always sets the same four headers; only the
    allowed origin varies and it is never empty.  With an API key
    configured, the request's Origin is echoed back exactly when it STARTS
    WITH one of the allowed origins (so an origin such as
    https://brickdealhunter.com.example.net is echoed too) and the first
    allowed origin is answered otherwise, the wildcard never; with no API
    key configured every Origin is echoed, and a request without Origin gets
    the wildcard. *)
Theorem setCorsHeaders_origin env (req : Request) :
  let origin := default "" (headers req !! "origin") in
  exists allow,
    setCorsHeaders env req
    = [ ("Access-Control-Allow-Origin", allow);
        ("Access-Control-Allow-Methods", "POST, OPTIONS");
        ("Access-Control-Allow-Headers", "Content-Type, X-API-Key, Authorization");
        ("Access-Control-Max-Age", "86400") ]
    /\ allow <> ""
    /\ (APP_API_KEY env = "" ->
        (origin = "" -> allow = "*") /\ (origin <> "" -> allow = origin))
    /\ (APP_API_KEY env <> "" ->
        ((exists allowed suffix,
            allowed ∈ ALLOWED_ORIGINS /\ origin = allowed +:+ suffix) ->
         allow = origin)
        /\ ((forall allowed suffix,
               allowed ∈ ALLOWED_ORIGINS -> origin <> allowed +:+ suffix) ->
            allow = "https://brickdealhunter.com")
        /\ allow <> "*").
Proof.
  intros origin. unfold setCorsHeaders. fold origin.
  pose proof (isAllowed_iff origin) as Hallowed.
  destruct (existsb _ ALLOWED_ORIGINS) eqn:Hex.
  - destruct (proj1 Hallowed eq_refl) as (allowed & suffix & Hin & Horigin).
    assert (origin <> "" /\ origin <> "*") as [Hne Hstar].
    { rewrite Horigin. unfold ALLOWED_ORIGINS in Hin.
      repeat (apply elem_of_cons in Hin as [->|Hin]; [done|]).
      by apply elem_of_nil in Hin. }
    cbn [orb]. apply String.eqb_neq in Hne as Hne'. rewrite Hne'.
    eexists. split; [done|]. split; [done|]. split; [done|].
    intros _. split; [done|]. split; [|done].
    intros Hnone. by destruct (Hnone allowed suffix Hin).
  - cbn [orb]. destruct (String.eqb_spec (APP_API_KEY env) "") as [Hdev|Hprod].
    + destruct (String.eqb_spec origin "") as [Ho|Ho].
      * eexists. split; [done|]. split; [done|]. split; [done|]. done.
      * eexists. split; [done|]. split; [done|]. split; [done|]. done.
    + eexists. split; [done|]. split; [done|]. split; [done|].
      intros _. split; [|done].
      intros Hsome. apply Hallowed in Hsome. done.
Qed.

Section ApiKeyHeaders.

Lemma substring_whole s : String.substring 0 (String.length s) s = s.
Proof. induction s as [|c s IH]; [done|]. simpl. by rewrite IH. Qed.

Lemma remove_first_Bearer k : remove_first "Bearer " ("Bearer " +:+ k) = k.
Proof.
  change ("Bearer " +:+ k)
    with (String "B" (String "e" (String "a" (String "r" (String "e"
           (String "r" (String " " k))))))).
  destruct k as [|c k].
  - reflexivity.
  - cbn [remove_first String.prefix ascii_dec].
    change (String.prefix "Bearer " _) with true. cbv iota.
    cbn [String.length Nat.sub String.substring].
    f_equal. apply substring_whole.
Qed.

End ApiKeyHeaders.

(** X20.  With an API key configured, [validateApiKey] reads the key from
    X-API-Key whenever that header is not empty, and then ignores
    Authorization altogether (a wrong X-API-Key is refused even beside a
    right bearer token); only without X-API-Key does it take the
    Authorization header with "Bearer " removed, and a request with neither
    header is refused. *)
Theorem validateApiKey_precedence env (req : Request) :
  APP_API_KEY env <> "" ->
  (forall k, headers req !! "x-api-key" = Some k -> k <> "" ->
             validateApiKey env req = String.eqb k (APP_API_KEY env))
  /\ (headers req !! "x-api-key" = None \/ headers req !! "x-api-key" = Some "" ->
      (forall k, headers req !! "authorization" = Some ("Bearer " +:+ k) ->
                 validateApiKey env req = String.eqb k (APP_API_KEY env))
      /\ (headers req !! "authorization" = None ->
          validateApiKey env req = false)).
Proof.
  intros Hkey. apply String.eqb_neq in Hkey. unfold validateApiKey.
  rewrite Hkey. split.
  - intros k -> Hk. unfold str_or. apply String.eqb_neq in Hk. by rewrite Hk.
  - intros Hx.
    assert (forall b, str_or (headers req !! "x-api-key") b = b) as ->
      by (intros b; by destruct Hx as [-> | ->]).
    split.
    + intros k ->. cbn [fmap option_fmap option_map].
      by rewrite remove_first_Bearer.
    + by intros ->.
Qed.

Lemma validateApiKey_precedence_witness :
  let req := {| method := "POST";
                headers := {[ "x-api-key" := "guess";
                              "authorization" := "Bearer s3cret" ]};
                remoteAddress := None; body := JObj [] |} in
  let bearerOnly := {| method := "POST";
                       headers := {[ "authorization" := "Bearer s3cret" ]};
                       remoteAddress := None; body := JObj [] |} in
  validateApiKey prodEnv req = false
  /\ validateApiKey prodEnv bearerOnly = true.
Proof.
  intros req bearerOnly.
  assert (APP_API_KEY prodEnv <> "") as Hkey by discriminate.
  split.
  - pose proof (validateApiKey_precedence prodEnv req Hkey) as [Hx _].
    rewrite (Hx "guess"); [reflexivity|reflexivity|discriminate].
  - pose proof (validateApiKey_precedence prodEnv bearerOnly Hkey) as [_ Ha].
    destruct Ha as [Hb _]; [by left|].
    rewrite (Hb "s3cret"); reflexivity.
Defined.

Section ManualRun.

Variable env : Env.

Lemma quiet_trans w1 w2 w3 : quiet w1 w2 -> quiet w2 w3 -> quiet w1 w3.
Proof. unfold quiet. intros (?&?&?&?) (?&?&?&?). repeat split; congruence. Qed.

Lemma manualPair_run set retailer w :
  exists found w',
    manualPair env set retailer w = (Ok found, w') /\ quiet w w'.
Proof.
  destruct (generateSimulatedPrice_run env set retailer w) as (p & n & Hg).
  unfold manualPair, mbind, M_bind. rewrite Hg.
  unfold savePriceToFirestore, saveDealToFirestore, modify, mret, M_ret.
  destruct (deriveDeal p); by do 2 eexists.
Qed.

Lemma manualRetailers_run set rs : forall k w,
  exists n w',
    manualRetailers env set rs k w = (Ok n, w') /\ quiet w w'
    /\ (k <= n <= k + length rs)%nat.
Proof.
  induction rs as [|r rs IH]; intros k w; cbn [manualRetailers].
  - exists k, w. split; [done|]. split; [done|]. simpl. lia.
  - destruct (manualPair_run set r w) as (found & w1 & Hpair & Hq1).
    destruct (IH (tally found k) w1) as (n & w2 & Hrest & Hq2 & Hn).
    exists n, w2. unfold mbind, M_bind. rewrite Hpair, Hrest.
    split; [done|]. split; [by apply (quiet_trans _ w1)|].
    unfold tally in Hn. cbn [length]. destruct found; lia.
Qed.

Lemma manualSets_run sets : forall k w,
  exists n w',
    manualSets env sets k w = (Ok n, w') /\ quiet w w'
    /\ (k <= n <= k + 12 * length sets)%nat.
Proof.
  induction sets as [|set sets IH]; intros k w; cbn [manualSets].
  - exists k, w. split; [done|]. split; [done|]. simpl. lia.
  - destruct (manualRetailers_run set retailers k w)
      as (m & w1 & Hset & Hq1 & Hm).
    destruct (IH m w1) as (n & w2 & Hrest & Hq2 & Hn).
    exists n, w2. unfold mbind, M_bind. rewrite Hset, Hrest.
    split; [done|]. split; [by apply (quiet_trans _ w1)|].
    change (length retailers) with 12%nat in Hm. cbn [length]. lia.
Qed.

End ManualRun.


(** X22.  Each of the four registry endpoints looks at the method first: a
    request that is not a POST is answered 204 (OPTIONS) or 405 (any other
    method) with the CORS headers, and nothing happens: the limiter does not
    count it, the body is not read, no record is touched. *)
Theorem method_gate env (req : Request) (w : World) :
  method req <> "POST" ->
  Forall (fun endpoint =>
            exists res,
              endpoint req w = (Ok res, w)
              /\ status res = (if String.eqb (method req) "OPTIONS"
                               then 204 else 405)
              /\ res_headers res = setCorsHeaders env req)
         (registryEndpoints env).
Proof.
  intros Hm. apply String.eqb_neq in Hm.
  unfold registryEndpoints.
  repeat (apply Forall_cons; split); [..|apply Forall_nil_2];
    unfold registerPushToken, updateNotificationPreferences,
      unregisterPushToken, sendTestNotification;
    rewrite Hm; cbn [negb];
    destruct (String.eqb (method req) "OPTIONS"); by eexists.
Qed.

Lemma method_gate_witness :
  let req := {| method := "GET"; headers := ∅; remoteAddress := None;
                body := JObj [("token", JStr "ExponentPushToken[abc123]")] |} in
  Forall (fun endpoint => statusOf (endpoint req world0) = Some 405)
         (registryEndpoints prodEnv).
Proof.
  intros req.
  assert (method req <> "POST") as Hm by discriminate.
  pose proof (method_gate prodEnv req world0 Hm) as H.
  eapply Forall_impl; [exact H|].
  intros endpoint (res & Hrun & Hstatus & _).
  unfold statusOf. rewrite Hrun. cbn [fst]. by rewrite Hstatus.
Defined.

(** X23.  Each of the four registry endpoints asks the limiter before it
    reads the body: a POST that the limiter refuses is answered 429 and
    leaves the whole world as it was, the limiter's own count included (a
    refused request does not prolong the window), whatever the body holds. *)
Theorem limiter_gate env (req : Request) (w : World) :
  method req = "POST" ->
  (checkRateLimit (getClientIp req) w).1 = Ok false ->
  Forall (fun endpoint =>
            endpoint req w
            = (Ok (safeErrorResponse (setCorsHeaders env req) 429
                     "Too many requests"), w))
         (registryEndpoints env).
Proof.
  intros Hm Hrefused.
  pose proof (checkRateLimit_refused _ _ Hrefused) as Hw.
  unfold registryEndpoints.
  repeat (apply Forall_cons; split); [..|apply Forall_nil_2];
    unfold registerPushToken, updateNotificationPreferences,
      unregisterPushToken, sendTestNotification;
    rewrite Hm; cbn [String.eqb Ascii.eqb Bool.eqb negb];
    unfold mbind at 1, M_bind at 1;
    destruct (checkRateLimit (getClientIp req) w) as [r w1];
    cbn [fst snd] in *; by subst r w1.
Qed.

Lemma limiter_gate_witness :
  let req := anonymousTestRequest "ExponentPushToken[abc123]" in
  let w := limiterAt "198.51.100.9" 30 60000 in
  Forall (fun endpoint => statusOf (endpoint req w) = Some 429
                          /\ (endpoint req w).2 = w)
         (registryEndpoints prodEnv).
Proof.
  intros req w.
  assert ((checkRateLimit (getClientIp req) w).1 = Ok false) as Hrefused
    by (vm_compute; reflexivity).
  pose proof (limiter_gate prodEnv req w eq_refl Hrefused) as H.
  eapply Forall_impl; [exact H|].
  intros endpoint Hrun. rewrite Hrun. by split.
Defined.

(* ===================================================================== *)
(** * Rounding to binary64, in closed form *)
(* ===================================================================== *)

Section Shifts.

Lemma iter_pos_comm {A} (f : A -> A) p x :
  SpecFloat.iter_pos f p (f x) = f (SpecFloat.iter_pos f p x).
Proof.
  revert x. induction p as [p IH|p IH|]; intros x; simpl; [| |done].
  - by rewrite !IH.
  - by rewrite !IH.
Qed.

Lemma iter_pos_succ {A} (f : A -> A) p x :
  SpecFloat.iter_pos f (Pos.succ p) x = f (SpecFloat.iter_pos f p x).
Proof.
  revert x. induction p as [p IH|p IH|]; intros x; simpl; [| |done].
  - rewrite !IH. by rewrite !iter_pos_comm.
  - by rewrite !iter_pos_comm.
Qed.

Lemma shr_1_spec m r s :
  0 <= m ->
  shr_1 {| shr_m := m; shr_r := r; shr_s := s |}
  = {| shr_m := m / 2; shr_r := Z.odd m; shr_s := r || s |}.
Proof.
  intros Hm. rewrite <- Z.div2_div.
  destruct m as [|[p|p|]|p]; try done; lia.
Qed.

(** The low half of a remainder: the bit shifted out last, and the rest. *)
Lemma mod_pow2_succ m k :
  0 <= k ->
  m mod 2 ^ (k + 1)
  = m mod 2 ^ k + 2 ^ k * (if Z.testbit m k then 1 else 0).
Proof.
  intros Hk. rewrite Z.pow_add_r, Z.pow_1_r by lia.
  rewrite Z.rem_mul_r by lia. f_equal. f_equal.
  rewrite Z.testbit_odd, Z.shiftr_div_pow2 by lia.
  rewrite Zmod_odd. done.
Qed.

Lemma shr_iter m p :
  0 <= m ->
  SpecFloat.iter_pos shr_1 p {| shr_m := m; shr_r := false; shr_s := false |}
  = {| shr_m := m / 2 ^ Z.pos p;
       shr_r := Z.testbit m (Z.pos p - 1);
       shr_s := negb (m mod 2 ^ (Z.pos p - 1) =? 0) |}.
Proof.
  intros Hm. induction p as [|p IH] using Pos.peano_ind.
  - cbn [SpecFloat.iter_pos]. rewrite shr_1_spec by done.
    change (Z.pos 1 - 1) with 0. rewrite Z.bit0_odd, Z.pow_0_r, Z.mod_1_r.
    by rewrite Z.pow_1_r.
  - rewrite iter_pos_succ, IH.
    rewrite shr_1_spec by (apply Z.div_pos; lia).
    rewrite Pos2Z.inj_succ. f_equal.
    + rewrite Z.pow_succ_r by lia. rewrite Z.div_div by lia.
      f_equal. lia.
    + replace (Z.succ (Z.pos p) - 1) with (Z.pos p) by lia.
      rewrite Z.testbit_odd, Z.shiftr_div_pow2 by lia. done.
    + replace (Z.succ (Z.pos p) - 1) with (Z.pos p - 1 + 1) by lia.
      rewrite (mod_pow2_succ m (Z.pos p - 1)) by lia.
      pose proof (Z.mod_pos_bound m (2 ^ (Z.pos p - 1))) as Hb.
      assert (0 < 2 ^ (Z.pos p - 1)) as Hpow by (apply Z.pow_pos_nonneg; lia).
      specialize (Hb Hpow).
      destruct (Z.testbit m (Z.pos p - 1)); cbn [orb].
      * symmetry. apply negb_true_iff, Z.eqb_neq. lia.
      * by rewrite Z.mul_0_r, Z.add_0_r.
Qed.

End Shifts.

Section RoundingClosedForm.

Lemma digits2_bounds p :
  2 ^ (Z.pos (digits2_pos p) - 1) <= Z.pos p < 2 ^ Z.pos (digits2_pos p).
Proof.
  induction p as [p IH|p IH|]; cbn [digits2_pos].
  - rewrite Pos2Z.inj_succ.
    replace (Z.succ (Z.pos (digits2_pos p)) - 1)
      with (Z.succ (Z.pos (digits2_pos p) - 1)) by lia.
    rewrite !Z.pow_succ_r by lia. lia.
  - rewrite Pos2Z.inj_succ.
    replace (Z.succ (Z.pos (digits2_pos p)) - 1)
      with (Z.succ (Z.pos (digits2_pos p) - 1)) by lia.
    rewrite !Z.pow_succ_r by lia. lia.
  - done.
Qed.

Lemma Zdigits2_bounds m :
  0 < m -> 2 ^ (Zdigits2 m - 1) <= m < 2 ^ Zdigits2 m.
Proof. destruct m as [|p|p]; try lia. intros _. apply digits2_bounds. Qed.

Lemma Zdigits2_le m k : 0 < m -> m < 2 ^ k -> Zdigits2 m <= k.
Proof.
  intros Hm Hk. pose proof (Zdigits2_bounds m Hm) as [Hlo _].
  destruct (Z.le_gt_cases (Zdigits2 m) k) as [|Hgt]; [done|].
  assert (2 ^ k <= 2 ^ (Zdigits2 m - 1)) by (apply Z.pow_le_mono_r; lia).
  lia.
Qed.

Lemma round_after_shift m p :
  0 <= m ->
  let mrs := SpecFloat.iter_pos shr_1 p
               {| shr_m := m; shr_r := false; shr_s := false |} in
  round_nearest_even (shr_m mrs) (loc_of_shr_record mrs)
  = round_shift m (Z.pos p).
Proof.
  intros Hm. cbv zeta. rewrite shr_iter by done. unfold round_shift.
  cbn [shr_m loc_of_shr_record].
  assert (0 < 2 ^ (Z.pos p - 1)) as Hpow by (apply Z.pow_pos_nonneg; lia).
  pose proof (Z.mod_pos_bound m (2 ^ (Z.pos p - 1)) Hpow) as Hb.
  pose proof (mod_pow2_succ m (Z.pos p - 1)) as Hrest.
  replace (Z.pos p - 1 + 1) with (Z.pos p) in Hrest by lia.
  rewrite Hrest by lia.
  assert (2 ^ Z.pos p = 2 * 2 ^ (Z.pos p - 1)) as ->.
  { rewrite <- Z.pow_succ_r by lia. f_equal. lia. }
  destruct (Z.testbit m (Z.pos p - 1));
    destruct (m mod 2 ^ (Z.pos p - 1) =? 0) eqn:Hs; cbn [negb];
    [apply Z.eqb_eq in Hs|apply Z.eqb_neq in Hs
    |apply Z.eqb_eq in Hs|apply Z.eqb_neq in Hs].
  - rewrite (proj2 (Z.ltb_ge _ _)) by lia.
    rewrite (proj2 (Z.eqb_eq _ _)) by lia. done.
  - rewrite (proj2 (Z.ltb_ge _ _)) by lia.
    rewrite (proj2 (Z.eqb_neq _ _)) by lia. done.
  - rewrite (proj2 (Z.ltb_lt _ _)) by lia. done.
  - rewrite (proj2 (Z.ltb_lt _ _)) by lia. done.
Qed.

Lemma round_shift_bounds m n :
  0 <= m -> 0 < n ->
  let q := m / 2 ^ n in
  q <= round_shift m n <= q + 1
  /\ (round_shift m n = q + 1 -> 2 ^ n <= 2 * (m mod 2 ^ n))
  /\ (round_shift m n = q -> 2 * (m mod 2 ^ n) <= 2 ^ n).
Proof.
  intros Hm Hn. cbv zeta. unfold round_shift.
  destruct (2 * (m mod 2 ^ n) <? 2 ^ n) eqn:Hlt;
    [apply Z.ltb_lt in Hlt|apply Z.ltb_ge in Hlt].
  - repeat split; lia.
  - destruct (2 * (m mod 2 ^ n) =? 2 ^ n) eqn:Heq;
      [apply Z.eqb_eq in Heq|apply Z.eqb_neq in Heq].
    + destruct (Z.even _); repeat split; lia.
    + repeat split; lia.
Qed.

End RoundingClosedForm.

Section RoundAux.

Lemma fexp_ge_emin e : -1074 <= fexp prec emax e.
Proof. unfold fexp, emin, prec, emax. lia. Qed.

Lemma fexp_eq e : fexp prec emax e = Z.max (e - 53) (-1074).
Proof. done. Qed.

Lemma shr_none mrs e n : n <= 0 -> shr mrs e n = (mrs, e).
Proof. intros Hn. unfold shr. destruct n; try done; lia. Qed.

(** Rounding an exact positive integer mantissa [mx * 2^ex] to binary64
    when the result cannot overflow. *)
Lemma binary_round_aux_exact s mx ex :
  0 < mx ->
  let e1 := fexp prec emax (Zdigits2 mx + ex) in
  ex <= emax - prec -> e1 + 1 <= emax - prec ->
  binary_round_aux prec emax s mx ex loc_Exact
  = if e1 <=? ex then S754_finite s (Z.to_pos mx) ex
    else
      let m2 := round_shift mx (e1 - ex) in
      if m2 =? 0 then S754_zero s
      else if m2 <? 2 ^ 53 then S754_finite s (Z.to_pos m2) e1
      else S754_finite s (Z.to_pos (m2 / 2)) (e1 + 1).
Proof.
  intros Hmx e1 Hex Hov.
  unfold binary_round_aux, shr_fexp. fold e1. cbn [shr_record_of_loc].
  destruct (Z.leb_spec e1 ex) as [Hle|Hgt].
  - rewrite shr_none by lia.
    cbn [shr_m loc_of_shr_record round_nearest_even shr_record_of_loc].
    fold e1. rewrite shr_none by lia. cbn [shr_m].
    destruct mx as [|p|p]; try lia.
    apply Z.leb_le in Hex. rewrite Hex. done.
  - destruct (e1 - ex) as [|p|p] eqn:Hn; try lia.
    cbn [shr]. rewrite round_after_shift by lia.
    replace (ex + Z.pos p) with e1 by lia.
    cbv zeta. set (m2 := round_shift mx (Z.pos p)).
    assert (mx / 2 ^ Z.pos p < 2 ^ 53) as Hq.
    { apply Z.div_lt_upper_bound; [lia|].
      pose proof (Zdigits2_bounds mx Hmx) as [_ Hhi].
      rewrite <- Z.pow_add_r by lia.
      eapply Z.lt_le_trans; [exact Hhi|].
      apply Z.pow_le_mono_r; [lia|].
      subst e1. rewrite fexp_eq in Hn. lia. }
    pose proof (round_shift_bounds mx (Z.pos p)) as Hm2.
    cbv zeta in Hm2. destruct Hm2 as [[Hlo Hhi] _]; [lia..|]. fold m2 in Hlo, Hhi.
    assert (0 <= mx / 2 ^ Z.pos p) as Hq0 by (apply Z.div_pos; lia).
    pose proof (fexp_ge_emin (Zdigits2 mx + ex)) as Hemin. fold e1 in Hemin.
    destruct (Z.eqb_spec m2 0) as [Hz|Hnz].
    + rewrite Hz. cbn [Zdigits2 shr_record_of_loc].
      rewrite shr_none by (rewrite fexp_eq; lia). done.
    + destruct (Z.ltb_spec m2 (2 ^ 53)) as [Hlt|Hge].
      * cbn [shr_record_of_loc].
        rewrite shr_none.
        2:{ pose proof (Zdigits2_le m2 53 ltac:(lia) Hlt). rewrite fexp_eq. lia. }
        cbn [shr_m]. destruct m2 as [|q|q]; try lia.
        assert ((e1 <=? emax - prec) = true) as -> by (apply Z.leb_le; lia).
        done.
      * assert (m2 = 2 ^ 53) as -> by lia.
        cbn [shr_record_of_loc].
        change (Zdigits2 (2 ^ 53)) with 54.
        replace (fexp prec emax (54 + e1) - e1) with 1
          by (rewrite fexp_eq; lia).
        cbn [shr SpecFloat.iter_pos]. rewrite shr_1_spec by lia.
        cbn [shr_m].
        change (2 ^ 53 / 2) with 4503599627370496.
        assert ((e1 + 1 <=? emax - prec) = true) as -> by (apply Z.leb_le; lia).
        done.
Qed.

End RoundAux.

Section ScaledDraws.

Lemma unit_interval_finite m e :
  in_unit_interval (S754_finite false m e) = true ->
  -1074 <= e <= -52 /\ Z.pos m < 2 ^ 53 /\ Z.pos m < 2 ^ (- e).
Proof.
  unfold in_unit_interval, bounded, canonical_mantissa.
  intros [[Hcanon _]%andb_true_iff Hlt]%andb_true_iff.
  apply Z.eqb_eq in Hcanon. rewrite fexp_eq in Hcanon.
  pose proof (digits2_bounds m) as [_ Hhi].
  assert (Z.pos m < 2 ^ 53) as Hm.
  { eapply Z.lt_le_trans; [exact Hhi|]. apply Z.pow_le_mono_r; lia. }
  unfold ltb, SFltb in Hlt.
  change (#1)%js with (S754_finite false 4503599627370496 (-52)) in Hlt.
  cbn [SFcompare] in Hlt.
  destruct (e ?= -52) eqn:He; [| |done].
  - apply Z.compare_eq in He. subst e.
    by destruct (Pos.compare_cont Eq m 4503599627370496) eqn:Hc.
  - change (e < -52) in He.
    split; [lia|]. split; [done|].
    eapply Z.lt_le_trans; [exact Hm|]. apply Z.pow_le_mono_r; lia.
Qed.

(** The arithmetic of rounding [m * N / A] below [N] when [m / A] is at
    most [1 - 2^-53] and [N] is more than 16. *)
Lemma round_below N m A P U q rest m2 :
  16 < N -> 0 < m -> 0 < A -> 0 < P -> 2 ^ 48 <= U ->
  P * U = 2 ^ 48 * A ->
  2 ^ 53 * m <= (2 ^ 53 - 1) * A ->
  m * (N * 2 ^ 48) = q * P + rest -> 0 <= rest < P ->
  m2 = q \/ (m2 = q + 1 /\ P <= 2 * rest) ->
  m2 < N * U.
Proof.
  intros HN Hm HA HP HU HPU Hunit HM Hrest Hm2.
  assert (m < A) as HmA by nia.
  assert (q * P < N * U * P) as Hq by nia.
  assert (q < N * U) as Hq' by nia.
  destruct Hm2 as [->|[-> Hup]]; [done|].
  destruct (Z.lt_ge_cases (q + 1) (N * U)) as [|Hge]; [done|exfalso].
  assert (q + 1 = N * U) as Heq by lia.
  assert (P <= A) as HPA by nia.
  assert (2 * (m * (N * 2 ^ 48)) >= 2 * (N * 2 ^ 48 * A) - P) as H2M by nia.
  assert (2 ^ 53 * (2 * (m * (N * 2 ^ 48)))
          <= 2 * ((2 ^ 53 - 1) * A * (N * 2 ^ 48))) as Hup2 by nia.
  assert (2 * (N * 2 ^ 48 * A) <= 2 ^ 53 * P) as Hfin by nia.
  assert (N * A <= 16 * P) as Hfin' by lia.
  nia.
Qed.

Lemma Math_floor_small m e N :
  e < 0 -> 0 < Z.pos m < N * 2 ^ (- e) ->
  exists k, 0 <= k < N
            /\ Math_floor (S754_finite false m e) = floored k.
Proof.
  intros He [_ Hm]. unfold Math_floor, floored, signed.
  rewrite (proj2 (Z.leb_gt 0 e)) by done.
  exists (Z.pos m / 2 ^ (- e)). split; [|done].
  assert (0 < 2 ^ (- e)) by (apply Z.pow_pos_nonneg; lia).
  split; [apply Z.div_pos; lia|].
  apply Z.div_lt_upper_bound; [lia|]. lia.
Qed.

(** [Math.floor(r * N)] for a draw [r] and an integer [N] of five bits
    above 16 is one of [0 .. N-1]. *)
Lemma scaled_draw_floor N r :
  16 < N < 32 ->
  #N%js = S754_finite false (Z.to_pos (N * 2 ^ 48)) (-48) ->
  in_unit_interval r = true ->
  exists k, 0 <= k < N /\ Math_floor (r * #N)%js = floored k.
Proof.
  intros HN HofZ Hr.
  destruct r as [[]| | |[] m e]; try done.
  { exists 0. split; [lia|]. unfold mul. rewrite HofZ. done. }
  apply unit_interval_finite in Hr as (He & Hm53 & HmA).
  unfold mul. rewrite HofZ. cbn [SFmul xorb].
  rewrite Pos2Z.inj_mul, Z2Pos.id by lia.
  set (M := Z.pos m * (N * 2 ^ 48)). set (E := e + -48).
  assert (0 < M) as HM by (subst M; lia).
  set (A := 2 ^ (- e)) in *.
  assert (0 < A) as HA by (subst A; apply Z.pow_pos_nonneg; lia).
  assert (2 ^ (- E) = 2 ^ 48 * A) as HpowE.
  { subst A E. rewrite <- Z.pow_add_r by lia. f_equal. lia. }
  assert (M < N * 2 ^ (- E)) as HMN by (rewrite HpowE; subst M; nia).
  assert (Zdigits2 M + E <= 5) as Hd.
  { pose proof (Zdigits2_bounds M HM) as [Hlo _].
    destruct (Z.le_gt_cases (Zdigits2 M + E) 5) as [|Hgt]; [done|exfalso].
    assert (2 ^ (5 - E) <= 2 ^ (Zdigits2 M - 1))
      by (apply Z.pow_le_mono_r; lia).
    assert (2 ^ (5 - E) = 32 * 2 ^ (- E)) as Hsplit.
    { replace (5 - E) with (5 + - E) by lia.
      rewrite Z.pow_add_r by lia. done. }
    assert (0 < 2 ^ (- E)) by (apply Z.pow_pos_nonneg; lia).
    nia. }
  pose proof (fexp_ge_emin (Zdigits2 M + E)) as Hemin.
  rewrite binary_round_aux_exact; [|done|unfold emax, prec; lia|].
  2:{ rewrite fexp_eq. unfold emax, prec. lia. }
  set (e1 := fexp prec emax (Zdigits2 M + E)) in *.
  assert (e1 <= -48) as He1 by (subst e1; rewrite fexp_eq; lia).
  destruct (Z.leb_spec e1 E) as [Hle|Hgt].
  - apply Math_floor_small; [lia|]. rewrite Z2Pos.id by lia. lia.
  - cbv zeta.
    set (n := e1 - E). set (m2 := round_shift M n).
    set (P := 2 ^ n). set (U := 2 ^ (- e1)).
    assert (0 < P) as HP by (subst P; apply Z.pow_pos_nonneg; lia).
    assert (2 ^ 48 <= U) as HU by (subst U; apply Z.pow_le_mono_r; lia).
    assert (P * U = 2 ^ 48 * A) as HPU.
    { rewrite <- HpowE. subst P U n. rewrite <- Z.pow_add_r by lia.
      f_equal. lia. }
    assert (2 ^ 53 * Z.pos m <= (2 ^ 53 - 1) * A) as Hunit.
    { destruct (Z.le_gt_cases (2 ^ 53) A) as [Hbig|Hsmall]; [nia|].
      assert (Z.pos m <= A - 1) by lia. nia. }
    pose proof (round_shift_bounds M n ltac:(lia) ltac:(lia)) as Hm2.
    cbv zeta in Hm2. fold m2 P in Hm2. destruct Hm2 as ([Hlo Hhi] & Hup & _).
    pose proof (Z.div_mod M P ltac:(lia)) as Hdm.
    pose proof (Z.mod_pos_bound M P HP) as Hmod.
    assert (0 <= M / P) as Hq0 by (apply Z.div_pos; lia).
    assert (m2 < N * U) as Hbelow.
    { assert (Z.pos m * (N * 2 ^ 48) = M / P * P + M mod P) as HMeq
        by (fold M; lia).
      assert (m2 = M / P \/ (m2 = M / P + 1 /\ P <= 2 * (M mod P))) as Hcase.
      { destruct (Z.eq_dec m2 (M / P)) as [?|Hne]; [by left|right].
        split; [lia|]. apply Hup. lia. }
      exact (round_below N (Z.pos m) A P U (M / P) (M mod P) m2
               ltac:(lia) ltac:(lia) HA HP HU HPU Hunit HMeq Hmod Hcase). }
    destruct (Z.eqb_spec m2 0) as [Hz|Hnz].
    { exists 0. split; [lia|]. done. }
    destruct (Z.ltb_spec m2 (2 ^ 53)) as [Hlt|Hge].
    + apply Math_floor_small; [lia|]. rewrite Z2Pos.id by lia.
      fold U. lia.
    + apply Math_floor_small; [lia|].
      assert (0 < m2 / 2) by (apply Z.div_str_pos; lia).
      rewrite Z2Pos.id by lia.
      assert (U = 2 * 2 ^ (- (e1 + 1))) as HU2.
      { subst U. rewrite <- Z.pow_succ_r by lia. f_equal. lia. }
      split; [done|].
      apply Z.div_lt_upper_bound; [lia|]. lia.
Qed.

End ScaledDraws.

Section DiscountRolls.

Lemma floored_add_10 k :
  0 <= k < 31 -> (floored k + #10)%js = #(k + 10)%js.
Proof.
  intros Hk.
  assert (Forall (fun k => (floored k + #10)%js = #(k + 10)%js) (seqZ 0 31))
    as Hall by (apply (bool_decide_unpack _); vm_compute; exact I).
  rewrite Forall_forall in Hall. apply Hall, elem_of_seqZ. lia.
Qed.

Lemma floored_add_40 k :
  0 <= k < 21 -> (floored k + #40)%js = #(k + 40)%js.
Proof.
  intros Hk.
  assert (Forall (fun k => (floored k + #40)%js = #(k + 40)%js) (seqZ 0 21))
    as Hall by (apply (bool_decide_unpack _); vm_compute; exact I).
  rewrite Forall_forall in Hall. apply Hall, elem_of_seqZ. lia.
Qed.

(** [Math.floor(Math.random() * 31) + 10] *)
Lemma roll_10_40 r :
  in_unit_interval r = true ->
  exists d, 10 <= d <= 40 /\ (Math_floor (r * #31) + #10)%js = #d%js.
Proof.
  intros Hr.
  destruct (scaled_draw_floor 31 r) as (k & Hk & ->); [lia|done|done|].
  exists (k + 10). split; [lia|]. by apply floored_add_10.
Qed.

(** [Math.floor(Math.random() * 21) + 40] *)
Lemma roll_40_60 r :
  in_unit_interval r = true ->
  exists d, 40 <= d <= 60 /\ (Math_floor (r * #21) + #40)%js = #d%js.
Proof.
  intros Hr.
  destruct (scaled_draw_floor 21 r) as (k & Hk & ->); [lia|done|done|].
  exists (k + 40). split; [lia|]. by apply floored_add_40.
Qed.

End DiscountRolls.

(** X24.  When every draw of [Math.random] is a double in [0, 1),
    [generateSimulatedPrice] always returns, with the catalogue price as
    originalPrice and currentPrice = Math.round(originalPrice * (1 -
    discount / 100) * 100) / 100 for an integer discount that is 0 for the
    retailer "lego" and otherwise 0, or between 10 and 40, or between 40
    and 60: between 40 and 60 whenever the deep roll (the draw below 0.1)
    triggers, whatever the first roll gave; else between 10 and 40 when the
    first roll (the draw below 0.7) triggers; else 0.  A set that is not
    available is never in stock. *)
Theorem simulated_discount_range env (set : LegoSet) (retailer : string)
    (w : World) :
  (forall n, in_unit_interval (Math_random env n) = true) ->
  let first := (Math_random env (rolls w) <? dec 7 10)%js in
  let deep :=
    (Math_random env (if first then S (S (rolls w)) else S (rolls w))
     <? dec 1 10)%js in
  exists p discount,
    (generateSimulatedPrice env set retailer w).1 = Ok p
    /\ originalPrice p = set_price set
    /\ currentPrice p
       = (Math_round (set_price set * (#1 - #discount / #100) * #100)
          / #100)%js
    /\ (discount = 0 \/ 10 <= discount <= 60)
    /\ (retailer = "lego" -> discount = 0)
    /\ (retailer <> "lego" ->
        (deep = true -> 40 <= discount <= 60)
        /\ (deep = false -> first = true -> 10 <= discount <= 40)
        /\ (deep = false -> first = false -> discount = 0))
    /\ (set_availability set <> available -> inStock p = false).
Proof.
  intros Hdraw first deep. destruct w as [pr de pt rl cl ro ev].
  cbn [rolls] in first, deep.
  unfold generateSimulatedPrice, random, mbind, M_bind, mret, M_ret, Date_now.
  assert (set_availability set <> available ->
          availability_eqb (set_availability set) available = false) as Hstock.
  { intros Hna. by destruct (set_availability set). }
  destruct (String.eqb_spec retailer "lego") as [->|Hne].
  - simpl.
    destruct (availability_eqb (set_availability set) available) eqn:Hav;
      simpl; eexists; exists 0; (split; [reflexivity|]);
      cbn [originalPrice currentPrice inStock];
      repeat split; try done; try lia; try (by left);
      intros Hna; by specialize (Hstock Hna).
  - subst first deep. simpl.
    destruct (Math_random env ro <? dec 7 10)%js eqn:Hfirst; simpl.
    + destruct (roll_10_40 _ (Hdraw (S ro))) as (d1 & Hd1 & Hroll1).
      destruct (Math_random env (S (S ro)) <? dec 1 10)%js eqn:Hdeep; simpl.
      * destruct (roll_40_60 _ (Hdraw (S (S (S ro))))) as (d & Hd & Hroll).
        rewrite Hroll.
        destruct (availability_eqb (set_availability set) available) eqn:Hav;
          simpl; eexists; exists d; (split; [reflexivity|]);
          cbn [originalPrice currentPrice inStock];
          repeat split; try done; try lia;
          intros Hna; by specialize (Hstock Hna).
      * rewrite Hroll1.
        destruct (availability_eqb (set_availability set) available) eqn:Hav;
          simpl; eexists; exists d1; (split; [reflexivity|]);
          cbn [originalPrice currentPrice inStock];
          repeat split; try done; try lia;
          intros Hna; by specialize (Hstock Hna).
    + destruct (Math_random env (S ro) <? dec 1 10)%js eqn:Hdeep; simpl.
      * destruct (roll_40_60 _ (Hdraw (S (S ro)))) as (d & Hd & Hroll).
        rewrite Hroll.
        destruct (availability_eqb (set_availability set) available) eqn:Hav;
          simpl; eexists; exists d; (split; [reflexivity|]);
          cbn [originalPrice currentPrice inStock];
          repeat split; try done; try lia;
          intros Hna; by specialize (Hstock Hna).
      * destruct (availability_eqb (set_availability set) available) eqn:Hav;
          simpl; eexists; exists 0; (split; [reflexivity|]);
          cbn [originalPrice currentPrice inStock];
          repeat split; try done; try lia; try (by left);
          intros Hna; by specialize (Hstock Hna).
Qed.

Lemma simulated_discount_range_witness :
  exists p,
    (generateSimulatedPrice devEnv falcon "amazon" world0).1 = Ok p
    /\ currentPrice p
       = (Math_round (#100 * (#1 - #25 / #100) * #100) / #100)%js.
Proof.
  assert (forall n, in_unit_interval (Math_random devEnv n) = true) as Hdraw
    by (intros n; vm_compute; reflexivity).
  pose proof (simulated_discount_range devEnv falcon "amazon" world0 Hdraw)
    as (p & discount & Hrun & _ & Hprice & _ & _ & Hcases & _).
  exists p. split; [exact Hrun|].
  destruct Hcases as (_ & Hfirst & _); [discriminate|].
  assert (10 <= discount <= 40) as Hd
    by (apply Hfirst; vm_compute; reflexivity).
  rewrite Hprice.
  assert ((generateSimulatedPrice devEnv falcon "amazon" world0).1
          = Ok falconAtAmazon) as Hp by (vm_compute; reflexivity).
  rewrite Hp in Hrun. injection Hrun as <-. rewrite <- Hprice.
  vm_compute. reflexivity.
Defined.

Section CatalogueFetch.

Lemma theme_name_nonempty id :
  match theme_name id THEME_NAMES with
  | Some name => if String.eqb name "" then "LEGO" else name
  | None => "LEGO"
  end <> "".
Proof.
  unfold THEME_NAMES. cbn [theme_name].
  repeat (match goal with |- context [id =? ?k] => destruct (id =? k) end;
          [done|]).
  done.
Qed.

Lemma catalogEntry_wellFormed set :
  skipped set = false -> wellFormedEntry (catalogEntry set).
Proof.
  unfold skipped. intros Hkept.
  apply orb_false_iff in Hkept as [Hkept _].
  apply orb_false_iff in Hkept as [Himg Hparts].
  apply negb_false_iff in Himg.
  unfold wellFormedEntry, catalogEntry.
  cbn [set_availability set_price set_imageUrl set_theme set_pieces set_url
       set_setNumber].
  split; [done|]. split.
  { destruct (_ >? #0)%js eqn:Hpos; [exact Hpos|by vm_compute]. }
  split.
  { destruct (rb_set_img_url set) as [u|]; [|done]. simpl in *.
    intros ->. done. }
  split; [eexists; split; [done|apply theme_name_nonempty]|].
  split; [by eexists|done].
Qed.

Lemma keptEntries_wellFormed results :
  Forall wellFormedEntry (keptEntries results).
Proof.
  unfold keptEntries. apply Forall_fmap, Forall_forall.
  intros set [Hkept _]%list_elem_of_filter.
  by apply catalogEntry_wellFormed.
Qed.

Lemma fetchPages_run rebrickable remaining : forall page sets w,
  Forall wellFormedEntry sets ->
  exists result pauses,
    fetchPages rebrickable remaining page sets w
    = (Ok result, with_clock (fun t => t + 300 * Z.of_nat pauses) w)
    /\ Forall wellFormedEntry result
    /\ (pauses <= remaining)%nat.
Proof.
  induction remaining as [|remaining IH]; intros page sets w Hsets.
  - exists sets, 0%nat. cbn [fetchPages]. split; [|split; [done|lia]].
    destruct w. unfold with_clock, mret, M_ret; simpl.
    by rewrite Z.add_0_r.
  - cbn [fetchPages].
    assert (forall l : list LegoSet,
               (mret l : M _) w
               = (Ok l, with_clock (fun t => t + 300 * Z.of_nat 0) w)) as Hstop.
    { intros l. destruct w. unfold with_clock, mret, M_ret; simpl.
      by rewrite Z.add_0_r. }
    destruct (rebrickable page) as [results next| |].
    + destruct (length results =? 0)%nat.
      { exists sets, 0%nat. split; [apply Hstop|]. split; [done|lia]. }
      assert (Forall wellFormedEntry (sets ++ keptEntries results)) as Hall
        by (apply Forall_app; split; [done|apply keptEntries_wellFormed]).
      destruct next; cbn [negb].
      * unfold mbind, M_bind, sleep, modify.
        destruct (IH (S page) (sets ++ keptEntries results)
                    (with_clock (fun t => t + 300) w) Hall)
          as (result & pauses & -> & Hres & Hp).
        exists result, (S pauses). split; [|split; [done|lia]].
        f_equal. destruct w. unfold with_clock; simpl. f_equal. lia.
      * exists (sets ++ keptEntries results), 0%nat.
        split; [apply Hstop|]. split; [done|lia].
    + exists sets, 0%nat. split; [apply Hstop|]. split; [done|lia].
    + exists sets, 0%nat. split; [apply Hstop|]. split; [done|lia].
Qed.

Lemma fetchPages_local r1 r2 remaining : forall page sets w,
  (forall p, (page <= p < page + remaining)%nat -> r1 p = r2 p) ->
  fetchPages r1 remaining page sets w = fetchPages r2 remaining page sets w.
Proof.
  induction remaining as [|remaining IH]; intros page sets w Hsame; [done|].
  cbn [fetchPages]. rewrite <- (Hsame page) by lia.
  destruct (r1 page) as [results next| |]; try done.
  destruct (length results =? 0)%nat; [done|].
  destruct next; cbn [negb]; [|done].
  unfold mbind, M_bind, sleep, modify.
  apply IH. intros p Hp. apply Hsame. lia.
Qed.

End CatalogueFetch.


Section RegisteredSubscribers.

Variable env : Env.

(** The record a registration leaves under the token. *)
Lemma registerPushToken_doc req w token :
  method req = "POST" ->
  admitted req w ->
  js_get (body req) "token" = JStr token ->
  isValidExpoPushToken (JStr token) = true ->
  let t := tokenData token (js_get (body req) "platform")
             (js_get (body req) "preferences") (clock w) in
  push_tokens (registerPushToken env req w).2 !! token
  = Some (foldl merge_field (default ∅ (push_tokens w !! token))
            (pushTokenFields t))
  /\ forall id, id <> token ->
       push_tokens (registerPushToken env req w).2 !! id
       = push_tokens w !! id.
Proof.
  intros Hm Hadm Htoken Hvalid t.
  rewrite (registerPushToken_run env req w Hm Hadm), Htoken, Hvalid.
  cbn [snd with_push_tokens push_tokens].
  destruct (afterRateLimit_stores req w) as (-> & _ & ->). split.
  - apply set_merge_lookup.
  - intros id Hne. unfold set_merge. by rewrite lookup_insert_ne.
Qed.

Lemma elem_of_concat {A} (x : A) (ls : list (list A)) :
  x ∈ concat ls -> exists l, l ∈ ls /\ x ∈ l.
Proof.
  induction ls as [|l ls IH]; cbn [concat].
  - by intros ?%elem_of_nil.
  - intros [Hx|Hx]%elem_of_app.
    + exists l. split; [apply list_elem_of_here|done].
    + destruct (IH Hx) as (l' & Hl' & Hx'). exists l'.
      split; [by apply list_elem_of_further|done].
Qed.

End RegisteredSubscribers.

(** X26.  [registerPushToken] stores notificationsEnabled as the request
    gives it, without coercion: a value that is neither a boolean nor null
    or undefined (the number 1, the string "true") is stored as it is, and
    since the fan-out's query asks for notificationsEnabled == true, such a
    subscriber is selected for no deal at all.  Sent to
    [updateNotificationPreferences], the same value is stored as
    [Boolean(value)]. *)
Theorem registration_keeps_raw_flag env (req reqU : Request) (w : World)
    (token : string) (v : JsVal) :
  method req = "POST" -> admitted req w ->
  js_get (body req) "token" = JStr token ->
  isValidExpoPushToken (JStr token) = true ->
  js_get (js_get (body req) "preferences") "notificationsEnabled" = v ->
  is_atom v = true -> v <> JNull -> (forall b, v <> JBool b) ->
  let w1 := (registerPushToken env req w).2 in
  method reqU = "POST" -> admitted reqU w1 -> body reqU = body req ->
  let w2 := (updateNotificationPreferences env reqU w1).2 in
  (exists doc,
     push_tokens w1 !! token = Some doc
     /\ field doc "notificationsEnabled" = v
     /\ forall deal, enabled_and_threshold (percentOff deal) doc = false)
  /\ (exists doc,
        push_tokens w2 !! token = Some doc
        /\ field doc "notificationsEnabled" = JBool (js_truthy v)).
Proof.
  intros Hm Hadm Htoken Hvalid Hv Hatom Hnull Hbool w1 HmU HadmU Hbody w2.
  destruct (registerPushToken_doc env req w token Hm Hadm Htoken Hvalid)
    as [Hdoc _]. fold w1 in Hdoc.
  set (t := tokenData token _ _ _) in Hdoc.
  pose proof (pushTokenDoc_fields (default ∅ (push_tokens w !! token)) t)
    as Hfields. cbv zeta in Hfields.
  destruct Hfields as (_ & _ & Hen & _).
  assert (pt_notificationsEnabled t = v) as Ht.
  { subst t. unfold tokenData; cbn [pt_notificationsEnabled]. rewrite Hv.
    destruct v; try done. }
  rewrite Ht in Hen. specialize (Hen Hatom).
  split.
  - eexists. split; [exact Hdoc|]. split; [exact Hen|].
    intros deal. unfold enabled_and_threshold. rewrite Hen.
    destruct v as [| |b| | | | |]; try done. by destruct (Hbool b).
  - subst w2.
    rewrite (updateNotificationPreferences_run env reqU w1 HmU HadmU).
    rewrite Hbody, Htoken, Hvalid. cbv zeta. rewrite Hdoc.
    cbn [snd with_push_tokens push_tokens].
    eexists. split; [apply lookup_insert_eq|].
    unfold field. rewrite preferenceUpdates_lookup.
    repeat case_decide; try done.
    unfold givenEnabled. rewrite Hv.
    destruct v; try done.
Qed.

Lemma registration_keeps_raw_flag_witness :
  let req := registerRequest (JStr "ExponentPushToken[abc123]")
               (JObj [("notificationsEnabled", JStr "true")]) in
  let w1 := (registerPushToken devEnv req world0).2 in
  exists doc,
    push_tokens w1 !! "ExponentPushToken[abc123]" = Some doc
    /\ field doc "notificationsEnabled" = JStr "true"
    /\ enabled_and_threshold (percentOff falconDeal) doc = false.
Proof.
  intros req w1.
  assert (admitted req world0) as Hadm by reflexivity.
  assert (admitted req w1) as HadmU by (vm_compute; reflexivity).
  pose proof (registration_keeps_raw_flag devEnv req req world0
                "ExponentPushToken[abc123]" (JStr "true")
                eq_refl Hadm eq_refl eq_refl eq_refl eq_refl
                ltac:(discriminate) ltac:(discriminate)
                eq_refl HadmU eq_refl) as [(doc & Hdoc & Hflag & Hnever) _].
  exists doc. split; [exact Hdoc|]. split; [exact Hflag|apply Hnever].
Defined.

(** X27.  End to end: a token registered without preferences (enabled,
    threshold 20, nothing watched) is addressed by [notifyHotDeal] for every
    deal of 40% or more, whatever its theme and set: as long as the records
    the query returns all carry their two watched lists, one of the gateway
    calls made holds the hot-deal message for that token. *)
Theorem default_subscriber_is_notified env (req : Request) (w : World)
    (token : string) (deal : DealData) :
  method req = "POST" -> admitted req w ->
  js_get (body req) "token" = JStr token ->
  isValidExpoPushToken (JStr token) = true ->
  js_get (body req) "preferences" = JUndefined ->
  let w1 := (registerPushToken env req w).2 in
  (percentOff deal <? #40)%js = false ->
  (#20 <=? percentOff deal)%js = true ->
  Forall (fun d => is_subscriber d = true) (queried deal w1) ->
  exists batch,
    GatewayPost batch (push_gateway env batch)
      ∈ events (notifyHotDeal env deal w1).2
    /\ pushMessage (hotDealNotification deal) (JStr token) ∈ batch.
Proof.
  intros Hm Hadm Htoken Hvalid Hprefs w1 Hhot Hpct Hall.
  destruct (registerPushToken_doc env req w token Hm Hadm Htoken Hvalid)
    as [Hdoc _]. fold w1 in Hdoc.
  set (t := tokenData token _ _ _) in Hdoc.
  set (doc := foldl merge_field _ (pushTokenFields t)) in Hdoc.
  pose proof (pushTokenDoc_fields (default ∅ (push_tokens w !! token)) t)
    as Hfields. cbv zeta in Hfields. fold doc in Hfields.
  destruct Hfields as (Htok & _ & Hen & Hmin & Hth & Hse & _).
  assert (pt_notificationsEnabled t = JBool true /\ pt_minDiscountThreshold t = #20%js
          /\ pt_watchedThemes t = [] /\ pt_watchedSets t = []
          /\ pt_token t = token) as (Ht1 & Ht2 & Ht3 & Ht4 & Ht5).
  { subst t. unfold tokenData, minDiscount. rewrite Hprefs. done. }
  rewrite Ht1 in Hen. rewrite Ht2 in Hmin. rewrite Ht3 in Hth.
  rewrite Ht4 in Hse. rewrite Ht5 in Htok. specialize (Hen eq_refl).
  assert (doc ∈ queried deal w1) as Hq.
  { apply (query_elem _ _ token); [done|].
    unfold enabled_and_threshold. by rewrite Hen, Hmin. }
  assert (eligible deal doc = true) as Hel.
  { unfold eligible, watchedSetsOf. rewrite Hse.
    apply orb_true_iff. by right. }
  assert (JStr token
          ∈ (fun d => field d "token")
              <$> filter (fun d => eligible deal d = true) (queried deal w1))
    as Hin.
  { rewrite <- Htok.
    apply (list_elem_of_fmap_2 (fun d : Doc => field d "token")).
    apply list_elem_of_filter. by split. }
  unfold notifyHotDeal. rewrite Hhot. unfold mbind, M_bind.
  rewrite (getEligiblePushTokens_run deal w1 Hall).
  set (tokens := _ <$> filter _ (queried deal w1)) in *.
  clearbody tokens.
  destruct tokens as [|t0 rest]; [by apply elem_of_nil in Hin|].
  change (length (t0 :: rest) =? 0)%nat with false. cbv iota.
  rewrite sendExpoPushNotification_run. cbn [snd].
  set (msgs := pushMessage (hotDealNotification deal) <$> (t0 :: rest)).
  assert (pushMessage (hotDealNotification deal) (JStr token) ∈ msgs) as Hmsg
    by (by apply (list_elem_of_fmap_2 (pushMessage (hotDealNotification deal)))).
  destruct (batches_100 msgs) as [Hcat _].
  rewrite <- Hcat in Hmsg.
  apply elem_of_concat in Hmsg as (batch & Hbatch & Hmsg).
  exists batch. split; [|done].
  unfold append_events; cbn [events].
  apply elem_of_app. right. unfold posts.
  by apply (list_elem_of_fmap_2 (fun b => GatewayPost b (push_gateway env b))).
Qed.

Lemma default_subscriber_is_notified_witness :
  let req := registerRequest (JStr "ExponentPushToken[abc123]") JUndefined in
  let w1 := (registerPushToken devEnv req world0).2 in
  let deal := dealOn "10281" (Some "Icons") 45 in
  exists batch,
    GatewayPost batch (push_gateway devEnv batch)
      ∈ events (notifyHotDeal devEnv deal w1).2
    /\ pushMessage (hotDealNotification deal)
         (JStr "ExponentPushToken[abc123]") ∈ batch.
Proof.
  intros req w1 deal.
  assert (admitted req world0) as Hadm by reflexivity.
  assert ((percentOff deal <? #40)%js = false) as Hhot
    by (vm_compute; reflexivity).
  assert ((#20 <=? percentOff deal)%js = true) as Hpct
    by (vm_compute; reflexivity).
  assert (Forall (fun d => is_subscriber d = true) (queried deal w1)) as Hall.
  { apply forallb_Forall. vm_compute. reflexivity. }
  exact (default_subscriber_is_notified devEnv req world0
           "ExponentPushToken[abc123]" deal eq_refl Hadm eq_refl eq_refl
           eq_refl Hhot Hpct Hall).
Defined.



(** X29.  The limiter's map never forgets: no request removes an entry, and
    every request leaves an entry for its client address, admitted or not.
    After any run the addresses in the map are those that were there before
    together with all that sent a request, so the map grows with the number
    of distinct addresses seen. *)
Theorem limiter_never_forgets (reqs : list (string * Z)) (w : World)
    (ip : string) :
  is_Some (rateLimitMap (serveWorld reqs w) !! ip)
  <-> is_Some (rateLimitMap w !! ip) \/ ip ∈ reqs.*1.
Proof.
  revert w. induction reqs as [|[ip' t] reqs IH]; intros w; cbn [serveWorld].
  - rewrite fmap_nil, elem_of_nil. tauto.
  - rewrite IH, fmap_cons, elem_of_cons. cbn [fst].
    destruct (decide (ip = ip')) as [->|Hne].
    + destruct (arrive_record ip' t w) as (record & -> & _).
      split; [intros _; right; by left|intros _; left; by eexists].
    + rewrite arrive_other by done. tauto.
Qed.

Ltac extends_step :=
  unfold extends; split; [|split; [|split; [|split]]];
  [ try done | try done | try done
  | try (by exists []; rewrite app_nil_r) | try (simpl; lia) ].

Section PriceRunFrame.

Variable env : Env.

Lemma extends_refl w : extends w w.
Proof. extends_step. Qed.

Lemma extends_trans w1 w2 w3 : extends w1 w2 -> extends w2 w3 -> extends w1 w3.
Proof.
  intros (Hp1 & Hr1 & Hk1 & [e1 He1] & Hc1) (Hp2 & Hr2 & Hk2 & [e2 He2] & Hc2).
  repeat split; [congruence|congruence|by auto| |lia].
  exists (e1 ++ e2). by rewrite He2, He1, <- app_assoc.
Qed.

Lemma set_merge_keeps id data (c : Collection) k :
  is_Some (c !! k) -> is_Some (set_merge id data c !! k).
Proof.
  intros Hk. unfold set_merge. destruct (decide (k = id)) as [->|Hne].
  - rewrite lookup_insert_eq. by eexists.
  - by rewrite lookup_insert_ne.
Qed.

Lemma deriveAndPersist_extends p w : extends w (deriveAndPersist env p w).2.
Proof.
  destruct (deriveDeal p) as [d|] eqn:Hd.
  - destruct (deriveAndPersist_deals env p d w Hd) as (r & evs & ->).
    cbn [snd]. extends_step. by exists evs.
  - unfold deriveAndPersist. rewrite Hd. apply extends_refl.
Qed.

Lemma processPair_extends set retailer w :
  extends w (processPair env set retailer w).2.
Proof.
  destruct (generateSimulatedPrice_run env set retailer w) as (p & n & Hg).
  unfold processPair, mbind, M_bind. rewrite Hg.
  unfold savePriceToFirestore, modify.
  set (w1 := with_prices _ (with_rolls _ w)).
  assert (extends w w1) as H1.
  { subst w1. extends_step.
    intros id Hid. cbn [prices with_prices with_rolls].
    by apply set_merge_keeps. }
  pose proof (deriveAndPersist_extends p w1) as H2.
  destruct (deriveAndPersist env p w1) as [[found|e] w2]; cbn [snd] in *.
  - unfold sleep, modify, mret, M_ret. cbn [snd].
    apply (extends_trans _ w2); [by apply (extends_trans _ w1)|].
    extends_step.
  - by apply (extends_trans _ w1).
Qed.

Lemma forRetailers_extends set rs : forall k w,
  extends w (forRetailers env set rs k w).2.
Proof.
  induction rs as [|r rs IH]; intros k w; cbn [forRetailers].
  - apply extends_refl.
  - unfold mbind, M_bind.
    pose proof (processPair_extends set r w) as H1.
    destruct (processPair env set r w) as [[found|e] w1]; cbn [snd] in *;
      [|done].
    by apply (extends_trans _ w1).
Qed.

Lemma forSets_extends sets : forall k w,
  extends w (forSets env sets k w).2.
Proof.
  induction sets as [|set sets IH]; intros k w; cbn [forSets].
  - apply extends_refl.
  - unfold mbind, M_bind.
    pose proof (forRetailers_extends set retailers k w) as H1.
    destruct (forRetailers env set retailers k w) as [[n|e] w1];
      cbn [snd] in *; [|done].
    by apply (extends_trans _ w1).
Qed.

End PriceRunFrame.

(** X30.  Whether it completes or fails on the way, the scheduled price run
    never touches the subscriber registry or the limiter, never removes a
    price document (price documents are merged or added, and the cleanup
    only looks at deals), only appends to the log of outbound calls, and
    never sets the clock back. *)
Theorem scheduled_run_extends env (sets : list LegoSet) (w : World) :
  extends w (updatePricesOn env sets w).2.
Proof.
  unfold updatePricesOn, updatePricesLoop, mbind, M_bind.
  pose proof (forSets_extends env (slice0 100 sets) 0 w) as Hloop.
  destruct (forSets env (slice0 100 sets) 0 w) as [[n|e] w1];
    cbn [snd] in *; [|done].
  rewrite cleanOldDeals_run. cbn [snd mret M_ret].
  apply (extends_trans _ w1); [done|]. extends_step.
Qed.
